(** * libmega image utilities: a verification development

  A shallow embedding of the block codec of [imutils.cpp] (colour-space
  conversion, block sampling, quantization tables, the integer DCT
  kernels, the 16x16 encoder and the image tiler) together with the
  properties its specification states about them.

  Buffers are lists of [Z]; every fixed-width C value is a [Z] with the
  narrowing conversions written out; [float] and [double] values are
  IEEE-754 numbers of the standard library's [SpecFloat]. *)

From Stdlib Require Import ZArith List Lia Bool.
From Stdlib Require Import Floats.SpecFloat QArith Qabs Qpower Lqa.
Import ListNotations.

#[local] Open Scope Z_scope.

(** ** Fixed-width integers *)

Module Int.

(** Conversion to [int16_t]: two's complement wrap-around. *)
Definition to_int16 (z : Z) : Z := (z + 32768) mod 65536 - 32768.

(** Conversion to [int32_t]. *)
Definition to_int32 (z : Z) : Z := (z + 2147483648) mod 4294967296 - 2147483648.

(** Conversion to [size_t] (64 bits). *)
Definition to_size (z : Z) : Z := z mod 18446744073709551616.

(** [x >> n] on a signed operand: arithmetic shift. *)
Definition asr (x n : Z) : Z := Z.shiftr x n.

Definition is_int16 (z : Z) : Prop := -32768 <= z <= 32767.
Definition is_byte (z : Z) : Prop := 0 <= z <= 255.

Lemma to_int16_id z : is_int16 z -> to_int16 z = z.
Proof.
  unfold is_int16, to_int16; intros H.
  rewrite Z.mod_small; lia.
Qed.

Lemma to_int16_range z : is_int16 (to_int16 z).
Proof.
  unfold is_int16, to_int16.
  pose proof (Z.mod_pos_bound (z + 32768) 65536 ltac:(lia)); lia.
Qed.

Lemma to_int32_id z : -2147483648 <= z <= 2147483647 -> to_int32 z = z.
Proof.
  unfold to_int32; intros H.
  rewrite Z.mod_small; lia.
Qed.

Lemma asr_1 x : asr x 1 = x / 2.
Proof. unfold asr. now rewrite Z.shiftr_div_pow2. Qed.

Lemma asr_div x n : 0 <= n -> asr x n = x / 2 ^ n.
Proof. unfold asr. intros; now rewrite Z.shiftr_div_pow2. Qed.

Definition is_int16b (z : Z) : bool := (-32768 <=? z) && (z <=? 32767).

Lemma Forall_is_int16 l : forallb is_int16b l = true -> Forall is_int16 l.
Proof.
  intros H. apply Forall_forall. intros z Hz.
  rewrite forallb_forall in H. specialize (H z Hz).
  unfold is_int16b in H. apply andb_true_iff in H.
  unfold is_int16. lia.
Qed.

End Int.

(** ** Colour-space converter *)

Module Color.
Import Int.

(** [qmin], [qmax] and [clamp] of the source. *)
Definition qmin (a b : Z) : Z := if a <? b then a else b.
Definition qmax (a b : Z) : Z := if a >? b then a else b.
Definition clamp (v : Z) : Z := if v <? 0 then 0 else if v >? 255 then 255 else v.

(** The clamp changes its argument exactly when it lies outside [0,255]. *)
Definition clamp_triggers (v : Z) : bool := (v <? 0) || (v >? 255).

(** One iteration of the loop of [rgba_to_ycocga], on the three colour
    bytes just read; every intermediate is an [int16_t]. *)
Definition rgb_to_ycocg (r g b : Z) : Z * Z * Z :=
  let r := to_int16 r in
  let g := to_int16 g in
  let b := to_int16 b in
  let Co := to_int16 (r - b) in
  let t := to_int16 (b + asr Co 1) in
  let Cg := to_int16 (g - t) in
  let Y := to_int16 (t + asr Cg 1) in
  (Y, Co, Cg).

(** The loop of [rgba_to_ycocga]: [n] pixels are read through the moving
    pointer [RGBA]; the first component is what is stored through
    [YCoCg], the second what is stored through [A]. *)
Fixpoint rgba_to_ycocga_loop (n : nat) (RGBA : list Z) : list Z * list Z :=
  match n with
  | O => ([], [])
  | S n' =>
      match RGBA with
      | r :: g :: b :: a :: RGBA' =>
          let '(Y, Co, Cg) := rgb_to_ycocg r g b in
          let '(ycocg, alpha) := rgba_to_ycocga_loop n' RGBA' in
          (Y :: Co :: Cg :: ycocg, a :: alpha)
      | _ => ([], [])
      end
  end.

Definition rgba_to_ycocga (rgba : list Z) : list Z * list Z :=
  rgba_to_ycocga_loop 256 rgba.

(** One iteration of the loop of [ycocga_to_rgba] before the clamp: the
    [int16_t] values [r], [g], [b]. *)
Definition ycocg_to_rgb (y co cg : Z) : Z * Z * Z :=
  let t := to_int16 (y - asr cg 1) in
  let g := to_int16 (cg + t) in
  let b := to_int16 (t - asr co 1) in
  let r := to_int16 (b + co) in
  (r, g, b).

Fixpoint ycocga_to_rgba_loop (n : nat) (YCoCg A : list Z) : list Z :=
  match n with
  | O => []
  | S n' =>
      match YCoCg, A with
      | y :: co :: cg :: YCoCg', a :: A' =>
          let '(r, g, b) := ycocg_to_rgb y co cg in
          clamp r :: clamp g :: clamp b :: a :: ycocga_to_rgba_loop n' YCoCg' A'
      | _, _ => []
      end
  end.

Definition ycocga_to_rgba (ycocg alpha : list Z) : list Z :=
  ycocga_to_rgba_loop 256 ycocg alpha.

(** The values handed to [clamp] by the same loop, in the order they
    are clamped. *)
Fixpoint clamp_inputs_loop (n : nat) (YCoCg : list Z) : list Z :=
  match n with
  | O => []
  | S n' =>
      match YCoCg with
      | y :: co :: cg :: YCoCg' =>
          let '(r, g, b) := ycocg_to_rgb y co cg in
          r :: g :: b :: clamp_inputs_loop n' YCoCg'
      | _ => []
      end
  end.

Definition clamp_inputs (ycocg : list Z) : list Z := clamp_inputs_loop 256 ycocg.

(** *** Per-pixel facts *)

Lemma clamp_id v : is_byte v -> clamp v = v.
Proof.
  unfold is_byte, clamp; intros H.
  destruct (Z.ltb_spec v 0); [lia|].
  destruct (v >? 255) eqn:E; [|reflexivity].
  apply Z.gtb_lt in E; lia.
Qed.

Lemma clamp_triggers_false v : is_byte v -> clamp_triggers v = false.
Proof.
  unfold is_byte, clamp_triggers; intros H.
  apply orb_false_iff; split.
  - apply Z.ltb_ge; lia.
  - destruct (v >? 255) eqn:E; [|reflexivity].
    apply Z.gtb_lt in E; lia.
Qed.

(** Without the narrowing conversions the forward lifting is
    [Co = r - b], [t = b + Co/2], [Cg = g - t], [Y = t + Cg/2]. *)
Lemma rgb_to_ycocg_exact r g b :
  is_byte r -> is_byte g -> is_byte b ->
  rgb_to_ycocg r g b =
    (b + (r - b) / 2 + (g - (b + (r - b) / 2)) / 2,
     r - b,
     g - (b + (r - b) / 2)).
Proof.
  unfold is_byte, rgb_to_ycocg; intros Hr Hg Hb.
  rewrite (to_int16_id r), (to_int16_id g), (to_int16_id b)
    by (unfold is_int16; lia).
  rewrite (to_int16_id (r - b)) by (unfold is_int16; lia).
  rewrite !asr_1.
  assert (Ht : 0 <= b + (r - b) / 2 <= 255)
    by (Z.div_mod_to_equations; lia).
  rewrite (to_int16_id (b + (r - b) / 2)) by (unfold is_int16; lia).
  rewrite (to_int16_id (g - _)) by (unfold is_int16; lia).
  rewrite (to_int16_id (_ + _ / 2))
    by (unfold is_int16; Z.div_mod_to_equations; lia).
  reflexivity.
Qed.

Lemma rgb_to_ycocg_range r g b :
  is_byte r -> is_byte g -> is_byte b ->
  let '(Y, Co, Cg) := rgb_to_ycocg r g b in
  0 <= Y <= 255 /\ -255 <= Co <= 255 /\ -255 <= Cg <= 255.
Proof.
  intros Hr Hg Hb.
  rewrite rgb_to_ycocg_exact by assumption.
  unfold is_byte in *.
  repeat split; Z.div_mod_to_equations; lia.
Qed.

Lemma ycocg_to_rgb_inverse r g b :
  is_byte r -> is_byte g -> is_byte b ->
  let '(Y, Co, Cg) := rgb_to_ycocg r g b in
  ycocg_to_rgb Y Co Cg = (r, g, b).
Proof.
  intros Hr Hg Hb.
  rewrite rgb_to_ycocg_exact by assumption.
  unfold is_byte in *.
  unfold ycocg_to_rgb.
  rewrite !asr_1.
  set (t := b + (r - b) / 2).
  assert (Ht : 0 <= t <= 255)
    by (subst t; Z.div_mod_to_equations; lia).
  replace (t + (g - t) / 2 - (g - t) / 2) with t by lia.
  rewrite (to_int16_id t) by (unfold is_int16; lia).
  replace (g - t + t) with g by lia.
  rewrite (to_int16_id g) by (unfold is_int16; lia).
  replace (t - (r - b) / 2) with b by (subst t; lia).
  rewrite (to_int16_id b) by (unfold is_int16; lia).
  replace (b + (r - b)) with r by lia.
  rewrite (to_int16_id r) by (unfold is_int16; lia).
  reflexivity.
Qed.

(** *** Whole-buffer facts *)

Definition is_byteb (z : Z) : bool := (0 <=? z) && (z <=? 255).

Lemma Forall_is_byte l : forallb is_byteb l = true -> Forall is_byte l.
Proof.
  intros H. apply Forall_forall. intros z Hz.
  rewrite forallb_forall in H. specialize (H z Hz).
  unfold is_byteb in H. apply andb_true_iff in H.
  unfold is_byte. lia.
Qed.

Lemma rgba_to_ycocga_loop_length n : forall rgba,
  length rgba = (4 * n)%nat ->
  length (fst (rgba_to_ycocga_loop n rgba)) = (3 * n)%nat /\
  length (snd (rgba_to_ycocga_loop n rgba)) = n.
Proof.
  induction n as [|n IH]; intros rgba Hlen; [now split|].
  destruct rgba as [|r [|g [|b [|a rest]]]]; simpl in Hlen; try lia.
  cbn [rgba_to_ycocga_loop].
  destruct (rgb_to_ycocg r g b) as [[Y Co] Cg].
  specialize (IH rest ltac:(lia)).
  destruct (rgba_to_ycocga_loop n rest) as [yc al]; simpl in *.
  lia.
Qed.

Lemma roundtrip_loop n : forall rgba,
  length rgba = (4 * n)%nat -> Forall is_byte rgba ->
  ycocga_to_rgba_loop n (fst (rgba_to_ycocga_loop n rgba))
                        (snd (rgba_to_ycocga_loop n rgba)) = rgba /\
  Forall is_byte (clamp_inputs_loop n (fst (rgba_to_ycocga_loop n rgba))).
Proof.
  induction n as [|n IH]; intros rgba Hlen Hb.
  - destruct rgba; [split; [reflexivity|constructor]|discriminate].
  - destruct rgba as [|r [|g [|b [|a rest]]]]; simpl in Hlen; try lia.
    inversion Hb as [|? ? Hr Hb1]; subst.
    inversion Hb1 as [|? ? Hg Hb2]; subst.
    inversion Hb2 as [|? ? Hbb Hb3]; subst.
    inversion Hb3 as [|? ? Ha Hrest]; subst.
    cbn [rgba_to_ycocga_loop].
    pose proof (ycocg_to_rgb_inverse r g b Hr Hg Hbb) as Hinv.
    destruct (rgb_to_ycocg r g b) as [[Y Co] Cg].
    destruct (IH rest ltac:(lia) Hrest) as [IH1 IH2].
    destruct (rgba_to_ycocga_loop n rest) as [yc al].
    cbn [fst snd ycocga_to_rgba_loop clamp_inputs_loop] in *.
    rewrite Hinv. split.
    + rewrite !clamp_id by assumption. now rewrite IH1.
    + repeat (constructor; [assumption|]). exact IH2.
Qed.

Lemma forward_range_loop n : forall rgba (i : nat),
  length rgba = (4 * n)%nat -> Forall is_byte rgba -> (i < n)%nat ->
  let ycocg := fst (rgba_to_ycocga_loop n rgba) in
  0 <= nth (3 * i) ycocg 0 <= 255 /\
  -255 <= nth (3 * i + 1) ycocg 0 <= 255 /\
  -255 <= nth (3 * i + 2) ycocg 0 <= 255.
Proof.
  induction n as [|n IH]; intros rgba i Hlen Hb Hi; [lia|].
  destruct rgba as [|r [|g [|b [|a rest]]]]; simpl in Hlen; try lia.
  inversion Hb as [|? ? Hr Hb1]; subst.
  inversion Hb1 as [|? ? Hg Hb2]; subst.
  inversion Hb2 as [|? ? Hbb Hb3]; subst.
  inversion Hb3 as [|? ? Ha Hrest]; subst.
  cbn [rgba_to_ycocga_loop].
  pose proof (rgb_to_ycocg_range r g b Hr Hg Hbb) as Hrange.
  destruct (rgb_to_ycocg r g b) as [[Y Co] Cg].
  destruct i as [|i].
  - destruct (rgba_to_ycocga_loop n rest) as [yc al]. exact Hrange.
  - specialize (IH rest i ltac:(lia) Hrest ltac:(lia)).
    destruct (rgba_to_ycocga_loop n rest) as [yc al].
    cbn [fst] in *.
    replace (3 * S i)%nat with (S (S (S (3 * i)))) by lia.
    replace (S (S (S (3 * i))) + 1)%nat with (S (S (S (3 * i + 1)))) by lia.
    replace (S (S (S (3 * i))) + 2)%nat with (S (S (S (3 * i + 2)))) by lia.
    exact IH.
Qed.

(** A test block in the manner of [generate_rgba] of the test program:
    pixel [i] is [(i, i+1, i+2) mod 256] with alpha 255. *)
Definition generate_rgba (start : Z) (count : nat) : list Z :=
  flat_map (fun i => [(start + Z.of_nat i) mod 256;
                      (start + Z.of_nat i + 1) mod 256;
                      (start + Z.of_nat i + 2) mod 256; 255])
           (seq 0 count).

(** C1. Converting a 16x16 RGBA8 block to YCoCg with [rgba_to_ycocga] and
    back with [ycocga_to_rgba] gives back the input buffer exactly, and
    none of the 768 values handed to [clamp] by the inverse lies outside
    [0,255]: the clamp never triggers. *)
Theorem ycocg_roundtrip_exact (rgba : list Z) :
  length rgba = 1024%nat -> Forall is_byte rgba ->
  let '(ycocg, alpha) := rgba_to_ycocga rgba in
  ycocga_to_rgba ycocg alpha = rgba /\
  length (clamp_inputs ycocg) = 768%nat /\
  existsb clamp_triggers (clamp_inputs ycocg) = false.
Proof.
  intros Hlen Hb.
  destruct (roundtrip_loop 256 rgba Hlen Hb) as [H1 H2].
  unfold rgba_to_ycocga, ycocga_to_rgba, clamp_inputs.
  destruct (rgba_to_ycocga_loop 256 rgba) as [ycocg alpha] eqn:E.
  cbn [fst snd] in *.
  split; [exact H1|]. split.
  - assert (Hl : length (clamp_inputs_loop 256 ycocg) = (3 * 256)%nat).
    { pose proof (rgba_to_ycocga_loop_length 256 rgba Hlen) as [L _].
      rewrite E in L; cbn [fst] in L.
      clear - L. revert ycocg L. generalize 256%nat as n.
      induction n as [|n IH]; intros ycocg L; [reflexivity|].
      destruct ycocg as [|y [|co [|cg rest]]]; simpl in L; try lia.
      cbn [clamp_inputs_loop].
      destruct (ycocg_to_rgb y co cg) as [[r g] b]. simpl.
      rewrite (IH rest) by lia. lia. }
    exact Hl.
  - clear - H2. induction H2 as [|v l Hv _ IH]; [reflexivity|].
    simpl. now rewrite clamp_triggers_false, IH.
Qed.

Lemma ycocg_roundtrip_exact_witness :
  let rgba := generate_rgba 0 256 in
  let '(ycocg, alpha) := rgba_to_ycocga rgba in
  ycocga_to_rgba ycocg alpha = rgba /\
  length (clamp_inputs ycocg) = 768%nat /\
  existsb clamp_triggers (clamp_inputs ycocg) = false.
Proof.
  apply (ycocg_roundtrip_exact (generate_rgba 0 256)).
  - reflexivity.
  - apply Forall_is_byte. vm_compute. reflexivity.
Defined.

(** C6. For a block of 8-bit pixels the forward conversion stores, for
    every pixel [i], a luma value in [0,255] and chroma values in
    [-255,255] at offsets [3i], [3i+1] and [3i+2]. *)
Theorem ycocg_forward_range (rgba : list Z) (i : nat) :
  length rgba = 1024%nat -> Forall is_byte rgba -> (i < 256)%nat ->
  let ycocg := fst (rgba_to_ycocga rgba) in
  length ycocg = 768%nat /\
  0 <= nth (3 * i) ycocg 0 <= 255 /\
  -255 <= nth (3 * i + 1) ycocg 0 <= 255 /\
  -255 <= nth (3 * i + 2) ycocg 0 <= 255.
Proof.
  intros Hlen Hb Hi. split.
  - apply (rgba_to_ycocga_loop_length 256 rgba Hlen).
  - apply (forward_range_loop 256 rgba i Hlen Hb Hi).
Qed.

Lemma ycocg_forward_range_witness :
  let ycocg := fst (rgba_to_ycocga (generate_rgba 0 256)) in
  length ycocg = 768%nat /\
  0 <= nth (3 * 255) ycocg 0 <= 255 /\
  -255 <= nth (3 * 255 + 1) ycocg 0 <= 255 /\
  -255 <= nth (3 * 255 + 2) ycocg 0 <= 255.
Proof.
  apply (ycocg_forward_range (generate_rgba 0 256) 255).
  - reflexivity.
  - apply Forall_is_byte. vm_compute. reflexivity.
  - lia.
Defined.

End Color.

(** ** Arrays *)

Module Arr.

(** [a[i]]; a read outside the list gives 0. *)
Definition get (a : list Z) (i : nat) : Z := nth i a 0.

(** [a[i] = v]; a store outside the list leaves the list as it is. *)
Fixpoint upd (a : list Z) (i : nat) (v : Z) : list Z :=
  match a, i with
  | [], _ => []
  | _ :: a', O => v :: a'
  | x :: a', S i' => x :: upd a' i' v
  end.

(** The values [f 0], ..., [f (n-1)] stored through a moving pointer. *)
Definition tabulate (n : nat) (f : nat -> Z) : list Z := map f (seq 0 n).

Lemma tabulate_length n f : length (tabulate n f) = n.
Proof. unfold tabulate. now rewrite length_map, length_seq. Qed.

Lemma get_tabulate n f i : (i < n)%nat -> get (tabulate n f) i = f i.
Proof.
  intros Hi. unfold get, tabulate.
  rewrite (nth_indep _ 0 (f 0%nat)) by now rewrite length_map, length_seq.
  rewrite map_nth, seq_nth by assumption. reflexivity.
Qed.

Lemma upd_length a : forall i v, length (upd a i v) = length a.
Proof.
  induction a as [|x a IH]; intros [|i] v; simpl; auto.
Qed.

Lemma get_upd_eq a : forall i v, (i < length a)%nat -> get (upd a i v) i = v.
Proof.
  unfold get. induction a as [|x a IH]; intros [|i] v Hi; simpl in *; try lia.
  apply IH. lia.
Qed.

Lemma get_upd_neq a : forall i j v, i <> j -> get (upd a i v) j = get a j.
Proof.
  unfold get. induction a as [|x a IH]; intros [|i] [|j] v Hij; simpl;
    try reflexivity; try lia.
  apply IH. lia.
Qed.

(** A list of known length is the table of its entries. *)
Lemma tabulate_get a : a = tabulate (length a) (get a).
Proof.
  apply nth_ext with (d := 0) (d' := 0).
  - now rewrite tabulate_length.
  - intros i Hi. symmetry. exact (get_tabulate (length a) (get a) i Hi).
Qed.

(** Equality test on arrays. *)
Fixpoint eqb (a b : list Z) : bool :=
  match a, b with
  | [], [] => true
  | x :: a', y :: b' => (x =? y) && eqb a' b'
  | _, _ => false
  end.

Lemma eqb_eq a : forall b, eqb a b = true -> a = b.
Proof.
  induction a as [|x a IH]; intros [|y b] H; simpl in H; try discriminate.
  - reflexivity.
  - apply andb_true_iff in H. destruct H as [Hx Hab].
    apply Z.eqb_eq in Hx. subst y. f_equal. now apply IH.
Qed.

(** The integers [lo], [lo+1], ..., [lo+n-1]. *)
Definition zrange (lo : Z) (n : nat) : list Z :=
  map (fun k => lo + Z.of_nat k) (seq 0 n).

Lemma in_zrange lo n v : lo <= v < lo + Z.of_nat n -> In v (zrange lo n).
Proof.
  intros H. unfold zrange. apply in_map_iff.
  exists (Z.to_nat (v - lo)). split; [lia|].
  apply in_seq. lia.
Qed.

End Arr.

(** ** Quantization-table engine: the integer tables *)

Module Quant.
Import Int Color Arr.

(** The base quantization coefficients of the JPEG standard. *)
Definition JPEGLumaQuant : list Z :=
  [ 16;  11;  12;  14;   12;  10;  16;  14;
    13;  14;  18;  17;   16;  19;  24;  40;
    26;  24;  22;  22;   24;  49;  35;  37;
    29;  40;  58;  51;   61;  60;  57;  51;
    56;  55;  64;  72;   92;  78;  64;  68;
    87;  69;  55;  56;   80; 109;  81;  87;
    95;  98; 103; 104;  103;  62;  77; 113;
   121; 112; 100; 120;   92; 101; 103;  99 ].

Definition JPEGChromaQuant : list Z :=
  [ 17;  18;  18;  24;   21;  24;  47;  26;
    26;  47;  99;  66;   56;  66;  99;  99;
    99;  99;  99;  99;   99;  99;  99;  99;
    99;  99;  99;  99;   99;  99;  99;  99;
    99;  99;  99;  99;   99;  99;  99;  99;
    99;  99;  99;  99;   99;  99;  99;  99;
    99;  99;  99;  99;   99;  99;  99;  99;
    99;  99;  99;  99;   99;  99;  99;  99 ].

(** The two [if]s at the head of [quantization_table]. *)
Definition clamp_quality (quality : Z) : Z :=
  let quality := if quality <? 1 then 1 else quality in
  if quality >? 100 then 100 else quality.

(** [int16_t q = (quality < 50) ? (5000 / quality) : (200 - quality * 2)],
    on the quality already clamped; C's [/] truncates. *)
Definition quality_scale (quality : Z) : Z :=
  to_int16 (if quality <? 50 then Z.quot 5000 quality else 200 - quality * 2).

(** The body of the loop: [c] is an [int16_t], and the [int32_t] that
    [qmin] returns is stored into an [int16_t]. *)
Definition quantization_entry (b q : Z) : Z :=
  let c := to_int16 (Z.quot (b * q + 50) 100) in
  to_int16 (qmin (qmax c 1) 255).

Definition quantization_table (Qbase : list Z) (quality : Z) : list Z :=
  let quality := clamp_quality quality in
  let q := quality_scale quality in
  tabulate 64 (fun i => quantization_entry (get Qbase i) q).

Definition quantization_table_luma (quality : Z) : list Z :=
  quantization_table JPEGLumaQuant quality.

Definition quantization_table_chroma (quality : Z) : list Z :=
  quantization_table JPEGChromaQuant quality.

(** [scaled_qtable_int16]: both tables are copies of [Qbase]. *)
Definition scaled_qtable_int16 (Qbase : list Z) : list Z * list Z :=
  (tabulate 64 (get Qbase), tabulate 64 (get Qbase)).

(** The formulas as the specification writes them: the quality is
    clamped to [1,100], integer division rounds down, and the result is
    clamped to [1,255]. *)
Definition spec_quality (quality : Z) : Z := Z.min (Z.max quality 1) 100.

Definition spec_scale (quality : Z) : Z :=
  if quality <? 50 then 5000 / quality else 200 - 2 * quality.

Definition spec_entry (b q : Z) : Z := Z.min (Z.max ((b * q + 50) / 100) 1) 255.

Lemma clamp_quality_spec quality : clamp_quality quality = spec_quality quality.
Proof.
  unfold clamp_quality, spec_quality.
  destruct (Z.ltb_spec quality 1).
  - destruct (1 >? 100) eqn:E; [discriminate|]. lia.
  - destruct (quality >? 100) eqn:E.
    + apply Z.gtb_lt in E. lia.
    + assert (quality <= 100) by (rewrite Z.gtb_ltb in E; apply Z.ltb_ge in E; lia).
      lia.
Qed.

Lemma quality_scale_spec quality :
  1 <= quality <= 100 ->
  quality_scale quality = spec_scale quality /\ 0 <= spec_scale quality <= 5000.
Proof.
  intros Hq. unfold quality_scale, spec_scale.
  rewrite Z.quot_div_nonneg by lia.
  destruct (Z.ltb_spec quality 50).
  - assert (0 <= 5000 / quality <= 5000).
    { split; [apply Z.div_pos; lia|].
      apply Z.div_le_upper_bound; lia. }
    split; [apply to_int16_id; unfold is_int16; lia | lia].
  - split; [rewrite to_int16_id by (unfold is_int16; lia); lia | lia].
Qed.

Lemma qmin_qmax_range c : 1 <= qmin (qmax c 1) 255 <= 255.
Proof.
  unfold qmin, qmax.
  destruct (c >? 1) eqn:E1.
  - apply Z.gtb_lt in E1. destruct (Z.ltb_spec c 255); lia.
  - destruct (Z.ltb_spec 1 255); lia.
Qed.

Lemma qmin_qmax_spec c : qmin (qmax c 1) 255 = Z.min (Z.max c 1) 255.
Proof.
  unfold qmin, qmax.
  destruct (c >? 1) eqn:E1.
  - apply Z.gtb_lt in E1. destruct (Z.ltb_spec c 255); lia.
  - rewrite Z.gtb_ltb in E1. apply Z.ltb_ge in E1.
    destruct (Z.ltb_spec 1 255); lia.
Qed.

Lemma quantization_entry_range b q : 1 <= quantization_entry b q <= 255.
Proof.
  unfold quantization_entry.
  pose proof (qmin_qmax_range (to_int16 (Z.quot (b * q + 50) 100))).
  rewrite to_int16_id by (unfold is_int16; lia). assumption.
Qed.

(** While [(b*q + 50) / 100] fits an [int16_t] the entry is the
    specification's. *)
Lemma quantization_entry_spec b q :
  -655 <= b <= 655 -> 0 <= q <= 5000 ->
  quantization_entry b q = spec_entry b q.
Proof.
  intros Hb Hq. unfold quantization_entry, spec_entry.
  assert (Hbq : -3275000 <= b * q <= 3275000) by nia.
  assert (Hc : -32750 <= Z.quot (b * q + 50) 100 <= 32750).
  { pose proof (Z.quot_rem' (b * q + 50) 100).
    destruct (Z_le_gt_dec 0 (b * q + 50)).
    - pose proof (Z.rem_bound_pos (b * q + 50) 100 ltac:(lia) ltac:(lia)). lia.
    - pose proof (Z.rem_bound_pos_neg (b * q + 50) 100 ltac:(lia) ltac:(lia)). lia. }
  rewrite (to_int16_id (Z.quot _ _)) by (unfold is_int16; lia).
  pose proof (qmin_qmax_range (Z.quot (b * q + 50) 100)).
  rewrite to_int16_id by (unfold is_int16; lia).
  rewrite qmin_qmax_spec.
  destruct (Z_le_gt_dec 0 (b * q + 50)).
  - now rewrite Z.quot_div_nonneg by lia.
  - assert (Z.quot (b * q + 50) 100 <= 0).
    { pose proof (Z.quot_rem' (b * q + 50) 100).
      pose proof (Z.rem_bound_pos_neg (b * q + 50) 100 ltac:(lia) ltac:(lia)). lia. }
    assert ((b * q + 50) / 100 < 0) by (apply Z.div_lt_upper_bound; lia).
    lia.
Qed.

Lemma quantization_table_length Qbase quality :
  length (quantization_table Qbase quality) = 64%nat.
Proof. unfold quantization_table. apply tabulate_length. Qed.

Lemma get_quantization_table Qbase quality i :
  (i < 64)%nat ->
  get (quantization_table Qbase quality) i =
    quantization_entry (get Qbase i) (quality_scale (clamp_quality quality)).
Proof.
  intros Hi. unfold quantization_table. now rewrite get_tabulate.
Qed.

Lemma spec_quality_range quality : 1 <= spec_quality quality <= 100.
Proof. unfold spec_quality. lia. Qed.

Lemma spec_entry_100 b : 1 <= b <= 255 -> spec_entry b 100 = b.
Proof.
  intros Hb. unfold spec_entry.
  replace ((b * 100 + 50) / 100) with b
    by (apply Z.div_unique with (r := 50); lia).
  lia.
Qed.

(** The narrowing of [c] to [int16_t] happens before the clamp: a base
    entry of 656 at quality 1 gives 32800, which wraps to a negative
    value and is clamped to 1 instead of 255. *)
Example quantization_entry_wraps :
  quantization_entry 656 (quality_scale (clamp_quality 1)) = 1 /\
  spec_entry 656 (spec_scale (spec_quality 1)) = 255.
Proof. split; reflexivity. Qed.

(** C5, as stated, fails: a 64-entry table of [int16_t] whose entries
    exceed 255 is not reproduced at quality 50, since every output is
    clamped to [1,255]. *)
Lemma quantization_table_50_not_identity :
  let Qbase := repeat 300 64 in
  length Qbase = 64%nat /\ Forall is_int16 Qbase /\
  quantization_table Qbase 50 = repeat 255 64 /\
  quantization_table Qbase 50 <> Qbase.
Proof.
  cbv zeta. split; [reflexivity|]. split.
  - apply Forall_forall. intros z Hz. apply repeat_spec in Hz. subst z.
    unfold is_int16. lia.
  - split; [vm_compute; reflexivity|].
    intros H. apply (f_equal (fun l => nth 0 l 0)) in H.
    vm_compute in H. discriminate H.
Qed.

(** C5, amended. For every quality (clamped to [1,100] first) and every
    64-entry base table: the output has 64 entries, each in [1,255]; an
    entry whose base value has magnitude at most 655 is
    [clamp((Qbase[i]*q + 50) / 100, 1, 255)] with [q] as the
    specification computes it; and quality 50 gives back a base table
    whose entries lie in [1,255]. *)
Theorem quantization_table_correct (Qbase : list Z) (quality : Z) :
  length Qbase = 64%nat ->
  let Q := quantization_table Qbase quality in
  let q := spec_scale (spec_quality quality) in
  length Q = 64%nat /\
  (forall i, (i < 64)%nat -> 1 <= get Q i <= 255) /\
  (forall i, (i < 64)%nat -> -655 <= get Qbase i <= 655 ->
             get Q i = spec_entry (get Qbase i) q) /\
  (Forall (fun b => 1 <= b <= 255) Qbase -> quantization_table Qbase 50 = Qbase).
Proof.
  intros Hlen Q q. subst Q q.
  split; [apply quantization_table_length|].
  split; [|split].
  - intros i Hi. rewrite get_quantization_table by assumption.
    apply quantization_entry_range.
  - intros i Hi Hb. rewrite get_quantization_table by assumption.
    rewrite clamp_quality_spec.
    destruct (quality_scale_spec _ (spec_quality_range quality)) as [-> Hq].
    now apply quantization_entry_spec.
  - intros Hrange.
    rewrite (tabulate_get Qbase) at 2. rewrite Hlen.
    unfold quantization_table, tabulate.
    apply map_ext_in. intros i Hi. apply in_seq in Hi.
    change (quality_scale (clamp_quality 50)) with 100.
    assert (Hb : 1 <= get Qbase i <= 255).
    { rewrite Forall_forall in Hrange. apply Hrange.
      unfold get. apply nth_In. lia. }
    rewrite quantization_entry_spec by lia.
    now apply spec_entry_100.
Qed.

Lemma quantization_table_correct_witness :
  let Q := quantization_table JPEGLumaQuant 10 in
  let q := spec_scale (spec_quality 10) in
  length Q = 64%nat /\
  (forall i, (i < 64)%nat -> 1 <= get Q i <= 255) /\
  (forall i, (i < 64)%nat -> -655 <= get JPEGLumaQuant i <= 655 ->
             get Q i = spec_entry (get JPEGLumaQuant i) q) /\
  (Forall (fun b => 1 <= b <= 255) JPEGLumaQuant ->
   quantization_table JPEGLumaQuant 50 = JPEGLumaQuant).
Proof.
  apply (quantization_table_correct JPEGLumaQuant 10). reflexivity.
Defined.

End Quant.

(** ** Block sampler *)

Module Sampler.
Import Int Arr.

(** [subblock<int16_t>]: the 8x8 quadrant [(x, y)] of one channel. *)
Definition subblock (YCoCg : list Z) (x y channel : nat) : list Z :=
  let x := (x * 24 + channel)%nat in
  let y := (y * 8)%nat in
  concat (map (fun i =>
    let src := ((y + i) * 48 + x)%nat in
    [ get YCoCg (src + 0 * 3); get YCoCg (src + 1 * 3);
      get YCoCg (src + 2 * 3); get YCoCg (src + 3 * 3);
      get YCoCg (src + 4 * 3); get YCoCg (src + 5 * 3);
      get YCoCg (src + 6 * 3); get YCoCg (src + 7 * 3) ]) (seq 0 8)).

(** One output sample of [subsample]: the [int] sum of four samples,
    shifted right by two and stored as [int16_t]. *)
Definition box (YCoCg : list Z) (src1 src2 a b : nat) : Z :=
  to_int16 (asr (get YCoCg (src1 + a * 3) + get YCoCg (src1 + b * 3) +
                 get YCoCg (src2 + a * 3) + get YCoCg (src2 + b * 3)) 2).

(** [subsample<int16_t>]: the loop runs over [i = 0, 2, ..., 14]. *)
Definition subsample (YCoCg : list Z) (channel : nat) : list Z :=
  concat (map (fun k =>
    let i := (2 * k)%nat in
    let src1 := ((i + 0) * 48 + channel)%nat in
    let src2 := ((i + 1) * 48 + channel)%nat in
    [ box YCoCg src1 src2 0 1;   box YCoCg src1 src2 2 3;
      box YCoCg src1 src2 4 5;   box YCoCg src1 src2 6 7;
      box YCoCg src1 src2 8 9;   box YCoCg src1 src2 10 11;
      box YCoCg src1 src2 12 13; box YCoCg src1 src2 14 15 ]) (seq 0 8)).

(** The four stores of the inner loop body of [merge_blocks], for row
    [i] and column [j]. *)
Definition merge_step (src : list Z) (i j : nat) (dst : list Z) : list Z :=
  let dst := upd dst (0 + 16 * i + j) (get src (0 + 8 * i + j)) in
  let dst := upd dst (8 + 16 * i + j) (get src (64 + 8 * i + j)) in
  let dst := upd dst (128 + 16 * i + j) (get src (128 + 8 * i + j)) in
  upd dst (128 + 8 + 16 * i + j) (get src (192 + 8 * i + j)).

(** [merge_blocks]: [dst] is the destination array as it is on entry. *)
Definition merge_blocks (dst src : list Z) : list Z :=
  fold_left (fun dst i =>
    fold_left (fun dst j => merge_step src i j dst) (seq 0 8) dst)
    (seq 0 8) dst.

(** The four stores of the inner loop body of [scale_block], for row
    [i] and column [j]. *)
Definition scale_step (src : list Z) (i j : nat) (dst : list Z) : list Z :=
  let dst := upd dst (0 + 32 * i + j * 2 + 0) (get src (8 * i + j)) in
  let dst := upd dst (0 + 32 * i + j * 2 + 1) (get src (8 * i + j)) in
  let dst := upd dst (16 + 32 * i + j * 2 + 0) (get src (8 * i + j)) in
  upd dst (16 + 32 * i + j * 2 + 1) (get src (8 * i + j)).

Definition scale_block (dst src : list Z) : list Z :=
  fold_left (fun dst i =>
    fold_left (fun dst j => scale_step src i j dst) (seq 0 8) dst)
    (seq 0 8) dst.

(** The 16x16 plane of one channel of a YCoCg buffer. *)
Definition plane (YCoCg : list Z) (channel : nat) : list Z :=
  tabulate 256 (fun p => get YCoCg (p * 3 + channel)).

(** The sample at row [r], column [c] of a channel. *)
Definition sample (YCoCg : list Z) (channel r c : nat) : Z :=
  get YCoCg ((r * 16 + c) * 3 + channel).

(** The subsample formula as the specification writes it: the rounding
    bias is 0 in the even output columns and 2 in the odd ones. *)
Definition spec_bias (j : nat) : Z := if Nat.even j then 0 else 2.

Definition spec_subsample (YCoCg : list Z) (channel : nat) : list Z :=
  tabulate 64 (fun p =>
    let i := (p / 8)%nat in
    let j := (p mod 8)%nat in
    asr (sample YCoCg channel (2 * i) (2 * j)
         + sample YCoCg channel (2 * i) (2 * j + 1)
         + sample YCoCg channel (2 * i + 1) (2 * j)
         + sample YCoCg channel (2 * i + 1) (2 * j + 1)
         + spec_bias j) 2).

(** A buffer whose Co channel is 1 on the even rows and 0 on the odd
    ones (Y and Cg are 0): every 2x2 neighbourhood of Co sums to 2. *)
Definition striped_co : list Z :=
  tabulate 768 (fun k =>
    if ((k mod 3 =? 1) && Nat.even (k / 48))%nat then 1 else 0).

(** Indexing a concatenation of rows of eight. *)
Lemma get_concat_rows_from (f : nat -> list Z) (n : nat) :
  (forall k, length (f k) = 8%nat) ->
  forall s i j, (i < n)%nat -> (j < 8)%nat ->
  get (concat (map f (seq s n))) (i * 8 + j) = get (f (s + i)%nat) j.
Proof.
  intros Hlen. unfold get.
  induction n as [|n IH]; intros s i j Hi Hj; [lia|].
  cbn [seq map concat].
  destruct i as [|i].
  - rewrite app_nth1 by (rewrite Hlen; lia).
    now rewrite Nat.add_0_r.
  - rewrite app_nth2 by (rewrite Hlen; lia). rewrite Hlen.
    replace (S i * 8 + j - 8)%nat with (i * 8 + j)%nat by lia.
    rewrite IH by lia.
    now replace (S s + i)%nat with (s + S i)%nat by lia.
Qed.

Lemma get_concat_rows (f : nat -> list Z) (n i j : nat) :
  (forall k, length (f k) = 8%nat) -> (i < n)%nat -> (j < 8)%nat ->
  get (concat (map f (seq 0 n))) (i * 8 + j) = get (f i) j.
Proof.
  intros Hlen Hi Hj. now rewrite get_concat_rows_from.
Qed.

Lemma box_exact YCoCg src1 src2 a b :
  (forall k, is_int16 (get YCoCg k)) ->
  box YCoCg src1 src2 a b =
    asr (get YCoCg (src1 + a * 3) + get YCoCg (src1 + b * 3) +
         get YCoCg (src2 + a * 3) + get YCoCg (src2 + b * 3)) 2.
Proof.
  intros H. unfold box. apply to_int16_id.
  pose proof (H (src1 + a * 3)%nat). pose proof (H (src1 + b * 3)%nat).
  pose proof (H (src2 + a * 3)%nat). pose proof (H (src2 + b * 3)%nat).
  unfold is_int16 in *. rewrite asr_div by lia.
  change (2 ^ 2) with 4. Z.div_mod_to_equations. lia.
Qed.

Lemma get_int16 YCoCg : Forall is_int16 YCoCg -> forall k, is_int16 (get YCoCg k).
Proof.
  intros H k. unfold get.
  destruct (Nat.lt_ge_cases k (length YCoCg)) as [Hk|Hk].
  - rewrite Forall_forall in H. apply H. now apply nth_In.
  - rewrite nth_overflow by assumption. unfold is_int16. lia.
Qed.

(** C2, as stated, fails: on [striped_co] every 2x2 sum of Co is 2, the
    code stores [2 >> 2 = 0] in every column, and the formula with the
    alternating bias gives [(2 + 2) >> 2 = 1] in the odd columns. *)
Lemma subsample_has_no_bias :
  length striped_co = 768%nat /\ Forall is_int16 striped_co /\
  subsample striped_co 1 = repeat 0 64 /\
  get (spec_subsample striped_co 1) 1 = 1 /\
  subsample striped_co 1 <> spec_subsample striped_co 1.
Proof.
  split; [reflexivity|]. split.
  - apply Forall_forall. intros z Hz.
    unfold striped_co, tabulate in Hz. apply in_map_iff in Hz.
    destruct Hz as [k [<- _]]. unfold is_int16.
    destruct (_ && _)%bool; lia.
  - split; [vm_compute; reflexivity|].
    split; [vm_compute; reflexivity|].
    intros H. apply (f_equal (fun l => get l 1)) in H.
    vm_compute in H. discriminate H.
Qed.

(** C2, amended. For every 768-entry buffer of [int16_t] and both
    chroma channels, the output sample at row [i], column [j] is
    [(v00 + v01 + v10 + v11) >> 2] over the 2x2 neighbourhood of rows
    [2i, 2i+1] and columns [2j, 2j+1]: there is no rounding bias in any
    column. *)
Theorem subsample_box_filter (YCoCg : list Z) (channel i j : nat) :
  length YCoCg = 768%nat -> Forall is_int16 YCoCg ->
  (1 <= channel <= 2)%nat -> (i < 8)%nat -> (j < 8)%nat ->
  length (subsample YCoCg channel) = 64%nat /\
  get (subsample YCoCg channel) (i * 8 + j) =
    asr (sample YCoCg channel (2 * i) (2 * j)
         + sample YCoCg channel (2 * i) (2 * j + 1)
         + sample YCoCg channel (2 * i + 1) (2 * j)
         + sample YCoCg channel (2 * i + 1) (2 * j + 1)) 2.
Proof.
  intros Hlen H16 Hc Hi Hj. split.
  - unfold subsample. rewrite length_concat, map_map. reflexivity.
  - unfold subsample. rewrite get_concat_rows by (auto; lia).
    pose proof (get_int16 YCoCg H16) as Hget.
    unfold sample.
    do 8 (destruct j as [|j];
          [cbn [get nth]; rewrite box_exact by assumption;
           repeat (f_equal; try lia) |]).
    lia.
Qed.

Lemma subsample_box_filter_witness :
  length (subsample striped_co 1) = 64%nat /\
  get (subsample striped_co 1) (0 * 8 + 1) =
    asr (sample striped_co 1 (2 * 0) (2 * 1)
         + sample striped_co 1 (2 * 0) (2 * 1 + 1)
         + sample striped_co 1 (2 * 0 + 1) (2 * 1)
         + sample striped_co 1 (2 * 0 + 1) (2 * 1 + 1)) 2.
Proof.
  apply (subsample_box_filter striped_co 1 0 1).
  - reflexivity.
  - apply Forall_is_int16. vm_compute. reflexivity.
  - lia.
  - lia.
  - lia.
Defined.

(** The four quadrants of a channel, extracted in the encoder's order
    into one contiguous array of 256. *)
Definition split_quadrants (YCoCg : list Z) (channel : nat) : list Z :=
  subblock YCoCg 0 0 channel ++ subblock YCoCg 1 0 channel ++
  subblock YCoCg 0 1 channel ++ subblock YCoCg 1 1 channel.

Lemma subblock_length YCoCg x y channel :
  length (subblock YCoCg x y channel) = 64%nat.
Proof. unfold subblock. rewrite length_concat, map_map. reflexivity. Qed.

(** C10. Whatever the destination array held, [merge_blocks] applied to
    the four quadrants of channel [c], extracted by [subblock] in the
    order (0,0), (1,0), (0,1), (1,1), is the 16x16 plane of channel [c]
    of the YCoCg buffer. *)
Theorem merge_blocks_split_quadrants (YCoCg dst : list Z) (channel : nat) :
  length YCoCg = 768%nat -> length dst = 256%nat -> (channel < 3)%nat ->
  length (split_quadrants YCoCg channel) = 256%nat /\
  merge_blocks dst (split_quadrants YCoCg channel) = plane YCoCg channel.
Proof.
  intros _ Hdst Hc. split.
  - unfold split_quadrants. now rewrite !length_app, !subblock_length.
  - rewrite (tabulate_get dst), Hdst.
    destruct channel as [|[|[|c]]]; [| | |lia];
      vm_compute; reflexivity.
Qed.

Lemma merge_blocks_split_quadrants_witness :
  length (split_quadrants striped_co 1) = 256%nat /\
  merge_blocks (repeat 7 256) (split_quadrants striped_co 1) = plane striped_co 1.
Proof.
  apply (merge_blocks_split_quadrants striped_co (repeat 7 256) 1).
  - reflexivity.
  - reflexivity.
  - lia.
Defined.

End Sampler.

(** ** Integer DCT kernels *)

Module Dct.
Import Int Arr.

(** The butterfly of one forward pass, on the eight [int32_t] inputs
    [i0..i7]; the outputs are in the order in which they are stored and
    already narrowed to [int16_t].  The inputs are [int16_t] values, so
    no [int32_t] intermediate can overflow. *)
Definition fdct_1d (i : list Z) : list Z :=
  let i0 := get i 0 in let i1 := get i 1 in
  let i2 := get i 2 in let i3 := get i 3 in
  let i4 := get i 4 in let i5 := get i 5 in
  let i6 := get i 6 in let i7 := get i 7 in
  let a0 := i0 + i7 in
  let a1 := i1 + i6 in
  let a2 := i2 + i5 in
  let a3 := i3 + i4 in
  let a4 := i0 - i7 in
  let a5 := i1 - i6 in
  let a6 := i2 - i5 in
  let a7 := i3 - i4 in
  let b0 := a0 + a3 in
  let b1 := a1 + a2 in
  let b2 := a0 - a3 in
  let b3 := a1 - a2 in
  let c0 := b0 + b1 in
  let c1 := b0 - b1 in
  let c2 := b2 + asr b2 2 + asr b3 1 in
  let c3 := asr b2 1 - b3 - asr b3 2 in
  let b4 := asr a7 2 + a4 + asr a4 2 - asr a4 4 in
  let b7 := asr a4 2 - a7 - asr a7 2 + asr a7 4 in
  let b5 := a5 + a6 - asr a6 2 - asr a6 4 in
  let b6 := a6 - a5 + asr a5 2 + asr a5 4 in
  let c4 := b4 + b5 in
  let c5 := b4 - b5 in
  let c6 := b6 + b7 in
  let c7 := b6 - b7 in
  let d4 := c4 in
  let d5 := c5 + c7 in
  let d6 := c5 - c7 in
  let d7 := c6 in
  [ to_int16 c0; to_int16 d4; to_int16 c2; to_int16 d6;
    to_int16 c1; to_int16 d5; to_int16 c3; to_int16 d7 ].

(** Eight entries of [a], [stride] apart, from offset [off]. *)
Definition gather (a : list Z) (off stride : nat) : list Z :=
  map (fun k => get a (off + stride * k)) (seq 0 8).

(** Store the eight values [v] into [a], [stride] apart, from [off]. *)
Definition scatter (a : list Z) (off stride : nat) (v : list Z) : list Z :=
  fold_left (fun a k => upd a (off + stride * k) (get v k)) (seq 0 8) a.

(** The first loop of [fdct8x8iq_base]: each row of [src] is transformed
    and stored through [out], which advances by eight. *)
Definition fdct_rows (src : list Z) : list Z :=
  concat (map (fun r => fdct_1d (gather src (8 * r) 1)) (seq 0 8)).

(** The second loop: each column of [dst] is transformed in place. *)
Definition fdct_cols (dst : list Z) : list Z :=
  fold_left (fun dst c => scatter dst c 8 (fdct_1d (gather dst c 8)))
            (seq 0 8) dst.

(** The last loop, [dst[i] /= quant[i]]: an [int] division, truncating,
    whose result is narrowed to [int16_t]. *)
Definition quantize (dst quant : list Z) : list Z :=
  tabulate 64 (fun i => to_int16 (Z.quot (get dst i) (get quant i))).

Definition has_zero (quant : list Z) : bool :=
  existsb (fun i => get quant i =? 0) (seq 0 64).

(** [fdct8x8iq_base].  A zero entry of [quant] is a division by zero:
    there is no result. *)
Definition fdct8x8iq_base (src quant : list Z) : option (list Z) :=
  let dst := fdct_cols (fdct_rows src) in
  if has_zero quant then None else Some (quantize dst quant).

(** The butterfly of one inverse pass on [int32_t] values, outputs in
    the order of the eight stores.  Signed [int32_t] overflow is
    undefined in C and is not modelled. *)
Definition idct_1d (i : list Z) : list Z :=
  let c0 := get i 0 in let d4 := get i 1 in
  let c2 := get i 2 in let d6 := get i 3 in
  let c1 := get i 4 in let d5 := get i 5 in
  let c3 := get i 6 in let d7 := get i 7 in
  let c4 := d4 in
  let c5 := d5 + d6 in
  let c7 := d5 - d6 in
  let c6 := d7 in
  let b4 := c4 + c5 in
  let b5 := c4 - c5 in
  let b6 := c6 + c7 in
  let b7 := c6 - c7 in
  let b0 := c0 + c1 in
  let b1 := c0 - c1 in
  let b2 := c2 + asr c2 2 + asr c3 1 in
  let b3 := asr c2 1 - c3 - asr c3 2 in
  let a4 := asr b7 2 + b4 + asr b4 2 - asr b4 4 in
  let a7 := asr b4 2 - b7 - asr b7 2 + asr b7 4 in
  let a5 := b5 - b6 + asr b6 2 + asr b6 4 in
  let a6 := b6 + b5 - asr b5 2 - asr b5 4 in
  let a0 := b0 + b2 in
  let a3 := b0 - b2 in
  let a1 := b1 + b3 in
  let a2 := b1 - b3 in
  [ a0 + a4; a1 + a5; a2 + a6; a3 + a7;
    a3 - a7; a2 - a6; a1 - a5; a0 - a4 ].

(** The first loop of [idct8x8id_base]: column [c] of [src] is
    dequantized as it is loaded and transformed into column [c] of the
    workspace.  [inp] and [wsp] advance with the column; [qtp] is not
    advanced, so every column is multiplied by column 0 of [quant]. *)
Definition idct_cols (src quant : list Z) : list Z :=
  fold_left (fun wsp c =>
    let col := map (fun k => get src (c + 8 * k) * get quant (8 * k)) (seq 0 8) in
    scatter wsp c 8 (idct_1d col))
    (seq 0 8) (repeat 0 64).

(** The second loop: each row of the workspace is transformed, descaled
    by 64 and narrowed to [int16_t]. *)
Definition idct_rows (wsp : list Z) : list Z :=
  concat (map (fun r =>
    map (fun v => to_int16 (asr v 6)) (idct_1d (gather wsp (8 * r) 1)))
    (seq 0 8)).

Definition idct8x8id_base (src quant : list Z) : list Z :=
  idct_rows (idct_cols src quant).

(** [fdct8x8iq] followed by [idct8x8id] with the same table. *)
Definition roundtrip (src quant : list Z) : option (list Z) :=
  match fdct8x8iq_base src quant with
  | Some coeffs => Some (idct8x8id_base coeffs quant)
  | None => None
  end.

Definition ones : list Z := repeat 1 64.

(** An 8x8 block that is 0 except for one sample of 255 at row 3,
    column 3. *)
Definition impulse : list Z := upd (repeat 0 64) 27 255.

Lemma fdct8x8iq_base_some src quant :
  has_zero quant = false ->
  fdct8x8iq_base src quant =
    Some (quantize (fdct_cols (fdct_rows src)) quant).
Proof.
  intros Hz. unfold fdct8x8iq_base. now rewrite Hz.
Qed.

Lemma has_zero_false quant :
  has_zero quant = false <-> (forall i, (i < 64)%nat -> get quant i <> 0).
Proof.
  unfold has_zero. split.
  - intros H i Hi Hq.
    assert (E : existsb (fun i => get quant i =? 0) (seq 0 64) = true).
    { apply existsb_exists. exists i. split; [apply in_seq; lia|].
      now apply Z.eqb_eq. }
    congruence.
  - intros Hq. destruct (existsb _ _) eqn:E; [|reflexivity].
    apply existsb_exists in E. destruct E as [i [Hi Hz]].
    apply in_seq in Hi. apply Z.eqb_eq in Hz.
    exfalso. apply (Hq i); [lia|assumption].
Qed.

(** C7, as stated, fails: with the all-ones table the impulse block
    comes back with 270 in place of the sample 255 at row 3, column 3
    (an interior position), and with 33 in place of the 0 to its left. *)
Lemma roundtrip_impulse_off_by_15 :
  exists out,
    roundtrip impulse ones = Some out /\
    get impulse 27 = 255 /\ get out 27 = 270 /\
    get impulse 26 = 0 /\ get out 26 = 33 /\
    ~ (forall i, (i < 64)%nat -> -1 <= get out i - get impulse i <= 1).
Proof.
  eexists. split; [vm_compute; reflexivity|].
  repeat (split; [reflexivity|]).
  intros H. specialize (H 27%nat ltac:(lia)).
  vm_compute in H. destruct H as [_ H]. apply H. reflexivity.
Qed.

(** A smooth block fares no better: on the horizontal ramp
    0, 32, ..., 224 every row comes back as below, up to 24 away. *)
Example roundtrip_ramp :
  roundtrip (tabulate 64 (fun p => 32 * Z.of_nat (p mod 8))) ones =
    Some (concat (repeat [21; 56; 84; 103; 120; 139; 167; 202] 8)).
Proof. vm_compute. reflexivity. Qed.

Definition constant_roundtrips (v : Z) : bool :=
  match roundtrip (repeat v 64) ones with
  | Some out => eqb out (repeat v 64)
  | None => false
  end.

Lemma constant_roundtrips_sound v :
  constant_roundtrips v = true ->
  roundtrip (repeat v 64) ones = Some (repeat v 64).
Proof.
  unfold constant_roundtrips.
  destruct (roundtrip (repeat v 64) ones) as [out|]; [|discriminate].
  intros H. apply eqb_eq in H. now subst out.
Qed.

Lemma constant_roundtrips_all :
  forallb constant_roundtrips (zrange (-255) 511) = true.
Proof. vm_compute. reflexivity. Qed.

(** C7, amended. With the all-ones table, [fdct8x8iq] followed by
    [idct8x8id] (with its final shift by 6) gives back exactly every
    constant 8x8 block whose sample value lies in [-255,255]: on the DC
    path the forward scaling by 64 and the inverse descale agree. *)
Theorem roundtrip_constant_block (v : Z) :
  -255 <= v <= 255 ->
  roundtrip (repeat v 64) ones = Some (repeat v 64).
Proof.
  intros Hv. apply constant_roundtrips_sound.
  apply (proj1 (forallb_forall constant_roundtrips (zrange (-255) 511))
               constant_roundtrips_all v).
  apply in_zrange. lia.
Qed.

Lemma roundtrip_constant_block_witness :
  roundtrip (repeat 200 64) ones = Some (repeat 200 64).
Proof.
  apply (roundtrip_constant_block 200). lia.
Defined.

End Dct.

(** ** The 16x16 encoder *)

Module Codec.
Import Int Arr Color Sampler Dct.

(** Store the 64 values of [blk] through the pointer [&Y[off]]. *)
Definition store_block (Y : list Z) (off : nat) (blk : list Z) : list Z :=
  fold_left (fun Y i => upd Y (off + i) (get blk i)) (seq 0 64) Y.

(** The 64 entries of [Y] from offset [off]. *)
Definition load_block (Y : list Z) (off : nat) : list Z :=
  tabulate 64 (fun i => get Y (off + i)).

(** The luma half of [encode16x16i]: the four quadrants are extracted
    in program order, then the four transforms run in program order,
    each storing its block through [&Y[off]].  The result lists the
    stores in the order they happen. *)
Definition encode_luma (YCoCg Qluma : list Z) : option (list (nat * list Z)) :=
  let samp00 := subblock YCoCg 0 0 0 in
  let samp10 := subblock YCoCg 1 0 0 in
  let samp01 := subblock YCoCg 0 1 0 in
  let samp11 := subblock YCoCg 1 1 0 in
  match fdct8x8iq_base samp00 Qluma with
  | None => None
  | Some b0 =>
  match fdct8x8iq_base samp10 Qluma with
  | None => None
  | Some b1 =>
  match fdct8x8iq_base samp01 Qluma with
  | None => None
  | Some b2 =>
  match fdct8x8iq_base samp11 Qluma with
  | None => None
  | Some b3 => Some [(0, b0); (64, b1); (128, b2); (192, b3)]%nat
  end end end end.

(** [encode16x16i].  [Y] is the caller's 256-entry output array on
    entry; the result is the final contents of [Y], [Co], [Cg] and [A]. *)
Definition encode16x16i (Y Qluma Qchroma RGBA : list Z)
  : option (list Z * list Z * list Z * list Z) :=
  let '(YCoCg, A) := rgba_to_ycocga RGBA in
  match encode_luma YCoCg Qluma with
  | None => None
  | Some stores =>
      let Y := fold_left (fun Y s => store_block Y (fst s) (snd s)) stores Y in
      let sampCo := subsample YCoCg 1 in
      let sampCg := subsample YCoCg 2 in
      match fdct8x8iq_base sampCo Qchroma with
      | None => None
      | Some Co =>
          match fdct8x8iq_base sampCg Qchroma with
          | None => None
          | Some Cg => Some (Y, Co, Cg, A)
          end
      end
  end.

(** What the encoder stores for quadrant [(qx, qy)]: the kernel's
    result on the block that [subblock] extracts from channel 0. *)
Definition luma_block (YCoCg Qluma : list Z) (qx qy : nat) : list Z :=
  quantize (fdct_cols (fdct_rows (subblock YCoCg qx qy 0))) Qluma.

(** The luma of the pixel at row [r], column [c] of a 16x16 RGBA block:
    the first of the three values of the colour transform of its red,
    green and blue bytes. *)
Definition pixel_luma (RGBA : list Z) (r c : nat) : Z :=
  let p := (r * 16 + c)%nat in
  fst (fst (rgb_to_ycocg (get RGBA (4 * p)) (get RGBA (4 * p + 1))
                         (get RGBA (4 * p + 2)))).

(** Luma quadrant [(qx, qy)] of the block: the 8x8 block whose sample
    [(i, j)] is the luma of the pixel at row [8 qy + i], column
    [8 qx + j]. *)
Definition luma_quadrant (RGBA : list Z) (qx qy : nat) : list Z :=
  tabulate 64 (fun p => pixel_luma RGBA (8 * qy + p / 8) (8 * qx + p mod 8)).

Lemma store_block_length Y off blk :
  length (store_block Y off blk) = length Y.
Proof.
  unfold store_block. generalize (seq 0 64) as l. intros l. revert Y.
  induction l as [|i l IH]; intros Y; [reflexivity|].
  cbn [fold_left]. now rewrite IH, upd_length.
Qed.

Lemma store_four_blocks Y b0 b1 b2 b3 :
  length Y = 256%nat ->
  let Y' := fold_left (fun Y s => store_block Y (fst s) (snd s))
                      [(0, tabulate 64 b0); (64, tabulate 64 b1);
                       (128, tabulate 64 b2); (192, tabulate 64 b3)]%nat Y in
  load_block Y' 0 = tabulate 64 b0 /\ load_block Y' 64 = tabulate 64 b1 /\
  load_block Y' 128 = tabulate 64 b2 /\ load_block Y' 192 = tabulate 64 b3.
Proof.
  intros Hlen. rewrite (tabulate_get Y), Hlen.
  repeat split; vm_compute; reflexivity.
Qed.

(** The luma that [rgba_to_ycocga] stores for pixel [i]. *)
Lemma rgba_to_ycocga_loop_luma n : forall rgba (i : nat),
  length rgba = (4 * n)%nat -> (i < n)%nat ->
  get (fst (rgba_to_ycocga_loop n rgba)) (3 * i) =
    fst (fst (rgb_to_ycocg (get rgba (4 * i)) (get rgba (4 * i + 1))
                           (get rgba (4 * i + 2)))).
Proof.
  induction n as [|n IH]; intros rgba i Hlen Hi; [lia|].
  destruct rgba as [|r [|g [|b [|a rest]]]]; simpl in Hlen; try lia.
  cbn [rgba_to_ycocga_loop].
  destruct i as [|i].
  - cbn [Nat.mul Nat.add get nth].
    destruct (rgb_to_ycocg r g b) as [[Y Co] Cg].
    now destruct (rgba_to_ycocga_loop n rest).
  - specialize (IH rest i ltac:(lia) ltac:(lia)).
    replace (4 * S i)%nat with (S (S (S (S (4 * i))))) by lia.
    replace (3 * S i)%nat with (S (S (S (3 * i)))) by lia.
    replace (S (S (S (S (4 * i)))) + 1)%nat with (S (S (S (S (4 * i + 1))))) by lia.
    replace (S (S (S (S (4 * i)))) + 2)%nat with (S (S (S (S (4 * i + 2))))) by lia.
    destruct (rgb_to_ycocg r g b) as [[Y Co] Cg].
    destruct (rgba_to_ycocga_loop n rest) as [yc al].
    cbn [fst] in *. unfold get in *. cbn [nth]. exact IH.
Qed.

Lemma sample_luma RGBA r c :
  length RGBA = 1024%nat -> (r < 16)%nat -> (c < 16)%nat ->
  sample (fst (rgba_to_ycocga RGBA)) 0 r c = pixel_luma RGBA r c.
Proof.
  intros Hlen Hr Hc. unfold sample, pixel_luma, rgba_to_ycocga. cbv zeta.
  replace ((r * 16 + c) * 3 + 0)%nat with (3 * (r * 16 + c))%nat by lia.
  apply rgba_to_ycocga_loop_luma; [exact Hlen|lia].
Qed.

(** [subblock] on channel 0 of the converted block extracts the luma
    quadrant. *)
Lemma subblock_luma_quadrant RGBA qx qy :
  length RGBA = 1024%nat -> (qx < 2)%nat -> (qy < 2)%nat ->
  subblock (fst (rgba_to_ycocga RGBA)) qx qy 0 = luma_quadrant RGBA qx qy.
Proof.
  intros Hlen Hx Hy.
  set (YCoCg := fst (rgba_to_ycocga RGBA)).
  assert (E : luma_quadrant RGBA qx qy =
              tabulate 64 (fun p => sample YCoCg 0 (8 * qy + p / 8) (8 * qx + p mod 8))).
  { unfold luma_quadrant, tabulate. apply map_ext_in. intros p Hp.
    apply in_seq in Hp. symmetry. apply sample_luma; [exact Hlen| |].
    - assert (p / 8 < 8)%nat by (apply Nat.Div0.div_lt_upper_bound; lia). lia.
    - pose proof (Nat.mod_upper_bound p 8). lia. }
  rewrite E. clearbody YCoCg. clear E Hlen.
  unfold sample.
  destruct qx as [|[|qx]]; try lia; destruct qy as [|[|qy]]; try lia;
    reflexivity.
Qed.

(** C8. For every 16x16 RGBA input and tables without zero entries,
    [encode16x16i] returns; the four luma transforms store the
    quantized forward DCT of the luma quadrants (0,0), (1,0), (0,1),
    (1,1), in that order, at offsets 0, 64, 128, 192; and in the final
    [Y] the 64 entries from offset [k*64], [k = qy*2 + qx], are the
    quantized forward DCT of luma quadrant [(qx, qy)]: of the lumas of
    the pixels in rows [8 qy .. 8 qy + 7] and columns
    [8 qx .. 8 qx + 7]. *)
Theorem encode16x16i_luma_layout (Y0 Qluma Qchroma RGBA : list Z) :
  length RGBA = 1024%nat -> length Y0 = 256%nat ->
  length Qluma = 64%nat -> length Qchroma = 64%nat ->
  has_zero Qluma = false -> has_zero Qchroma = false ->
  exists b00 b10 b01 b11 Y Co Cg A,
    fdct8x8iq_base (luma_quadrant RGBA 0 0) Qluma = Some b00 /\
    fdct8x8iq_base (luma_quadrant RGBA 1 0) Qluma = Some b10 /\
    fdct8x8iq_base (luma_quadrant RGBA 0 1) Qluma = Some b01 /\
    fdct8x8iq_base (luma_quadrant RGBA 1 1) Qluma = Some b11 /\
    encode_luma (fst (rgba_to_ycocga RGBA)) Qluma =
      Some [(0, b00); (64, b10); (128, b01); (192, b11)]%nat /\
    encode16x16i Y0 Qluma Qchroma RGBA = Some (Y, Co, Cg, A) /\
    length Y = 256%nat /\
    forall qx qy, (qx < 2)%nat -> (qy < 2)%nat ->
      fdct8x8iq_base (luma_quadrant RGBA qx qy) Qluma =
        Some (load_block Y ((qy * 2 + qx) * 64)).
Proof.
  intros HR Hlen _ _ Hl Hc.
  pose proof (subblock_luma_quadrant RGBA 0 0 HR ltac:(lia) ltac:(lia)) as S00.
  pose proof (subblock_luma_quadrant RGBA 1 0 HR ltac:(lia) ltac:(lia)) as S10.
  pose proof (subblock_luma_quadrant RGBA 0 1 HR ltac:(lia) ltac:(lia)) as S01.
  pose proof (subblock_luma_quadrant RGBA 1 1 HR ltac:(lia) ltac:(lia)) as S11.
  assert (Hluma : encode_luma (fst (rgba_to_ycocga RGBA)) Qluma =
    Some [(0, quantize (fdct_cols (fdct_rows (luma_quadrant RGBA 0 0))) Qluma);
          (64, quantize (fdct_cols (fdct_rows (luma_quadrant RGBA 1 0))) Qluma);
          (128, quantize (fdct_cols (fdct_rows (luma_quadrant RGBA 0 1))) Qluma);
          (192, quantize (fdct_cols (fdct_rows (luma_quadrant RGBA 1 1))) Qluma)]%nat).
  { unfold encode_luma. rewrite S00, S10, S01, S11.
    now rewrite !fdct8x8iq_base_some by assumption. }
  do 4 eexists.
  unfold encode16x16i.
  destruct (rgba_to_ycocga RGBA) as [YCoCg A]. cbn [fst] in *.
  rewrite Hluma. rewrite !fdct8x8iq_base_some by assumption.
  do 4 eexists.
  do 6 (split; [reflexivity|]).
  split.
  - cbn [fold_left fst snd]. now rewrite !store_block_length.
  - intros qx qy Hx Hy.
    rewrite fdct8x8iq_base_some by assumption. f_equal. unfold quantize.
    pose proof (store_four_blocks Y0
      (fun i => to_int16 (Z.quot (get (fdct_cols (fdct_rows (luma_quadrant RGBA 0 0))) i) (get Qluma i)))
      (fun i => to_int16 (Z.quot (get (fdct_cols (fdct_rows (luma_quadrant RGBA 1 0))) i) (get Qluma i)))
      (fun i => to_int16 (Z.quot (get (fdct_cols (fdct_rows (luma_quadrant RGBA 0 1))) i) (get Qluma i)))
      (fun i => to_int16 (Z.quot (get (fdct_cols (fdct_rows (luma_quadrant RGBA 1 1))) i) (get Qluma i)))
      Hlen) as H.
    cbv zeta in H. destruct H as [H0 [H1 [H2 H3]]].
    destruct qx as [|[|qx]]; destruct qy as [|[|qy]]; try lia; symmetry; assumption.
Qed.

Lemma encode16x16i_luma_layout_witness :
  let Y0 := repeat 0 256 in
  let Qluma := Quant.quantization_table_luma 10 in
  let Qchroma := Quant.quantization_table_chroma 10 in
  let RGBA := generate_rgba 0 256 in
  exists b00 b10 b01 b11 Y Co Cg A,
    fdct8x8iq_base (luma_quadrant RGBA 0 0) Qluma = Some b00 /\
    fdct8x8iq_base (luma_quadrant RGBA 1 0) Qluma = Some b10 /\
    fdct8x8iq_base (luma_quadrant RGBA 0 1) Qluma = Some b01 /\
    fdct8x8iq_base (luma_quadrant RGBA 1 1) Qluma = Some b11 /\
    encode_luma (fst (rgba_to_ycocga RGBA)) Qluma =
      Some [(0, b00); (64, b10); (128, b01); (192, b11)]%nat /\
    encode16x16i Y0 Qluma Qchroma RGBA = Some (Y, Co, Cg, A) /\
    length Y = 256%nat /\
    forall qx qy, (qx < 2)%nat -> (qy < 2)%nat ->
      fdct8x8iq_base (luma_quadrant RGBA qx qy) Qluma =
        Some (load_block Y ((qy * 2 + qx) * 64)).
Proof.
  apply (encode16x16i_luma_layout (repeat 0 256)
           (Quant.quantization_table_luma 10)
           (Quant.quantization_table_chroma 10) (generate_rgba 0 256)).
  - reflexivity.
  - reflexivity.
  - reflexivity.
  - reflexivity.
  - vm_compute. reflexivity.
  - vm_compute. reflexivity.
Defined.

End Codec.

(** ** Single-precision arithmetic *)

Module F32.

Definition prec : Z := 24.
Definition emax : Z := 128.

(** Conversion of an integer to [float], rounding to nearest even. *)
Definition of_Z (z : Z) : spec_float := binary_normalize prec emax z 0 false.

Definition mul : spec_float -> spec_float -> spec_float := SFmul prec emax.
Definition div : spec_float -> spec_float -> spec_float := SFdiv prec emax.

(** The integer part of a finite number, rounded toward zero; infinities
    and NaN have none. *)
Definition trunc (x : spec_float) : option Z :=
  match x with
  | S754_zero _ => Some 0
  | S754_finite s m e =>
      let v := if 0 <=? e then Zpos m * 2 ^ e else Zpos m / 2 ^ (- e) in
      Some (if s then - v else v)
  | _ => None
  end.

(** [ceilf]: the least integral value not below [x], as a [float]. *)
Definition ceilf (x : spec_float) : spec_float :=
  match x with
  | S754_finite s m e =>
      if 0 <=? e then x
      else
        let n := if s then - (Zpos m / 2 ^ (- e))
                 else - ((- Zpos m) / 2 ^ (- e)) in
        binary_normalize prec emax n 0 s
  | _ => x
  end.

(** Conversion of a [float] to [size_t]: defined only when the
    truncated value fits. *)
Definition to_size (x : spec_float) : option Z :=
  match trunc x with
  | Some n => if (0 <=? n) && (n <? 2 ^ 64) then Some n else None
  | None => None
  end.

End F32.

(** ** Image tiler *)

Module Tiler.
Import Int Arr.

(** [image_tiler_config_t]; [Pixels] is the source image, one [uint32_t]
    per pixel. *)
Module Config.
Record t := {
  TileWidth : Z;
  TileHeight : Z;
  ImageWidth : Z;
  ImageHeight : Z;
  BorderSize : Z;
  BorderMode : Z;
  BorderColor : Z;
  Pixels : list Z
}.
End Config.

(** [image_tile_t]; [Pixels] is the tile's buffer, one [uint32_t] per
    pixel, as long as what [tile_alloc] obtained. *)
Module Tile.
Record t := {
  SourceX : Z;
  SourceY : Z;
  SourceWidth : Z;
  SourceHeight : Z;
  TileX : Z;
  TileY : Z;
  TileIndex : Z;
  TileWidth : Z;
  TileHeight : Z;
  BytesPerRow : Z;
  BytesPerTile : Z;
  Pixels : list Z
}.
End Tile.

Definition BORDER_CLAMP_TO_EDGE : Z := 0.
Definition BORDER_CONSTANT_COLOR : Z := 1.

(** [tile_count]: the pair of per-axis counts and their product.  There
    is no result when a quotient is not a number [size_t] can hold. *)
Definition tile_count (config : Config.t) : option (Z * Z * Z) :=
  let borders := to_size (Config.BorderSize config * 2) in
  let image_w := F32.of_Z (Config.ImageWidth config) in
  let image_h := F32.of_Z (Config.ImageHeight config) in
  let tile_w := F32.of_Z (to_size (Config.TileWidth config - borders)) in
  let tile_h := F32.of_Z (to_size (Config.TileHeight config - borders)) in
  match F32.to_size (F32.ceilf (F32.div image_w tile_w)),
        F32.to_size (F32.ceilf (F32.div image_h tile_h)) with
  | Some tiles_x, Some tiles_y => Some (tiles_x, tiles_y, to_size (tiles_x * tiles_y))
  | _, _ => None
  end.

(** *** Stores into the tile buffer

    A computation on the tile's pixel buffer either finishes with a
    value, or stops at the first access outside of a buffer; in both
    cases the buffer is as the stores made so far left it. *)
Inductive step (A : Type) : Type :=
| Done (a : A) (px : list Z)
| Trap (px : list Z).
Arguments Done {A} a px.
Arguments Trap {A} px.

Definition M (A : Type) : Type := list Z -> step A.

Definition ret {A} (a : A) : M A := fun px => Done a px.

Definition bind {A B} (m : M A) (k : A -> M B) : M B :=
  fun px => match m px with
            | Done a px' => k a px'
            | Trap px' => Trap px'
            end.

Notation "x <- m ;; k" := (bind m (fun x => k))
  (at level 61, m at next level, right associativity).
Notation "m ;;; k" := (bind m (fun _ => k))
  (at level 61, right associativity).

(** [*p] for a pointer [p] into the source image. *)
Definition load (src : list Z) (p : Z) : M Z :=
  fun px => if (0 <=? p) && (p <? Z.of_nat (length src))
            then Done (get src (Z.to_nat p)) px else Trap px.

(** Overwrite [px] from offset [off] with the list [vs]. *)
Definition blit (px : list Z) (off : Z) (vs : list Z) : list Z :=
  firstn (Z.to_nat off) px ++ vs ++ skipn (Z.to_nat off + length vs) px.

(** [for (i = 0; i < n; ++i) *row_buf++ = v] from [row_buf = off]. *)
Definition store_run (off n v : Z) : M unit :=
  fun px =>
    let room := Z.max 0 (Z.of_nat (length px) - off) in
    if n <=? room then Done tt (blit px off (repeat v (Z.to_nat n)))
    else Trap (blit px off (repeat v (Z.to_nat room))).

(** [for (i = 0; i < n; ++i) *row_buf++ = *src_row++]. *)
Definition copy_run (off : Z) (src : list Z) (p n : Z) : M unit :=
  fun px =>
    let room := Z.max 0 (Z.of_nat (length px) - off) in
    let avail := if 0 <=? p then Z.max 0 (Z.of_nat (length src) - p) else 0 in
    let k := Z.min n (Z.min room avail) in
    let vs := firstn (Z.to_nat k) (skipn (Z.to_nat p) src) in
    if n <=? k then Done tt (blit px off vs) else Trap (blit px off vs).

(** [for (j = 0; j < n; ++j) *dst_row++ = *row++] inside the tile. *)
Definition copy_within (off from n : Z) : M unit :=
  fun px => copy_run off px from n px.

(** [n] iterations of a loop whose body depends on the counter. *)
Fixpoint for_loop (n : nat) (i : Z) (body : Z -> M unit) : M unit :=
  match n with
  | O => ret tt
  | S n' => body i ;;; for_loop n' (i + 1) body
  end.

Definition sample_border (config : Config.t) (edge : Z) : M Z :=
  if Config.BorderMode config =? BORDER_CLAMP_TO_EDGE
  then load (Config.Pixels config) edge
  else if Config.BorderMode config =? BORDER_CONSTANT_COLOR
  then ret (Config.BorderColor config)
  else ret 0.

Definition read_row (row_buf src_row src_num pad_right : Z) (config : Config.t)
  : M unit :=
  let left_edge := src_row in
  let right_edge := src_row + (src_num - 1) in
  let border := Config.BorderSize config in
  left_border <- sample_border config left_edge ;;
  store_run row_buf border left_border ;;;
  let row_buf := row_buf + border in
  copy_run row_buf (Config.Pixels config) src_row src_num ;;;
  let row_buf := row_buf + src_num in
  right_pixel <- load (Config.Pixels config) right_edge ;;
  store_run row_buf pad_right right_pixel ;;;
  let row_buf := row_buf + pad_right in
  right_border <- sample_border config right_edge ;;
  store_run row_buf border right_border.

Definition read_row_border (row_buf row_num src_row src_num pad_right : Z)
  (config : Config.t) : M unit :=
  if Config.BorderMode config =? BORDER_CLAMP_TO_EDGE
  then read_row row_buf src_row src_num pad_right config
  else if Config.BorderMode config =? BORDER_CONSTANT_COLOR
  then store_run row_buf row_num (Config.BorderColor config)
  else ret tt.

(** What a call of [copy_tile] comes to: it returns a value and leaves
    the tile in some state, or it runs into undefined behaviour with the
    tile's buffer in some state. *)
Inductive outcome : Type :=
| Returns (b : bool) (tile : Tile.t)
| Undefined (pixels : list Z).

(** The row loops of [copy_tile], after the bounds have been computed. *)
Definition copy_rows (config : Config.t)
  (src_row dst_num source_w source_h pad_right pad_bottom : Z) : M unit :=
  let border := Config.BorderSize config in
  for_loop (Z.to_nat border) 0 (fun i =>
    read_row_border (i * dst_num) dst_num src_row source_w pad_right config) ;;;
  let dst_row := border * dst_num in
  for_loop (Z.to_nat source_h) 0 (fun i =>
    read_row (dst_row + i * dst_num)
             (src_row + i * Config.ImageWidth config) source_w pad_right config) ;;;
  let src_row := src_row + source_h * Config.ImageWidth config in
  let dst_row := dst_row + source_h * dst_num in
  let last_row := dst_row - dst_num in
  for_loop (Z.to_nat pad_bottom) 0 (fun i =>
    copy_within (dst_row + i * dst_num) last_row dst_num) ;;;
  let dst_row := dst_row + pad_bottom * dst_num in
  for_loop (Z.to_nat border) 0 (fun i =>
    read_row_border (dst_row + i * dst_num) dst_num src_row source_w pad_right config).

Definition copy_tile (tile : Tile.t) (config : Config.t) (index : Z) : outcome :=
  match tile_count config with
  | None => Undefined (Tile.Pixels tile)
  | Some (tiles_x, tiles_y, tiles_n) =>
      if tiles_n <=? index then Returns false tile
      else
        let tile_y := index / tiles_x in
        let tile_x := index mod tiles_x in
        let source_w := to_size (Config.TileWidth config - Config.BorderSize config * 2) in
        let source_h := to_size (Config.TileHeight config - Config.BorderSize config * 2) in
        let source_x := to_size (tile_x * source_w) in
        let source_y := to_size (tile_y * source_h) in
        let src_row := source_y * Config.ImageWidth config + source_x in
        let dst_num := Config.TileWidth config in
        let '(pad_right, source_w) :=
          if to_size (source_x + source_w) >? Config.ImageWidth config
          then let n := to_size (Config.ImageWidth config - source_x) in
               (to_size (source_w - n), n)
          else (0, source_w) in
        let '(pad_bottom, source_h) :=
          if to_size (source_y + source_h) >? Config.ImageHeight config
          then let n := to_size (Config.ImageHeight config - source_y) in
               (to_size (source_h - n), n)
          else (0, source_h) in
        match copy_rows config src_row dst_num source_w source_h
                        pad_right pad_bottom (Tile.Pixels tile) with
        | Trap px => Undefined px
        | Done _ px =>
            Returns true
              {| Tile.SourceX := source_x;
                 Tile.SourceY := source_y;
                 Tile.SourceWidth := source_w;
                 Tile.SourceHeight := source_h;
                 Tile.TileX := tile_x;
                 Tile.TileY := tile_y;
                 Tile.TileIndex := index;
                 Tile.TileWidth := Config.TileWidth config;
                 Tile.TileHeight := Config.TileHeight config;
                 Tile.BytesPerRow := to_size (Config.TileWidth config * 4);
                 Tile.BytesPerTile :=
                   to_size (Config.TileWidth config * Config.TileHeight config * 4);
                 Tile.Pixels := px |}
        end
  end.

(** A tile as [tile_alloc] leaves it: all counters zero and a buffer of
    [n] pixels. *)
Definition fresh_tile (n : nat) : Tile.t :=
  {| Tile.SourceX := 0; Tile.SourceY := 0;
     Tile.SourceWidth := 0; Tile.SourceHeight := 0;
     Tile.TileX := 0; Tile.TileY := 0; Tile.TileIndex := 0;
     Tile.TileWidth := 0; Tile.TileHeight := 0;
     Tile.BytesPerRow := 0; Tile.BytesPerTile := 0;
     Tile.Pixels := repeat 0 n |}.


(** A 17x17 image cut into 16x16 tiles without border. *)
Definition image17 : Config.t :=
  {| Config.TileWidth := 16; Config.TileHeight := 16;
     Config.ImageWidth := 17; Config.ImageHeight := 17;
     Config.BorderSize := 0;
     Config.BorderMode := BORDER_CLAMP_TO_EDGE;
     Config.BorderColor := 0;
     Config.Pixels := tabulate 289 (fun k => Z.of_nat k) |}.

(** The tile counts of the specification's ceiling scenario. *)
Example tile_count_image17 : tile_count image17 = Some (2, 2, 4).
Proof. vm_compute. reflexivity. Qed.


(** A quotient by zero is infinite or not a number, and C does not
    define the conversion of either to [size_t]. *)
Lemma ceil_of_division_by_zero (x : spec_float) :
  F32.to_size (F32.ceilf (F32.div x (F32.of_Z 0))) = None.
Proof.
  destruct x as [s|s| |s m e]; try destruct s; reflexivity.
Qed.

(** When a tile dimension equals twice the border size, the interior of
    the tile is empty ([TileWidth - borders] or [TileHeight - borders]
    is 0) and [tile_count] has no result: such configurations are
    outside of what is stated about [copy_tile] below. *)
Lemma tile_count_empty_interior (config : Config.t) :
  to_size (Config.TileWidth config - to_size (Config.BorderSize config * 2)) = 0 \/
  to_size (Config.TileHeight config - to_size (Config.BorderSize config * 2)) = 0 ->
  tile_count config = None.
Proof.
  intros [H|H]; unfold tile_count; cbv zeta; rewrite H.
  - now rewrite ceil_of_division_by_zero.
  - rewrite ceil_of_division_by_zero.
    now destruct (F32.to_size _).
Qed.



End Tiler.

(** ** Double-precision arithmetic and conversions *)

Module F64.

Definition prec : Z := 53.
Definition emax : Z := 1024.

Definition of_Z (z : Z) : spec_float := binary_normalize prec emax z 0 false.

Definition mul : spec_float -> spec_float -> spec_float := SFmul prec emax.
Definition div : spec_float -> spec_float -> spec_float := SFdiv prec emax.

(** Widening of a [float] to [double]. *)
Definition of_float (x : spec_float) : spec_float :=
  match x with
  | S754_finite s m e => binary_normalize prec emax (cond_Zopp s (Zpos m)) e s
  | _ => x
  end.

(** Narrowing of a [double] to [float], rounding to nearest even. *)
Definition to_float (x : spec_float) : spec_float :=
  match x with
  | S754_finite s m e =>
      binary_normalize F32.prec F32.emax (cond_Zopp s (Zpos m)) e s
  | _ => x
  end.

End F64.

(** ** Rounding error of the floating-point operations

    [binary_round_aux] of [SpecFloat] truncates a mantissa to [prec]
    digits and then rounds; away from underflow and overflow the result
    is within one unit in the last place of any value between the
    mantissa and its successor, whatever the rounding location says.
    This bounds the relative error of multiplication, division and
    narrowing by [eps prec = 2^(1 - prec)]. *)

Module Rounding.

(** The rational value of a finite number; 0 for the others. *)
Definition SF2Q (x : spec_float) : Q :=
  match x with
  | S754_finite s m e => (inject_Z (cond_Zopp s (Zpos m)) * 2 ^ e)%Q
  | _ => 0%Q
  end.

(** The relative error bound of a rounding to [prec] digits. *)
Definition eps (prec : Z) : Q := 1 # Z.to_pos (2 ^ (prec - 1)).

(** [r] is within the relative error [eps prec] of [T]. *)
Definition near (prec : Z) (r T : Q) : Prop :=
  (T * (1 - eps prec) <= r <= T * (1 + eps prec))%Q.

(** A positive normal number with exponent between [lo] and [hi]. *)
Definition normal (prec : Z) (x : spec_float) (lo hi : Z) : Prop :=
  exists m e, x = S754_finite false m e /\
              2 ^ (prec - 1) <= Zpos m < 2 ^ prec /\ lo <= e <= hi.

(** The test for [normal]. *)
Definition normalb (prec : Z) (x : spec_float) (lo hi : Z) : bool :=
  match x with
  | S754_finite false m e =>
      (2 ^ (prec - 1) <=? Zpos m) && (Zpos m <? 2 ^ prec) && (lo <=? e) && (e <=? hi)
  | _ => false
  end.

(** *** Truncation and rounding of a mantissa *)

Lemma digits2_pos_bounds p :
  2 ^ (Zpos (digits2_pos p) - 1) <= Zpos p < 2 ^ Zpos (digits2_pos p).
Proof.
  induction p as [p IH|p IH|]; cbn [digits2_pos].
  - rewrite Pos2Z.inj_succ.
    replace (Z.succ (Zpos (digits2_pos p)) - 1) with (Z.succ (Zpos (digits2_pos p) - 1)) by lia.
    rewrite !Z.pow_succ_r by lia. lia.
  - rewrite Pos2Z.inj_succ.
    replace (Z.succ (Zpos (digits2_pos p)) - 1) with (Z.succ (Zpos (digits2_pos p) - 1)) by lia.
    rewrite !Z.pow_succ_r by lia. lia.
  - simpl. lia.
Qed.

Lemma digits2_pos_unique p k :
  2 ^ (k - 1) <= Zpos p < 2 ^ k -> Zpos (digits2_pos p) = k.
Proof.
  intros [Hlo Hhi].
  pose proof (digits2_pos_bounds p) as [Dlo Dhi].
  set (d := Zpos (digits2_pos p)) in *.
  assert (Hd : 0 < d) by (subst d; lia).
  assert (Hk : 0 < k).
  { destruct (Z_lt_le_dec 0 k) as [?|Hk0]; [assumption|].
    exfalso.
    assert (2 ^ k <= 1).
    { destruct (Z.eq_dec k 0) as [->|]; [simpl; lia|].
      rewrite Z.pow_neg_r by lia. lia. }
    lia. }
  destruct (Z_lt_le_dec d k) as [Hlt|Hge].
  - assert (2 ^ d <= 2 ^ (k - 1)) by (apply Z.pow_le_mono_r; lia). lia.
  - destruct (Z_lt_le_dec k d) as [Hlt|Hle]; [|lia].
    assert (2 ^ k <= 2 ^ (d - 1)) by (apply Z.pow_le_mono_r; lia). lia.
Qed.

Lemma pow2_pos k : 0 <= k -> 0 < 2 ^ k.
Proof. intros. apply Z.pow_pos_nonneg; lia. Qed.

Lemma shr_1_div mrs :
  0 <= shr_m mrs -> shr_m (shr_1 mrs) = shr_m mrs / 2 /\ 0 <= shr_m (shr_1 mrs).
Proof.
  destruct mrs as [m r s]. cbn [shr_m]. intros Hm.
  destruct m as [|[p|p|]|p]; cbn [shr_1 shr_m]; try lia.
  all: split; try lia.
  all: try reflexivity.
  all: Z.div_mod_to_equations; lia.
Qed.

Lemma iter_shr_1_div p : forall mrs,
  0 <= shr_m mrs ->
  shr_m (SpecFloat.iter_pos shr_1 p mrs) = shr_m mrs / 2 ^ Zpos p /\
  0 <= shr_m (SpecFloat.iter_pos shr_1 p mrs).
Proof.
  induction p as [p IH|p IH|]; intros mrs Hm; cbn [SpecFloat.iter_pos].
  - destruct (shr_1_div mrs Hm) as [E1 P1].
    destruct (IH _ P1) as [E2 P2].
    destruct (IH _ P2) as [E3 P3].
    split; [|assumption].
    rewrite E3, E2, E1.
    pose proof (pow2_pos (Zpos p) ltac:(lia)).
    rewrite !Z.div_div by lia.
    f_equal.
    assert (Hp : 2 ^ Zpos p~1 = 2 * (2 ^ Zpos p * 2 ^ Zpos p)).
    { rewrite <- Z.pow_add_r by lia. rewrite <- Z.pow_succ_r by lia.
      f_equal. lia. }
    lia.
  - destruct (IH _ Hm) as [E2 P2].
    destruct (IH _ P2) as [E3 P3].
    split; [|assumption].
    rewrite E3, E2.
    pose proof (pow2_pos (Zpos p) ltac:(lia)).
    rewrite !Z.div_div by lia.
    f_equal.
    rewrite <- Z.pow_add_r by lia. f_equal. lia.
  - destruct (shr_1_div mrs Hm) as [E1 P1].
    split; [|assumption]. rewrite E1. reflexivity.
Qed.

Lemma shr_m_record_of_loc m l : shr_m (shr_record_of_loc m l) = m.
Proof. destruct l as [|[| |]]; reflexivity. Qed.

Lemma round_nearest_even_cases m l :
  round_nearest_even m l = m \/ round_nearest_even m l = m + 1.
Proof.
  destruct l as [|[| |]]; cbn [round_nearest_even]; auto.
  destruct (Z.even m); auto.
Qed.

(** The first shift of [binary_round_aux]. *)
Lemma shr_fexp_div prec emax p ex lx :
  let n := Zpos (digits2_pos p) - prec in
  0 <= n -> emin prec emax <= ex + n ->
  shr_m (fst (shr_fexp prec emax (Zpos p) ex lx)) = Zpos p / 2 ^ n /\
  snd (shr_fexp prec emax (Zpos p) ex lx) = ex + n.
Proof.
  intros n Hn He. unfold shr_fexp, shr.
  cbn [Zdigits2].
  assert (Hf : fexp prec emax (Zpos (digits2_pos p) + ex) - ex = n).
  { unfold fexp. subst n. lia. }
  rewrite Hf.
  destruct n as [|q|q] eqn:En; [| |lia].
  - cbn [fst snd]. rewrite shr_m_record_of_loc.
    simpl. rewrite Z.div_1_r. split; [reflexivity|lia].
  - cbn [fst snd].
    destruct (iter_shr_1_div q (shr_record_of_loc (Zpos p) lx)) as [E _].
    { rewrite shr_m_record_of_loc. lia. }
    rewrite E, shr_m_record_of_loc. split; reflexivity.
Qed.

(** [binary_round_aux] on a positive mantissa with at least [prec]
    digits, away from underflow and overflow: the result is a normal
    number whose mantissa, brought to the exponent [ex + n], is the
    truncated mantissa or its successor. *)
Lemma binary_round_aux_sandwich prec emax s p ex lx :
  1 < prec ->
  let n := Zpos (digits2_pos p) - prec in
  0 <= n -> emin prec emax <= ex + n -> ex + n + 1 <= emax - prec ->
  exists m' e',
    binary_round_aux prec emax s (Zpos p) ex lx = S754_finite s m' e' /\
    2 ^ (prec - 1) <= Zpos m' < 2 ^ prec /\
    ex + n <= e' <= ex + n + 1 /\
    Zpos p / 2 ^ n <= Zpos m' * 2 ^ (e' - (ex + n)) <= Zpos p / 2 ^ n + 1.
Proof.
  intros Hprec n Hn Hmin Hmax.
  pose proof (shr_fexp_div prec emax p ex lx Hn Hmin) as [Hm He].
  fold n in Hm, He.
  unfold binary_round_aux.
  destruct (shr_fexp prec emax (Zpos p) ex lx) as [mrs' e'] eqn:E1.
  cbn [fst snd] in Hm, He. subst e'.
  set (m1 := Zpos p / 2 ^ n) in *.
  pose proof (digits2_pos_bounds p) as [Dlo Dhi].
  assert (Hm1 : 2 ^ (prec - 1) <= m1 < 2 ^ prec).
  { subst m1. pose proof (pow2_pos n Hn).
    replace (Zpos (digits2_pos p) - 1) with (prec - 1 + n) in Dlo by (subst n; lia).
    replace (Zpos (digits2_pos p)) with (prec + n) in Dhi by (subst n; lia).
    rewrite Z.pow_add_r in Dlo, Dhi by lia.
    split.
    - apply Z.div_le_lower_bound; lia.
    - apply Z.div_lt_upper_bound; lia. }
  pose proof (pow2_pos (prec - 1) ltac:(lia)) as Hpp.
  set (M := round_nearest_even (shr_m mrs') (loc_of_shr_record mrs')).
  assert (HM : M = m1 \/ M = m1 + 1).
  { subst M. rewrite Hm. apply round_nearest_even_cases. }
  assert (Hpow : 2 ^ prec = 2 * 2 ^ (prec - 1)).
  { replace prec with (Z.succ (prec - 1)) at 1 by lia.
    rewrite Z.pow_succ_r by lia. reflexivity. }
  destruct (Z_lt_le_dec M (2 ^ prec)) as [Hlt|Hge].
  - (* no carry *)
    assert (HMpos : 0 < M) by lia.
    destruct M as [|pm|pm] eqn:EM; try lia.
    assert (Hd : Zpos (digits2_pos pm) = prec).
    { apply digits2_pos_unique. lia. }
    unfold shr_fexp, shr. cbn [Zdigits2]. rewrite Hd.
    assert (Hf : fexp prec emax (prec + (ex + n)) - (ex + n) = 0).
    { unfold fexp. lia. }
    rewrite Hf. cbn [shr_record_of_loc shr_m].
    destruct (Z.leb_spec (ex + n) (emax - prec)); [|lia].
    exists pm, (ex + n). split; [reflexivity|].
    split; [lia|]. split; [lia|].
    rewrite Z.sub_diag. simpl (2 ^ 0). lia.
  - (* carry: the mantissa is 2^prec *)
    assert (HMeq : M = 2 ^ prec) by lia.
    assert (HMpos : 0 < M) by lia.
    destruct M as [|pm|pm] eqn:EM; try lia.
    assert (Hd : Zpos (digits2_pos pm) = prec + 1).
    { apply digits2_pos_unique. rewrite HMeq.
      replace (prec + 1 - 1) with prec by lia.
      replace (prec + 1) with (Z.succ prec) by lia.
      rewrite Z.pow_succ_r by lia. lia. }
    unfold shr_fexp, shr. cbn [Zdigits2]. rewrite Hd.
    assert (Hf : fexp prec emax (prec + 1 + (ex + n)) - (ex + n) = 1).
    { unfold fexp. lia. }
    rewrite Hf. cbn [shr_record_of_loc SpecFloat.iter_pos].
    destruct (shr_1_div {| shr_m := Zpos pm; shr_r := false; shr_s := false |})
      as [E2 _]; [cbn; lia|].
    cbn [shr_m] in E2. rewrite E2, HMeq.
    assert (Hhalf : 2 ^ prec / 2 = 2 ^ (prec - 1)).
    { rewrite Hpow. rewrite Z.mul_comm. apply Z.div_mul. lia. }
    rewrite Hhalf.
    destruct (2 ^ (prec - 1)) as [|ph|ph] eqn:Eh; try lia.
    destruct (Z.leb_spec (ex + n + 1) (emax - prec)); [|lia].
    exists ph, (ex + n + 1). split; [reflexivity|].
    split; [lia|]. split; [lia|].
    replace (ex + n + 1 - (ex + n)) with 1 by lia.
    change (2 ^ 1) with 2. lia.
Qed.

(** *** Relative error of a rounding *)

Lemma pow2Q_pos e : (0 < 2 ^ e)%Q.
Proof. apply Qpower_0_lt. reflexivity. Qed.

Lemma pow2Q_add a b : (2 ^ (a + b) == 2 ^ a * 2 ^ b)%Q.
Proof. apply Qpower_plus. discriminate. Qed.

Lemma pow2Q_inject k : 0 <= k -> (inject_Z (2 ^ k) == 2 ^ k)%Q.
Proof. intros Hk. now rewrite Zpower_Qpower. Qed.

Lemma eps_inv prec : 1 < prec -> (inject_Z (2 ^ (prec - 1)) * eps prec == 1)%Q.
Proof.
  intros Hp. unfold eps.
  pose proof (pow2_pos (prec - 1) ltac:(lia)) as Hpos.
  destruct (2 ^ (prec - 1)) as [|q|q] eqn:E; try lia.
  cbn [Z.to_pos]. unfold Qeq, Qmult, inject_Z. simpl. lia.
Qed.

Lemma eps_pos prec : (0 < eps prec)%Q.
Proof. unfold eps. reflexivity. Qed.

Lemma normal_pos prec x lo hi : normal prec x lo hi -> (0 < SF2Q x)%Q.
Proof.
  intros [m [e [-> _]]]. cbn [SF2Q cond_Zopp].
  apply Qmult_lt_0_compat; [reflexivity|apply pow2Q_pos].
Qed.

(** From the integer sandwich of [binary_round_aux_sandwich] to the
    relative error of the result against any [T] between the mantissa
    and its successor. *)
Lemma near_of_sandwich prec (m' : positive) (e' mx ex n : Z) (T : Q) :
  1 < prec -> 0 <= n ->
  2 ^ (prec - 1) <= mx / 2 ^ n ->
  ex + n <= e' ->
  mx / 2 ^ n <= Zpos m' * 2 ^ (e' - (ex + n)) <= mx / 2 ^ n + 1 ->
  (inject_Z mx * 2 ^ ex <= T <= inject_Z (mx + 1) * 2 ^ ex)%Q ->
  near prec (inject_Z (Zpos m') * 2 ^ e') T.
Proof.
  intros Hprec Hn Hm1 He [Slo Shi] [Tlo Thi].
  set (m1 := mx / 2 ^ n) in *.
  set (U := (2 ^ (ex + n))%Q).
  assert (HU : (0 < U)%Q) by apply pow2Q_pos.
  pose proof (pow2_pos n Hn) as Hpn.
  (* the result, as a multiple of U *)
  assert (Hr : (inject_Z (Zpos m') * 2 ^ e' ==
                inject_Z (Zpos m' * 2 ^ (e' - (ex + n))) * U)%Q).
  { rewrite inject_Z_mult, pow2Q_inject by lia.
    replace e' with ((e' - (ex + n)) + (ex + n)) at 1 by lia.
    rewrite pow2Q_add. subst U. ring. }
  set (R := inject_Z (Zpos m' * 2 ^ (e' - (ex + n)))) in *.
  assert (HR : (inject_Z m1 <= R <= inject_Z m1 + 1)%Q).
  { subst R. split.
    - rewrite <- Zle_Qle. exact Slo.
    - change 1%Q with (inject_Z 1). rewrite <- inject_Z_plus, <- Zle_Qle.
      exact Shi. }
  (* T between m1 U and (m1 + 1) U *)
  assert (HUeq : (2 ^ ex * inject_Z (2 ^ n) == U)%Q).
  { rewrite pow2Q_inject by lia. subst U. now rewrite pow2Q_add. }
  assert (Hlo : (inject_Z m1 * U <= T)%Q).
  { apply Qle_trans with (inject_Z mx * 2 ^ ex)%Q; [|exact Tlo].
    rewrite <- HUeq.
    assert (Hz : m1 * 2 ^ n <= mx).
    { subst m1. rewrite Z.mul_comm. apply Z.mul_div_le. lia. }
    rewrite Zle_Qle, inject_Z_mult in Hz.
    pose proof (Qmult_le_compat_r _ _ (2 ^ ex)%Q Hz
                  (Qlt_le_weak _ _ (pow2Q_pos ex))) as H.
    lra. }
  assert (Hhi : (T <= (inject_Z m1 + 1) * U)%Q).
  { apply Qle_trans with (inject_Z (mx + 1) * 2 ^ ex)%Q; [exact Thi|].
    rewrite <- HUeq.
    assert (Hz : mx + 1 <= (m1 + 1) * 2 ^ n).
    { subst m1. pose proof (Z.mul_succ_div_gt mx (2 ^ n) Hpn). lia. }
    rewrite Zle_Qle, inject_Z_mult, !inject_Z_plus in Hz.
    rewrite inject_Z_plus.
    pose proof (Qmult_le_compat_r _ _ (2 ^ ex)%Q Hz
                  (Qlt_le_weak _ _ (pow2Q_pos ex))) as H.
    change (inject_Z 1) with 1%Q in *. lra. }
  (* U is at most eps T *)
  assert (HUT : (U <= T * eps prec)%Q).
  { assert (HP : (inject_Z (2 ^ (prec - 1)) * U <= T)%Q).
    { apply Qle_trans with (inject_Z m1 * U)%Q; [|exact Hlo].
      apply Qmult_le_compat_r; [|lra].
      rewrite <- Zle_Qle. exact Hm1. }
    pose proof (Qmult_le_compat_r _ _ (eps prec) HP
                  (Qlt_le_weak _ _ (eps_pos prec))) as H.
    pose proof (eps_inv prec Hprec) as Hinv.
    assert (HE : (inject_Z (2 ^ (prec - 1)) * U * eps prec == U)%Q).
    { transitivity (inject_Z (2 ^ (prec - 1)) * eps prec * U)%Q; [ring|].
      rewrite Hinv. ring. }
    rewrite HE in H. exact H. }
  unfold near. rewrite Hr.
  destruct HR as [HR1 HR2].
  pose proof (Qmult_le_compat_r _ _ U HR1 (Qlt_le_weak _ _ HU)) as G1.
  pose proof (Qmult_le_compat_r _ _ U HR2 (Qlt_le_weak _ _ HU)) as G2.
  split; lra.
Qed.

Lemma digits2_pos_between p a b :
  2 ^ a <= Zpos p < 2 ^ b -> 0 <= a -> a < Zpos (digits2_pos p) <= b.
Proof.
  intros [Hlo Hhi] Ha.
  pose proof (digits2_pos_bounds p) as [Dlo Dhi].
  set (d := Zpos (digits2_pos p)) in *.
  assert (Hd : 0 < d) by (subst d; lia).
  split.
  - destruct (Z_lt_le_dec a d) as [|Hle]; [assumption|].
    assert (2 ^ d <= 2 ^ a) by (apply Z.pow_le_mono_r; lia). lia.
  - destruct (Z_lt_le_dec b d) as [Hlt|]; [|assumption].
    assert (2 ^ b <= 2 ^ (d - 1)).
    { destruct (Z_lt_le_dec b 0).
      - rewrite (Z.pow_neg_r 2 b) by lia.
        pose proof (pow2_pos (d - 1) ltac:(lia)). lia.
      - apply Z.pow_le_mono_r; lia. }
    lia.
Qed.

(** [binary_round_aux] as a rounding of any [T] that lies between the
    mantissa and its successor at exponent [ex]. *)
Lemma binary_round_aux_near prec emax p ex lx (T : Q) :
  1 < prec ->
  let n := Zpos (digits2_pos p) - prec in
  0 <= n -> emin prec emax <= ex + n -> ex + n + 1 <= emax - prec ->
  (inject_Z (Zpos p) * 2 ^ ex <= T <= inject_Z (Zpos p + 1) * 2 ^ ex)%Q ->
  normal prec (binary_round_aux prec emax false (Zpos p) ex lx)
         (ex + n) (ex + n + 1) /\
  near prec (SF2Q (binary_round_aux prec emax false (Zpos p) ex lx)) T.
Proof.
  intros Hprec n Hn Hmin Hmax HT.
  destruct (binary_round_aux_sandwich prec emax false p ex lx Hprec Hn Hmin Hmax)
    as [m' [e' [-> [Hm' [He' Hs]]]]].
  fold n in He', Hs.
  split.
  - exists m', e'. repeat split; lia.
  - cbn [SF2Q cond_Zopp].
    apply (near_of_sandwich prec m' e' (Zpos p) ex n T); try assumption; try lia.
    pose proof (digits2_pos_bounds p) as [Dlo _].
    pose proof (pow2_pos n Hn).
    replace (Zpos (digits2_pos p) - 1) with (prec - 1 + n) in Dlo by (subst n; lia).
    rewrite Z.pow_add_r in Dlo by lia.
    apply Z.div_le_lower_bound; lia.
Qed.

Lemma pow2_double k : 0 <= k -> 2 ^ (k + k) = 2 ^ k * 2 ^ k.
Proof. intros. now rewrite Z.pow_add_r. Qed.

(** Multiplication of two positive normal numbers. *)
Lemma SFmul_near prec emax x y lx hx ly hy :
  1 < prec ->
  normal prec x lx hx -> normal prec y ly hy ->
  emin prec emax <= lx + ly + prec - 1 ->
  hx + hy + prec + 1 <= emax - prec ->
  normal prec (SFmul prec emax x y) (lx + ly + prec - 1) (hx + hy + prec + 1) /\
  near prec (SF2Q (SFmul prec emax x y)) (SF2Q x * SF2Q y).
Proof.
  intros Hprec [mx [ex [-> [Hmx Hex]]]] [my [ey [-> [Hmy Hey]]]] Hmin Hmax.
  cbn [SFmul xorb SF2Q cond_Zopp].
  pose proof (pow2_pos (prec - 1) ltac:(lia)) as Hpp.
  assert (Hpow : 2 ^ prec = 2 * 2 ^ (prec - 1)).
  { replace prec with (Z.succ (prec - 1)) at 1 by lia.
    rewrite Z.pow_succ_r by lia. reflexivity. }
  assert (Hprod : 2 ^ (prec - 1 + (prec - 1)) <= Zpos (mx * my) < 2 ^ (prec + prec)).
  { rewrite !pow2_double by lia. rewrite Pos2Z.inj_mul. nia. }
  pose proof (digits2_pos_between (mx * my) _ _ Hprod ltac:(lia)) as Hd.
  set (n := Zpos (digits2_pos (mx * my)) - prec).
  destruct (binary_round_aux_near prec emax (mx * my) (ex + ey) loc_Exact
              (inject_Z (Zpos mx) * 2 ^ ex * (inject_Z (Zpos my) * 2 ^ ey))%Q
              Hprec) as [[m' [e' [E [Hm' He']]]] Hnear];
    fold n; try (subst n; lia).
  - assert (HE : (inject_Z (Zpos mx) * 2 ^ ex * (inject_Z (Zpos my) * 2 ^ ey) ==
                  inject_Z (Zpos (mx * my)) * 2 ^ (ex + ey))%Q).
    { rewrite Pos2Z.inj_mul, inject_Z_mult, pow2Q_add. ring. }
    rewrite HE. split; [apply Qle_refl|].
    apply Qmult_le_compat_r; [|apply Qlt_le_weak, pow2Q_pos].
    rewrite <- Zle_Qle. lia.
  - split; [|exact Hnear].
    exists m', e'. split; [exact E|]. split; [assumption|]. subst n. lia.
Qed.

(** Division of two positive normal numbers. *)
Lemma SFdiv_near prec emax x y lx hx ly hy :
  1 < prec ->
  normal prec x lx hx -> normal prec y ly hy ->
  emin prec emax <= lx - hy - prec ->
  hx - ly - prec + 2 <= emax - prec ->
  normal prec (SFdiv prec emax x y) (lx - hy - prec) (hx - ly - prec + 2) /\
  near prec (SF2Q (SFdiv prec emax x y)) (SF2Q x / SF2Q y).
Proof.
  intros Hprec [mx [ex [-> [Hmx Hex]]]] [my [ey [-> [Hmy Hey]]]] Hmin Hmax.
  cbn [SFdiv xorb SF2Q cond_Zopp].
  unfold SFdiv_core_binary. cbn [Zdigits2].
  rewrite (digits2_pos_unique mx prec Hmx), (digits2_pos_unique my prec Hmy).
  set (e' := ex - ey - prec).
  assert (He' : Z.min (fexp prec emax (prec + ex - (prec + ey))) (ex - ey) = e').
  { unfold fexp. subst e'. lia. }
  rewrite He'.
  replace (ex - ey - e') with prec by (subst e'; lia).
  assert (Hsh : match prec with
                | Zpos _ => Z.shiftl (Zpos mx) prec
                | Z0 => Zpos mx
                | Zneg _ => 0
                end = Zpos mx * 2 ^ prec).
  { destruct prec; try lia. apply Z.shiftl_mul_pow2. lia. }
  rewrite Hsh.
  pose proof (Z_div_mod (Zpos mx * 2 ^ prec) (Zpos my) ltac:(lia)) as Hdiv.
  destruct (Z.div_eucl (Zpos mx * 2 ^ prec) (Zpos my)) as [q r].
  destruct Hdiv as [Hq Hr].
  pose proof (pow2_pos (prec - 1) ltac:(lia)) as Hpp.
  assert (Hpow : 2 ^ prec = 2 * 2 ^ (prec - 1)).
  { replace prec with (Z.succ (prec - 1)) at 1 by lia.
    rewrite Z.pow_succ_r by lia. reflexivity. }
  assert (Hpow1 : 2 ^ (prec + 1) = 2 * 2 ^ prec).
  { replace (prec + 1) with (Z.succ prec) by lia.
    rewrite Z.pow_succ_r by lia. reflexivity. }
  assert (Hqb : 2 ^ (prec - 1) <= q < 2 ^ (prec + 1)) by nia.
  destruct q as [|pq|pq]; try lia.
  pose proof (digits2_pos_between pq _ _ Hqb ltac:(lia)) as Hd.
  set (n := Zpos (digits2_pos pq) - prec).
  destruct (binary_round_aux_near prec emax pq e'
              (new_location (Zpos my) r)
              (inject_Z (Zpos mx) * 2 ^ ex / (inject_Z (Zpos my) * 2 ^ ey))%Q
              Hprec) as [[m' [e'' [E [Hm' He'']]]] Hnear];
    fold n; try (subst n e'; lia).
  - (* the quotient lies between q and q + 1 at exponent e' *)
    assert (Hden : (0 < inject_Z (Zpos my) * 2 ^ ey)%Q).
    { apply Qmult_lt_0_compat; [reflexivity|apply pow2Q_pos]. }
    assert (Hexp : (2 ^ ex == 2 ^ prec * 2 ^ e' * 2 ^ ey)%Q).
    { rewrite <- !pow2Q_add. subst e'.
      now replace (prec + (ex - ey - prec) + ey) with ex by lia. }
    assert (HW : (0 < 2 ^ e' * 2 ^ ey)%Q).
    { apply Qmult_lt_0_compat; apply pow2Q_pos. }
    assert (Hnum : (inject_Z (Zpos mx) * 2 ^ ex ==
                    inject_Z (Zpos mx * 2 ^ prec) * (2 ^ e' * 2 ^ ey))%Q).
    { rewrite inject_Z_mult, pow2Q_inject, Hexp by lia. ring. }
    split.
    + apply Qle_shift_div_l; [exact Hden|]. rewrite Hnum.
      assert (Hz : Zpos pq * Zpos my <= Zpos mx * 2 ^ prec) by lia.
      rewrite Zle_Qle, !inject_Z_mult in Hz. rewrite !inject_Z_mult.
      pose proof (Qmult_le_compat_r _ _ _ Hz (Qlt_le_weak _ _ HW)) as H.
      lra.
    + apply Qle_shift_div_r; [exact Hden|]. rewrite Hnum.
      assert (Hz : Zpos mx * 2 ^ prec <= (Zpos pq + 1) * Zpos my) by lia.
      rewrite Zle_Qle, !inject_Z_mult in Hz. rewrite !inject_Z_mult.
      pose proof (Qmult_le_compat_r _ _ _ Hz (Qlt_le_weak _ _ HW)) as H.
      lra.
  - split; [|exact Hnear].
    exists m', e''. split; [exact E|]. split; [assumption|]. subst n e'. lia.
Qed.

(** Narrowing of a positive normal [double]. *)
Lemma to_float_near x lo hi :
  normal 53 x lo hi -> -149 <= lo + 29 -> hi + 30 <= 104 ->
  normal 24 (F64.to_float x) (lo + 29) (hi + 30) /\
  near 24 (SF2Q (F64.to_float x)) (SF2Q x).
Proof.
  intros [m [e [-> [Hm He]]]] Hlo Hhi.
  cbn [F64.to_float cond_Zopp binary_normalize].
  unfold binary_round, F32.prec, F32.emax.
  pose proof (digits2_pos_unique m 53 Hm) as Hd.
  rewrite Hd.
  assert (Hf : fexp 24 128 (53 + e) = e + 29) by (unfold fexp, emin; lia).
  rewrite Hf. unfold shl_align.
  replace (e + 29 - e) with 29 by lia.
  destruct (binary_round_aux_near 24 128 m e loc_Exact (SF2Q (S754_finite false m e))
              ltac:(lia)) as [[m' [e' [E [Hm' He']]]] Hnear];
    rewrite ?Hd; unfold emin; try lia.
  - cbn [SF2Q cond_Zopp]. split; [apply Qle_refl|].
    apply Qmult_le_compat_r; [|apply Qlt_le_weak, pow2Q_pos].
    rewrite <- Zle_Qle. lia.
  - rewrite Hd in He'. split; [|exact Hnear].
    exists m', e'. split; [exact E|]. split; [assumption|]. lia.
Qed.

(** Widening of a positive normal [float]. *)
Lemma of_float_normal x lo hi :
  normal 24 x lo hi -> -1074 <= lo - 29 -> hi - 28 <= 971 ->
  normal 53 (F64.of_float x) (lo - 29) (hi - 28).
Proof.
  intros [m [e [-> [Hm He]]]] Hlo Hhi.
  cbn [F64.of_float cond_Zopp binary_normalize].
  unfold binary_round, F64.prec, F64.emax.
  pose proof (digits2_pos_unique m 24 Hm) as Hd.
  rewrite Hd.
  assert (Hf : fexp 53 1024 (24 + e) = e - 29) by (unfold fexp, emin; lia).
  rewrite Hf. unfold shl_align.
  replace (e - 29 - e) with (-29) by lia.
  cbn [Pos.iter].
  set (mz := (m~0~0~0~0~0~0~0~0~0~0~0~0~0~0~0~0~0~0~0~0~0~0~0~0~0~0~0~0~0)%positive).
  assert (Hmz : Zpos mz = Zpos m * 2 ^ 29) by (subst mz; lia).
  assert (Hdz : Zpos (digits2_pos mz) = 53).
  { apply digits2_pos_unique. rewrite Hmz. lia. }
  destruct (binary_round_aux_sandwich 53 1024 false mz (e - 29) loc_Exact
              ltac:(lia)) as [m' [e' [E [Hm' [He' _]]]]];
    rewrite ?Hdz; unfold emin; try lia.
  rewrite Hdz in He'.
  exists m', e'. split; [exact E|]. split; [assumption|]. lia.
Qed.

Lemma iter_xO_pow2 p k : Zpos (Pos.iter xO p k) = Zpos p * 2 ^ Zpos k.
Proof.
  induction k as [|k IH] using Pos.peano_ind.
  - cbn [Pos.iter]. lia.
  - rewrite Pos.iter_succ, Pos2Z.inj_succ, Z.pow_succ_r by lia.
    rewrite Pos2Z.inj_xO, IH. lia.
Qed.

(** Conversion of a positive integer below 2^24: exact, hence normal. *)
Lemma of_Z_normal z :
  1 <= z < 2 ^ 24 -> normal 24 (F32.of_Z z) (-23) 1.
Proof.
  intros Hz. destruct z as [|p|p]; try lia.
  unfold F32.of_Z, F32.prec, F32.emax. cbn [binary_normalize].
  unfold binary_round.
  pose proof (digits2_pos_bounds p) as [Dlo Dhi].
  set (d := Zpos (digits2_pos p)) in *.
  assert (Hd : 1 <= d <= 24).
  { split; [subst d; lia|].
    destruct (digits2_pos_between p (d - 1) 24 ltac:(lia) ltac:(subst d; lia)).
    fold d in H0. lia. }
  assert (Hf : fexp 24 128 (d + 0) = d - 24) by (unfold fexp, emin; lia).
  rewrite Hf. unfold shl_align. rewrite Z.sub_0_r.
  destruct (d - 24) as [|q|q] eqn:Eq; try lia.
  - (* already 24 digits *)
    destruct (binary_round_aux_sandwich 24 128 false p 0 loc_Exact ltac:(lia))
      as [m' [e' [E [Hm' [He' _]]]]]; fold d; unfold emin; try lia.
    fold d in He'.
    exists m', e'. split; [exact E|]. split; [assumption|]. lia.
  - pose proof (iter_xO_pow2 p q) as Hmz.
    set (mz := Pos.iter xO p q) in *.
    assert (Hq : Zpos q = 24 - d) by lia.
    assert (Hdz : Zpos (digits2_pos mz) = 24).
    { apply digits2_pos_unique. rewrite Hmz, Hq.
      pose proof (pow2_pos (24 - d) ltac:(lia)) as Hp.
      assert (H1 : 2 ^ (d - 1) * 2 ^ (24 - d) = 2 ^ (24 - 1)).
      { rewrite <- Z.pow_add_r by lia. f_equal. lia. }
      assert (H2 : 2 ^ d * 2 ^ (24 - d) = 2 ^ 24).
      { rewrite <- Z.pow_add_r by lia. f_equal. lia. }
      nia. }
    destruct (binary_round_aux_sandwich 24 128 false mz (Zneg q) loc_Exact ltac:(lia))
      as [m' [e' [E [Hm' [He' _]]]]]; rewrite ?Hdz; unfold emin; try lia.
    rewrite Hdz in He'.
    exists m', e'. split; [exact E|]. split; [assumption|]. lia.
Qed.

Lemma normalb_sound prec x lo hi :
  normalb prec x lo hi = true -> normal prec x lo hi.
Proof.
  destruct x as [| | |[|] m e]; try discriminate.
  cbn [normalb]. rewrite !andb_true_iff.
  intros [[[H1 H2] H3] H4].
  exists m, e. split; [reflexivity|]. lia.
Qed.

End Rounding.

(** ** Quantization-table engine: the float tables *)

Module FloatQuant.
Import Int Arr Quant Rounding.

(** [float] arrays; a read outside the array gives +0. *)
Definition getf (a : list spec_float) (i : nat) : spec_float :=
  nth i a (S754_zero false).

(** The literals of [AANScaleFactor_float], as the [float] nearest to
    each decimal: 1.0f, 1.387039845f, 1.306562965f, 1.175875602f, 1.0f,
    0.785694958f, 0.541196100f, 0.275899379f. *)
Definition AANScaleFactor_float : list spec_float :=
  [ S754_finite false 8388608 (-23);  S754_finite false 11635334 (-23);
    S754_finite false 10960245 (-23); S754_finite false 9863959 (-23);
    S754_finite false 8388608 (-23);  S754_finite false 13181774 (-24);
    S754_finite false 9079764 (-24);  S754_finite false 9257647 (-25) ].

(** The [float] nearest to the decimal [n / 10^k]. *)
Definition decimal (n : positive) (k : positive) : spec_float :=
  F32.div (S754_finite false n 0) (S754_finite false (10 ^ k) 0).

Example AANScaleFactor_float_literals :
  AANScaleFactor_float =
    [ decimal 10 1; decimal 1387039845 9; decimal 1306562965 9;
      decimal 1175875602 9; decimal 10 1; decimal 785694958 9;
      decimal 541196100 9; decimal 275899379 9 ].
Proof. vm_compute. reflexivity. Qed.

(** The literals [1.0f], [1.0] and [8.0]. *)
Definition one_f : spec_float := F32.of_Z 1.
Definition one_d : spec_float := F64.of_Z 1.
Definition eight_d : spec_float := F64.of_Z 8.

(** [csf_from_qtable]: [(float) Qtable[0] / (float) Qtable[i]]. *)
Definition csf_from_qtable (Qtable : list Z) : list spec_float :=
  map (fun i => F32.div (F32.of_Z (get Qtable 0)) (F32.of_Z (get Qtable i)))
      (seq 0 64).

(** The body of the inner loop of [scaled_qtable_float] for row [r],
    column [c] and CSF coefficient [q]: the values stored into [Qidct]
    and [Qfdct].  The product of the two [float] factors is a [float];
    everything after it is computed in [double] and narrowed when it is
    stored. *)
Definition scaled_entry (r c : nat) (q : spec_float) : spec_float * spec_float :=
  let aans := F64.of_float (F32.mul (getf AANScaleFactor_float r)
                                    (getf AANScaleFactor_float c)) in
  let qaan := F64.mul aans (F64.of_float q) in
  (F64.to_float (F64.div qaan eight_d),
   F64.to_float (F64.div one_d (F64.mul qaan eight_d))).

(** [scaled_qtable_float]; [None] stands for a null [CSFtable].  The
    state of the loops is the running index [i] and the entries stored
    so far. *)
Definition scaled_qtable_float (CSFtable : option (list spec_float))
  : list spec_float * list spec_float :=
  let '(_, Qidct, Qfdct) :=
    fold_left (fun st r =>
      fold_left (fun '(i, Qidct, Qfdct) c =>
        let q := match CSFtable with
                 | Some t => getf t i
                 | None => one_f
                 end in
        let '(qi, qf) := scaled_entry r c q in
        (S i, Qidct ++ [qi], Qfdct ++ [qf]))
        (seq 0 8) st)
      (seq 0 8) (0%nat, [], []) in
  (Qidct, Qfdct).

(** [quantization_table_scale] for the float kernel: the pair
    [(Qidct, Qfdct)]. *)
Definition quantization_table_scale (Qbase : list Z)
  : list spec_float * list spec_float :=
  scaled_qtable_float (Some (csf_from_qtable Qbase)).

(** [qtables_encode] and [qtables_decode] for the float kernel: the
    pair [(Qluma, Qchroma)]. *)
Definition qtables_encode (quality : Z) : list spec_float * list spec_float :=
  (snd (quantization_table_scale (quantization_table_luma quality)),
   snd (quantization_table_scale (quantization_table_chroma quality))).

Definition qtables_decode (quality : Z) : list spec_float * list spec_float :=
  (fst (quantization_table_scale (quantization_table_luma quality)),
   fst (quantization_table_scale (quantization_table_chroma quality))).

(** The pair as the specification writes it, in the same arithmetic:
    [Qbase[i] * AAN_factor[i] / 8] and [1 / (Qbase[i] * AAN_factor[i] * 8)],
    with the table entry itself where the code has the CSF coefficient. *)
Definition spec_scaled_entry (Qbase : list Z) (i : nat) : spec_float * spec_float :=
  scaled_entry (i / 8) (i mod 8) (F32.of_Z (get Qbase i)).

(** The CSF coefficient of entry [i]. *)
Definition csf (Qbase : list Z) (i : nat) : spec_float :=
  F32.div (F32.of_Z (get Qbase 0)) (F32.of_Z (get Qbase i)).

(** The loops of [scaled_qtable_float] visit the entries in row-major
    order: entry [i] is computed for row [i / 8] and column [i mod 8]
    from the CSF coefficient [i]. *)
Lemma scaled_qtable_float_entries (t : list spec_float) :
  scaled_qtable_float (Some t) =
    (map (fun i => fst (scaled_entry (i / 8) (i mod 8) (getf t i))) (seq 0 64),
     map (fun i => snd (scaled_entry (i / 8) (i mod 8) (getf t i))) (seq 0 64)).
Proof. reflexivity. Qed.

Lemma getf_map (f : nat -> spec_float) (n i : nat) :
  (i < n)%nat -> getf (map f (seq 0 n)) i = f i.
Proof.
  intros Hi. unfold getf.
  rewrite (nth_indep _ _ (f 0%nat)) by now rewrite length_map, length_seq.
  now rewrite map_nth, seq_nth.
Qed.

Lemma getf_csf_from_qtable Qbase i :
  (i < 64)%nat -> getf (csf_from_qtable Qbase) i = csf Qbase i.
Proof.
  intros Hi. unfold csf_from_qtable. now rewrite getf_map.
Qed.

(** C3, as stated, fails.  At quality 50 the luma table starts with 16;
    the code stores 1/8 in both [Qidct[0]] and [Qfdct[0]] (the CSF
    coefficient of entry 0 is 16/16 = 1), where the formulas with
    [Qbase[0]] give 16/8 = 2 and 1/128. *)
Lemma scaled_tables_differ_from_spec :
  let Qbase := quantization_table_luma 50 in
  let '(Qidct, Qfdct) := quantization_table_scale Qbase in
  get Qbase 0 = 16 /\
  getf Qidct 0 = S754_finite false 8388608 (-26) /\
  getf Qfdct 0 = S754_finite false 8388608 (-26) /\
  spec_scaled_entry Qbase 0 =
    (S754_finite false 8388608 (-22), S754_finite false 8388608 (-30)) /\
  (SF2Q (getf Qidct 0) == 1 # 8)%Q /\
  (SF2Q (fst (spec_scaled_entry Qbase 0)) == 2)%Q /\
  (getf Qidct 0, getf Qfdct 0) <> spec_scaled_entry Qbase 0.
Proof.
  cbv zeta.
  destruct (quantization_table_scale (quantization_table_luma 50))
    as [Qidct Qfdct] eqn:E.
  vm_compute in E. injection E as <- <-.
  repeat (split; [vm_compute; reflexivity|]).
  intros H. vm_compute in H. discriminate H.
Qed.

(** C4, as stated, fails.  For the JPEG luma table and [i = 1] the CSF
    coefficient is 16/11, while [Qidct[1] * Qfdct[1] * 64] is 1 up to
    rounding: the two differ by more than 0.45. *)
Lemma scaled_product_is_not_csf :
  let '(Qidct, Qfdct) := quantization_table_scale JPEGLumaQuant in
  let product := (SF2Q (getf Qidct 1) * SF2Q (getf Qfdct 1) * 64)%Q in
  let CSF1 := SF2Q (csf JPEGLumaQuant 1) in
  (Qabs (CSF1 - (16 # 11)) <= 1 # 100000)%Q /\
  (Qabs (product - 1) <= 1 # 100000)%Q /\
  ~ (Qabs (product - CSF1) <= 1 # 100000)%Q /\
  (45 # 100 < Qabs (product - CSF1))%Q.
Proof.
  destruct (quantization_table_scale JPEGLumaQuant) as [Qidct Qfdct] eqn:E.
  vm_compute in E. injection E as <- <-.
  cbv zeta.
  split; [apply Qle_bool_iff; vm_compute; reflexivity|].
  split; [apply Qle_bool_iff; vm_compute; reflexivity|].
  split.
  - intros H. apply Qle_bool_iff in H. vm_compute in H. discriminate H.
  - vm_compute. reflexivity.
Qed.

(** The products [AAN[r] * AAN[c]], widened to [double]. *)
Definition aans (r c : nat) : spec_float :=
  F64.of_float (F32.mul (getf AANScaleFactor_float r)
                        (getf AANScaleFactor_float c)).

Lemma aans_normal r c :
  (r < 8)%nat -> (c < 8)%nat -> normal 53 (aans r c) (-56) (-52).
Proof.
  intros Hr Hc. apply normalb_sound.
  assert (H : forallb (fun r => forallb (fun c =>
             normalb 53 (aans r c) (-56) (-52)) (seq 0 8)) (seq 0 8) = true)
    by (vm_compute; reflexivity).
  rewrite forallb_forall in H.
  specialize (H r ltac:(apply in_seq; lia)).
  rewrite forallb_forall in H.
  apply H. apply in_seq. lia.
Qed.

Lemma product_bound (a q8 Qi y2 y3 Qf : Q) :
  (0 < a)%Q ->
  near 53 q8 (a / SF2Q eight_d) -> near 24 Qi q8 ->
  near 53 y2 (a * SF2Q eight_d) -> near 53 y3 (SF2Q one_d / y2) -> near 24 Qf y3 ->
  (Qabs (Qi * Qf * 64 - 1) <= 1 # 100000)%Q.
Proof.
  unfold near.
  change (eps 53) with (1 # 4503599627370496).
  change (eps 24) with (1 # 8388608).
  assert (E8 : (SF2Q eight_d == 8)%Q) by (vm_compute; reflexivity).
  assert (E1 : (SF2Q one_d == 1)%Q) by (vm_compute; reflexivity).
  rewrite E8, E1.
  intros Ha [H1 H2] [H3 H4] [H5 H6] [H7 H8] [H9 H10].
  assert (Hx : (a / 8 == a * (1 # 8))%Q) by (unfold Qdiv; reflexivity).
  rewrite Hx in H1, H2. clear Hx.
  assert (Hy2 : (0 < y2)%Q) by lra.
  assert (Hz : ((1 / y2) * y2 == 1)%Q) by (field; lra).
  set (z := (1 / y2)%Q) in *.
  assert (Hq8 : (0 < q8)%Q) by lra.
  pose proof (Qmult_le_compat_r _ _ y2 H7 (Qlt_le_weak _ _ Hy2)) as B1.
  pose proof (Qmult_le_compat_r _ _ y2 H8 (Qlt_le_weak _ _ Hy2)) as B2.
  assert (B3 : (1 - (1 # 4503599627370496) <= y3 * y2)%Q) by lra.
  assert (B4 : (y3 * y2 <= 1 + (1 # 4503599627370496))%Q) by lra.
  clear B1 B2.
  pose proof (Qmult_le_compat_r _ _ y2 H9 (Qlt_le_weak _ _ Hy2)) as C1.
  pose proof (Qmult_le_compat_r _ _ y2 H10 (Qlt_le_weak _ _ Hy2)) as C2.
  assert (C3 : (1 - (1 # 4194304) <= Qf * y2)%Q) by lra.
  assert (C4 : (Qf * y2 <= 1 + (1 # 4194304))%Q) by lra.
  clear C1 C2.
  pose proof (Qmult_le_compat_r _ _ (1 - (1 # 8388608))%Q H1 ltac:(lra)) as D1.
  pose proof (Qmult_le_compat_r _ _ (1 + (1 # 8388608))%Q H2 ltac:(lra)) as D2.
  assert (D3 : (a * (1 # 8) * (1 - (1 # 4194304)) <= Qi)%Q) by lra.
  assert (D4 : (Qi <= a * (1 # 8) * (1 + (1 # 4194304)))%Q) by lra.
  clear D1 D2.
  assert (HQf : (0 <= Qf)%Q).
  { destruct (Qlt_le_dec Qf 0) as [Hneg|]; [|assumption].
    exfalso.
    pose proof (Qmult_lt_compat_r _ _ y2 Hy2 Hneg) as F. lra. }
  assert (F1 : ((1 - (1 # 2097152)) * y2 <= 64 * Qi)%Q) by lra.
  assert (F2 : (64 * Qi <= (1 + (1 # 2097152)) * y2)%Q) by lra.
  pose proof (Qmult_le_compat_r _ _ Qf F1 HQf) as G1.
  pose proof (Qmult_le_compat_r _ _ Qf F2 HQf) as G2.
  apply Qabs_Qle_condition.
  split; lra.
Qed.

Lemma eight_d_normal : normal 53 eight_d (-49) (-49).
Proof. apply normalb_sound. vm_compute. reflexivity. Qed.

Lemma one_d_normal : normal 53 one_d (-52) (-52).
Proof. apply normalb_sound. vm_compute. reflexivity. Qed.

(** The two entries computed from a normal CSF coefficient. *)
Lemma scaled_entry_product r c q :
  (r < 8)%nat -> (c < 8)%nat -> normal 24 q (-48) 2 ->
  (Qabs (SF2Q (fst (scaled_entry r c q)) * SF2Q (snd (scaled_entry r c q)) * 64 - 1)
     <= 1 # 100000)%Q.
Proof.
  intros Hr Hc Hq. unfold scaled_entry. fold (aans r c). cbv zeta. cbn [fst snd].
  pose proof (aans_normal r c Hr Hc) as Ha.
  pose proof (of_float_normal q _ _ Hq ltac:(lia) ltac:(lia)) as Hq64.
  destruct (SFmul_near 53 1024 _ _ _ _ _ _ ltac:(lia) Ha Hq64)
    as [Hqaan _]; [unfold emin; lia|lia|].
  set (qaan := F64.mul (aans r c) (F64.of_float q)) in *.
  change (SFmul 53 1024 (aans r c) (F64.of_float q)) with qaan in Hqaan.
  destruct (SFdiv_near 53 1024 _ _ _ _ _ _ ltac:(lia) Hqaan eight_d_normal)
    as [Hq8 Nq8]; [unfold emin; lia|lia|].
  destruct (to_float_near _ _ _ Hq8) as [_ NQi]; [lia|lia|].
  destruct (SFmul_near 53 1024 _ _ _ _ _ _ ltac:(lia) Hqaan eight_d_normal)
    as [Hy2 Ny2]; [unfold emin; lia|lia|].
  destruct (SFdiv_near 53 1024 _ _ _ _ _ _ ltac:(lia) one_d_normal Hy2)
    as [Hy3 Ny3]; [unfold emin; lia|lia|].
  destruct (to_float_near _ _ _ Hy3) as [_ NQf]; [lia|lia|].
  exact (product_bound _ _ _ _ _ _ (normal_pos _ _ _ _ Hqaan) Nq8 NQi Ny2 Ny3 NQf).
Qed.

Lemma Forall_positive_entries l :
  forallb (fun b => (1 <=? b) && (b <=? 32767)) l = true ->
  Forall (fun b => 1 <= b <= 32767) l.
Proof.
  intros H. apply Forall_forall. intros b Hb.
  rewrite forallb_forall in H. specialize (H b Hb).
  apply andb_true_iff in H. lia.
Qed.

(** The product of the two entries, for a table whose first 64 entries
    are positive and below 2^24. *)
Lemma scaled_product_bound (Qbase : list Z) (i : nat) :
  (forall k, (k < 64)%nat -> 1 <= get Qbase k < 2 ^ 24) ->
  (i < 64)%nat ->
  let '(Qidct, Qfdct) := quantization_table_scale Qbase in
  (Qabs (SF2Q (getf Qidct i) * SF2Q (getf Qfdct i) * 64 - 1) <= 1 # 100000)%Q.
Proof.
  intros Hrange Hi.
  unfold quantization_table_scale. rewrite scaled_qtable_float_entries.
  rewrite !getf_map by assumption.
  rewrite getf_csf_from_qtable by assumption.
  apply scaled_entry_product.
  - apply Nat.Div0.div_lt_upper_bound. lia.
  - apply Nat.mod_upper_bound. lia.
  - unfold csf.
    pose proof (of_Z_normal (get Qbase 0) (Hrange 0%nat ltac:(lia))) as H0.
    pose proof (of_Z_normal (get Qbase i) (Hrange i Hi)) as H1.
    destruct (SFdiv_near 24 128 _ _ _ _ _ _ ltac:(lia) H0 H1) as [Hn _];
      [unfold emin; lia|lia|].
    exact Hn.
Qed.

(** C4, amended.  For every 64-entry base table with positive entries
    and every index [i] below 64, [Qidct_f[i] * Qfdct_f[i] * 64] is 1 to
    within 1e-5: the CSF coefficient cancels in the product, which
    therefore agrees with [CSF[i]] only where that coefficient is 1. *)
Theorem scaled_product_is_one (Qbase : list Z) (i : nat) :
  length Qbase = 64%nat -> Forall (fun b => 1 <= b <= 32767) Qbase ->
  (i < 64)%nat ->
  let '(Qidct, Qfdct) := quantization_table_scale Qbase in
  (Qabs (SF2Q (getf Qidct i) * SF2Q (getf Qfdct i) * 64 - 1) <= 1 # 100000)%Q.
Proof.
  intros Hlen Hall Hi.
  apply scaled_product_bound; [|assumption].
  intros k Hk. rewrite Forall_forall in Hall.
  specialize (Hall (get Qbase k) ltac:(unfold get; apply nth_In; lia)).
  change (2 ^ 24) with 16777216. lia.
Qed.

Lemma scaled_product_is_one_witness :
  let '(Qidct, Qfdct) := quantization_table_scale JPEGLumaQuant in
  (Qabs (SF2Q (getf Qidct 1) * SF2Q (getf Qfdct 1) * 64 - 1) <= 1 # 100000)%Q.
Proof.
  apply (scaled_product_is_one JPEGLumaQuant 1).
  - reflexivity.
  - apply Forall_positive_entries. vm_compute. reflexivity.
  - lia.
Defined.

(** The same for the table that [quantization_table] derives from any
    base table at any quality: its entries lie in [1,255]. *)
Corollary quality_tables_product_is_one (Qb : list Z) (quality : Z) (i : nat) :
  (i < 64)%nat ->
  let '(Qidct, Qfdct) := quantization_table_scale (quantization_table Qb quality) in
  (Qabs (SF2Q (getf Qidct i) * SF2Q (getf Qfdct i) * 64 - 1) <= 1 # 100000)%Q.
Proof.
  intros Hi.
  apply scaled_product_bound; [|assumption].
  intros k Hk. rewrite get_quantization_table by assumption.
  pose proof (quantization_entry_range (get Qb k)
                (quality_scale (clamp_quality quality))).
  change (2 ^ 24) with 16777216. lia.
Qed.

(** *** The entries against the specification's formulas

    [between lo hi r T]: the ratio of [r] to the positive [T] lies
    between [lo] and [hi]. *)
Definition between (lo hi r T : Q) : Prop := (T * lo <= r <= T * hi)%Q.

Lemma between_trans l1 h1 l2 h2 r T U :
  between l1 h1 r T -> between l2 h2 T U ->
  (0 <= U)%Q -> (0 <= l1)%Q -> (0 <= h1)%Q -> (0 <= l2)%Q ->
  between (l1 * l2)%Q (h1 * h2)%Q r U.
Proof.
  unfold between. intros [A1 A2] [B1 B2] HU Hl1 Hh1 Hl2.
  pose proof (Qmult_le_compat_r _ _ l1 B1 Hl1).
  pose proof (Qmult_le_compat_r _ _ h1 B2 Hh1).
  split; lra.
Qed.

Lemma between_mul l1 h1 l2 h2 x X y Y :
  between l1 h1 x X -> between l2 h2 y Y ->
  (0 <= X)%Q -> (0 <= Y)%Q -> (0 <= l1)%Q -> (0 <= l2)%Q ->
  between (l1 * l2)%Q (h1 * h2)%Q (x * y)%Q (X * Y)%Q.
Proof.
  unfold between. intros [A1 A2] [B1 B2] HX HY Hl1 Hl2.
  pose proof (Qmult_le_0_compat _ _ HX Hl1) as P1.
  pose proof (Qmult_le_0_compat _ _ HY Hl2) as P2.
  assert (Hx : (0 <= x)%Q) by lra.
  assert (Hy : (0 <= y)%Q) by lra.
  assert (Hxh : (0 <= X * h1)%Q) by lra.
  pose proof (Qmult_le_compat_r _ _ y A1 Hy) as Q1.
  pose proof (Qmult_le_compat_r _ _ (X * l1) B1 P1) as Q2.
  pose proof (Qmult_le_compat_r _ _ y A2 Hy) as Q3.
  pose proof (Qmult_le_compat_r _ _ (X * h1) B2 Hxh) as Q4.
  split; lra.
Qed.

(** Reciprocal. *)
Lemma between_inv l h y Y :
  between l h y Y -> (0 < Y)%Q -> (0 < l)%Q ->
  between (/ h)%Q (/ l)%Q (/ y)%Q (/ Y)%Q.
Proof.
  unfold between. intros [A1 A2] HY Hl.
  assert (Hyl : (0 < Y * l)%Q) by (apply Qmult_lt_0_compat; assumption).
  assert (Hy : (0 < y)%Q) by lra.
  assert (Hh : (0 < h)%Q).
  { destruct (Qlt_le_dec 0 h) as [|Hn]; [assumption|].
    exfalso.
    assert (Y * h <= 0)%Q.
    { setoid_replace 0%Q with (Y * 0)%Q by ring.
      rewrite (Qmult_comm Y h), (Qmult_comm Y 0).
      apply Qmult_le_compat_r; lra. }
    lra. }
  assert (Hyh : (0 < Y * h)%Q) by (apply Qmult_lt_0_compat; assumption).
  split.
  - setoid_replace (/ Y * / h)%Q with (/ (Y * h))%Q by (field; split; lra).
    apply Qle_shift_inv_l; [assumption|].
    setoid_replace (/ (Y * h) * y)%Q with (y / (Y * h))%Q by (field; split; lra).
    apply Qle_shift_div_r; [assumption|]. lra.
  - setoid_replace (/ Y * / l)%Q with (/ (Y * l))%Q by (field; split; lra).
    apply Qle_shift_inv_r; [assumption|].
    setoid_replace (/ (Y * l) * y)%Q with (y / (Y * l))%Q by (field; split; lra).
    apply Qle_shift_div_l; [assumption|]. lra.
Qed.

Lemma between_Qabs lo hi r T (e : Q) :
  between lo hi r T -> (0 <= T)%Q -> (1 - e <= lo)%Q -> (hi <= 1 + e)%Q ->
  (Qabs (r - T) <= e * T)%Q.
Proof.
  unfold between. intros [A1 A2] HT Hlo Hhi.
  pose proof (Qmult_le_compat_r _ _ T Hlo HT).
  pose proof (Qmult_le_compat_r _ _ T Hhi HT).
  apply Qabs_Qle_condition. split; lra.
Qed.

(** Widening is exact; as a rounding it is within [eps 53]. *)
Lemma of_float_near x lo hi :
  normal 24 x lo hi -> -1074 <= lo - 29 -> hi - 28 <= 971 ->
  near 53 (SF2Q (F64.of_float x)) (SF2Q x).
Proof.
  intros [m [e [-> [Hm He]]]] Hlo Hhi.
  cbn [F64.of_float cond_Zopp binary_normalize].
  unfold binary_round, F64.prec, F64.emax.
  pose proof (digits2_pos_unique m 24 Hm) as Hd.
  rewrite Hd.
  assert (Hf : fexp 53 1024 (24 + e) = e - 29) by (unfold fexp, emin; lia).
  rewrite Hf. unfold shl_align.
  replace (e - 29 - e) with (-29) by lia.
  cbn [Pos.iter].
  set (mz := (m~0~0~0~0~0~0~0~0~0~0~0~0~0~0~0~0~0~0~0~0~0~0~0~0~0~0~0~0~0)%positive).
  assert (Hmz : Zpos mz = Zpos m * 2 ^ 29) by (subst mz; lia).
  assert (Hdz : Zpos (digits2_pos mz) = 53).
  { apply digits2_pos_unique. rewrite Hmz. lia. }
  assert (E : (inject_Z (Zpos mz) * 2 ^ (e - 29) == inject_Z (Zpos m) * 2 ^ e)%Q).
  { rewrite Hmz, inject_Z_mult, pow2Q_inject by lia.
    replace e with (29 + (e - 29)) at 2 by lia.
    rewrite pow2Q_add. ring. }
  destruct (binary_round_aux_near 53 1024 mz (e - 29) loc_Exact
              (SF2Q (S754_finite false m e)) ltac:(lia)) as [_ Hnear];
    rewrite ?Hdz; unfold emin; try lia.
  - cbn [SF2Q cond_Zopp]. rewrite <- E. split; [apply Qle_refl|].
    apply Qmult_le_compat_r; [|apply Qlt_le_weak, pow2Q_pos].
    rewrite <- Zle_Qle. lia.
  - exact Hnear.
Qed.

(** Conversion of a table entry to [float] is exact. *)
Definition of_Z_exactb (z : Z) : bool := Qeq_bool (SF2Q (F32.of_Z z)) (inject_Z z).

Lemma of_Z_entry z : 1 <= z <= 255 -> (SF2Q (F32.of_Z z) == inject_Z z)%Q.
Proof.
  intros Hz. apply Qeq_bool_iff.
  assert (H : forallb of_Z_exactb (zrange 1 255) = true) by (vm_compute; reflexivity).
  rewrite forallb_forall in H. apply (H z). apply in_zrange. lia.
Qed.

(** The table pair as the specification writes it, over the rationals.
    [AAN] holds the decimal constants of the specification. *)
Definition AAN : list Q :=
  [ 1; 1387039845 # 1000000000; 1306562965 # 1000000000;
    1175875602 # 1000000000; 1; 785694958 # 1000000000;
    541196100 # 1000000000; 275899379 # 1000000000 ]%Q.

Definition AAN_factor (i : nat) : Q :=
  (nth (i / 8) AAN 0 * nth (i mod 8) AAN 0)%Q.

(** [CSF[i] = Qbase[0] / Qbase[i]]. *)
Definition CSF (Qbase : list Z) (i : nat) : Q :=
  (inject_Z (get Qbase 0) / inject_Z (get Qbase i))%Q.

Definition spec_Qidct (Qbase : list Z) (i : nat) : Q :=
  (CSF Qbase i * AAN_factor i / 8)%Q.

Definition spec_Qfdct (Qbase : list Z) (i : nat) : Q :=
  (1 / (CSF Qbase i * AAN_factor i * 8))%Q.

(** The products of two [float] constants against the products of the
    decimals. *)
Definition aans_closeb (r c : nat) : bool :=
  let A := (nth r AAN 0 * nth c AAN 0)%Q in
  Qle_bool (A * (1 - (1 # 5000000))) (SF2Q (aans r c)) &&
  Qle_bool (SF2Q (aans r c)) (A * (1 + (1 # 5000000))).

Lemma aans_close r c :
  (r < 8)%nat -> (c < 8)%nat ->
  between (1 - (1 # 5000000))%Q (1 + (1 # 5000000))%Q
          (SF2Q (aans r c)) (nth r AAN 0 * nth c AAN 0)%Q.
Proof.
  intros Hr Hc.
  assert (H : forallb (fun r => forallb (aans_closeb r) (seq 0 8)) (seq 0 8) = true)
    by (vm_compute; reflexivity).
  rewrite forallb_forall in H.
  specialize (H r ltac:(apply in_seq; lia)).
  rewrite forallb_forall in H.
  specialize (H c ltac:(apply in_seq; lia)).
  unfold aans_closeb in H. cbv zeta in H.
  apply andb_true_iff in H. destruct H as [H1 H2].
  apply Qle_bool_iff in H1, H2. split; assumption.
Qed.

Lemma AAN_pos r : (r < 8)%nat -> (0 < nth r AAN 0)%Q.
Proof.
  intros Hr. do 8 (destruct r as [|r]; [reflexivity|]). lia.
Qed.

Lemma between_scale l h x X c :
  between l h x X -> (0 <= c)%Q -> between l h (x * c)%Q (X * c)%Q.
Proof.
  unfold between. intros [A1 A2] Hc.
  pose proof (Qmult_le_compat_r _ _ c A1 Hc).
  pose proof (Qmult_le_compat_r _ _ c A2 Hc).
  split; lra.
Qed.

Lemma between_eq l h r r' T T' :
  between l h r T -> (r == r')%Q -> (T == T')%Q -> between l h r' T'.
Proof.
  unfold between. intros [A1 A2] Hr HT. rewrite <- Hr, <- HT. now split.
Qed.

(** The error factors of one rounding to 24 and to 53 digits, and of
    the whole chain of operations of one table entry. *)
Definition lo24 : Q := (1 - eps 24)%Q.
Definition hi24 : Q := (1 + eps 24)%Q.
Definition lo53 : Q := (1 - eps 53)%Q.
Definition hi53 : Q := (1 + eps 53)%Q.
Definition loA : Q := (1 - (1 # 5000000))%Q.
Definition hiA : Q := (1 + (1 # 5000000))%Q.

(** [qaan] against [A * C], where the CSF coefficient [q] is within one
    rounding of [C]. *)
Definition lo_qaan : Q := (lo53 * (loA * (lo53 * lo24)))%Q.
Definition hi_qaan : Q := (hi53 * (hiA * (hi53 * hi24)))%Q.

Lemma near24_between r T : near 24 r T -> between lo24 hi24 r T.
Proof. exact (fun H => H). Qed.

Lemma near53_between r T : near 53 r T -> between lo53 hi53 r T.
Proof. exact (fun H => H). Qed.

(** Comparison of two constants, by computation. *)
Ltac constants := apply Qle_bool_iff; vm_compute; reflexivity.

(** One more rounding on top of a bound. *)
Lemma rounded24 l h r T U :
  near 24 r T -> between l h T U -> (0 <= U)%Q -> (0 <= l)%Q ->
  between (lo24 * l)%Q (hi24 * h)%Q r U.
Proof.
  intros N B HU Hl.
  apply (between_trans lo24 hi24 l h r T U (near24_between _ _ N) B HU);
    [constants|constants|exact Hl].
Qed.

Lemma rounded53 l h r T U :
  near 53 r T -> between l h T U -> (0 <= U)%Q -> (0 <= l)%Q ->
  between (lo53 * l)%Q (hi53 * h)%Q r U.
Proof.
  intros N B HU Hl.
  apply (between_trans lo53 hi53 l h r T U (near53_between _ _ N) B HU);
    [constants|constants|exact Hl].
Qed.

Lemma scaled_entry_value r c q (C : Q) :
  (r < 8)%nat -> (c < 8)%nat -> normal 24 q (-48) 2 ->
  (0 < C)%Q -> near 24 (SF2Q q) C ->
  let A := (nth r AAN 0 * nth c AAN 0)%Q in
  between (lo24 * (lo53 * lo_qaan))%Q (hi24 * (hi53 * hi_qaan))%Q
          (SF2Q (fst (scaled_entry r c q))) (C * A / 8)%Q /\
  between (lo24 * (lo53 * / (hi53 * hi_qaan)))%Q (hi24 * (hi53 * / (lo53 * lo_qaan)))%Q
          (SF2Q (snd (scaled_entry r c q))) (1 / (C * A * 8))%Q.
Proof.
  intros Hr Hc Hq HC Nq A.
  assert (HA : (0 < A)%Q).
  { apply Qmult_lt_0_compat; apply AAN_pos; assumption. }
  assert (HAC : (0 < A * C)%Q) by (apply Qmult_lt_0_compat; assumption).
  assert (HCA : (0 < C * A)%Q) by (apply Qmult_lt_0_compat; assumption).
  unfold scaled_entry. fold (aans r c). cbv zeta. cbn [fst snd].
  pose proof (aans_normal r c Hr Hc) as Ha.
  pose proof (aans_close r c Hr Hc) as Na. fold A loA hiA in Na.
  pose proof (of_float_normal q _ _ Hq ltac:(lia) ltac:(lia)) as Hq64.
  pose proof (of_float_near q _ _ Hq ltac:(lia) ltac:(lia)) as Nq64.
  destruct (SFmul_near 53 1024 _ _ _ _ _ _ ltac:(lia) Ha Hq64)
    as [Hqaan Nqaan]; [unfold emin; lia|lia|].
  destruct (SFdiv_near 53 1024 _ _ _ _ _ _ ltac:(lia) Hqaan eight_d_normal)
    as [Hq8 Nq8]; [unfold emin; lia|lia|].
  destruct (to_float_near _ _ _ Hq8) as [_ NQi]; [lia|lia|].
  destruct (SFmul_near 53 1024 _ _ _ _ _ _ ltac:(lia) Hqaan eight_d_normal)
    as [Hy2 Ny2]; [unfold emin; lia|lia|].
  destruct (SFdiv_near 53 1024 _ _ _ _ _ _ ltac:(lia) one_d_normal Hy2)
    as [Hy3 Ny3]; [unfold emin; lia|lia|].
  destruct (to_float_near _ _ _ Hy3) as [_ NQf]; [lia|lia|].
  assert (E8 : (SF2Q eight_d == 8)%Q) by (vm_compute; reflexivity).
  assert (E1 : (SF2Q one_d == 1)%Q) by (vm_compute; reflexivity).
  fold F64.mul F64.div in *.
  change (SFmul 53 1024) with F64.mul in *.
  change (SFdiv 53 1024) with F64.div in *.
  set (a64 := aans r c) in *.
  set (q64 := F64.of_float q) in *.
  set (qaan := F64.mul a64 q64) in *.
  set (q8 := F64.div qaan eight_d) in *.
  set (y2 := F64.mul qaan eight_d) in *.
  set (y3 := F64.div one_d y2) in *.
  clearbody q8 y3 y2 qaan q64 a64.
  set (Qi := F64.to_float q8) in *. set (Qf := F64.to_float y3) in *.
  clearbody Qi Qf.
  clear Ha Hq64 Hqaan Hq8 Hy2 Hy3 Hq.
  (* qaan against A * C *)
  assert (Bq : between (lo53 * lo24)%Q (hi53 * hi24)%Q (SF2Q q64) C).
  { apply (rounded53 _ _ _ _ _ Nq64 (near24_between _ _ Nq));
      [lra|constants]. }
  assert (Bp : between (loA * (lo53 * lo24))%Q (hiA * (hi53 * hi24))%Q
                       (SF2Q a64 * SF2Q q64)%Q (A * C)%Q).
  { apply (between_mul _ _ _ _ _ _ _ _ Na Bq); [lra|lra|constants|constants]. }
  assert (Bqaan : between lo_qaan hi_qaan (SF2Q qaan) (A * C)%Q).
  { apply (rounded53 _ _ _ _ _ Nqaan Bp); [lra|constants]. }
  split.
  - (* Qidct *)
    assert (B8 : between lo_qaan hi_qaan (SF2Q qaan / SF2Q eight_d)%Q (C * A / 8)%Q).
    { apply (between_eq _ _ (SF2Q qaan * (1 # 8))%Q _ (A * C * (1 # 8))%Q).
      - apply between_scale; [exact Bqaan|lra].
      - rewrite E8. unfold Qdiv. reflexivity.
      - unfold Qdiv. change (/ 8)%Q with (1 # 8)%Q. ring. }
    assert (HT : (0 <= C * A / 8)%Q).
    { unfold Qdiv. change (/ 8)%Q with (1 # 8)%Q. lra. }
    apply (rounded24 _ _ _ _ _ NQi); [|exact HT|constants].
    apply (rounded53 _ _ _ _ _ Nq8 B8); [exact HT|constants].
  - (* Qfdct *)
    assert (HT8 : (0 < C * A * 8)%Q) by lra.
    assert (By2 : between (lo53 * lo_qaan)%Q (hi53 * hi_qaan)%Q
                          (SF2Q y2) (C * A * 8)%Q).
    { apply (rounded53 _ _ _ _ _ Ny2); [|lra|constants].
      apply (between_eq _ _ (SF2Q qaan * 8)%Q _ (A * C * 8)%Q).
      - apply between_scale; [exact Bqaan|lra].
      - now rewrite E8.
      - ring. }
    assert (Binv : between (/ (hi53 * hi_qaan))%Q (/ (lo53 * lo_qaan))%Q
                     (SF2Q one_d / SF2Q y2)%Q (1 / (C * A * 8))%Q).
    { apply (between_eq _ _ (/ SF2Q y2)%Q _ (/ (C * A * 8))%Q).
      - apply between_inv; [exact By2|exact HT8|vm_compute; reflexivity].
      - rewrite E1. unfold Qdiv. ring.
      - unfold Qdiv. ring. }
    assert (HTf : (0 <= 1 / (C * A * 8))%Q).
    { apply Qlt_le_weak, Qlt_shift_div_l; [exact HT8|]. lra. }
    apply (rounded24 _ _ _ _ _ NQf); [|exact HTf|constants].
    apply (rounded53 _ _ _ _ _ Ny3 Binv); [exact HTf|constants].
Qed.

Lemma entry_agrees l h x T :
  between l h (SF2Q x) T -> (0 <= T)%Q ->
  (1 - (1 # 1000000) <= l)%Q -> (h <= 1 + (1 # 1000000))%Q ->
  (Qabs (SF2Q x - T) <= (1 # 1000000) * T)%Q.
Proof. intros B HT Hl Hh. exact (between_Qabs l h _ T _ B HT Hl Hh). Qed.

(** Both entries against the specification's formulas, for a table with
    entries in [1,255]. *)
Lemma scaled_tables_values (Qbase : list Z) (i : nat) :
  (forall k, (k < 64)%nat -> 1 <= get Qbase k <= 255) ->
  (i < 64)%nat ->
  let '(Qidct, Qfdct) := quantization_table_scale Qbase in
  (Qabs (SF2Q (getf Qidct i) - spec_Qidct Qbase i)
     <= (1 # 1000000) * spec_Qidct Qbase i)%Q /\
  (Qabs (SF2Q (getf Qfdct i) - spec_Qfdct Qbase i)
     <= (1 # 1000000) * spec_Qfdct Qbase i)%Q.
Proof.
  intros Hrange Hi.
  unfold quantization_table_scale. rewrite scaled_qtable_float_entries.
  rewrite !getf_map by assumption.
  rewrite getf_csf_from_qtable by assumption.
  pose proof (Hrange 0%nat ltac:(lia)) as R0.
  pose proof (Hrange i Hi) as Ri.
  assert (Hr : (i / 8 < 8)%nat) by (apply Nat.Div0.div_lt_upper_bound; lia).
  assert (Hc : (i mod 8 < 8)%nat) by (apply Nat.mod_upper_bound; lia).
  pose proof (of_Z_normal (get Qbase 0) ltac:(change (2 ^ 24) with 16777216; lia)) as H0.
  pose proof (of_Z_normal (get Qbase i) ltac:(change (2 ^ 24) with 16777216; lia)) as H1.
  destruct (SFdiv_near 24 128 _ _ _ _ _ _ ltac:(lia) H0 H1) as [Hn Nn];
    [unfold emin; lia|lia|].
  change (SFdiv 24 128) with F32.div in Hn, Nn.
  fold (csf Qbase i) in Hn, Nn.
  assert (Nc : near 24 (SF2Q (csf Qbase i)) (CSF Qbase i)).
  { apply (between_eq _ _ _ _ _ _ Nn (Qeq_refl _)).
    unfold CSF. now rewrite (of_Z_entry _ R0), (of_Z_entry _ Ri). }
  assert (HC : (0 < CSF Qbase i)%Q).
  { unfold CSF. apply Qlt_shift_div_l.
    - change 0%Q with (inject_Z 0). rewrite <- Zlt_Qlt. lia.
    - setoid_replace (0 * inject_Z (get Qbase i))%Q with (inject_Z 0) by ring.
      rewrite <- Zlt_Qlt. lia. }
  destruct (scaled_entry_value (i / 8) (i mod 8) (csf Qbase i) (CSF Qbase i)
              Hr Hc Hn HC Nc) as [Bi Bf].
  fold (AAN_factor i) in Bi, Bf.
  fold (spec_Qidct Qbase i) in Bi. fold (spec_Qfdct Qbase i) in Bf.
  assert (HA : (0 < AAN_factor i)%Q).
  { apply Qmult_lt_0_compat; apply AAN_pos; assumption. }
  assert (HCA : (0 < CSF Qbase i * AAN_factor i)%Q)
    by (apply Qmult_lt_0_compat; assumption).
  split.
  - apply (entry_agrees _ _ _ _ Bi); [|constants|constants].
    unfold spec_Qidct, Qdiv. change (/ 8)%Q with (1 # 8)%Q. lra.
  - apply (entry_agrees _ _ _ _ Bf); [|constants|constants].
    unfold spec_Qfdct. apply Qlt_le_weak, Qlt_shift_div_l; lra.
Qed.

(** C3, amended.  For every base table, every quality and every index
    [i] below 64, both scaled tables have 64 entries and, to within a
    relative error of one part in a million (the [float] and [double]
    roundings of the code), [Qidct_f[i] = CSF[i] * AAN_factor[i] / 8]
    and [Qfdct_f[i] = 1 / (CSF[i] * AAN_factor[i] * 8)], where
    [AAN_factor[r*8+c] = AAN[r] * AAN[c]] with the decimal constants
    [AAN] and [CSF[i] = Qbase[0] / Qbase[i]] is the
    contrast-sensitivity coefficient of the per-quality table [Qbase],
    not [Qbase[i]] itself. *)
Theorem scaled_tables_use_csf (Qb : list Z) (quality : Z) (i : nat) :
  (i < 64)%nat ->
  let Qbase := quantization_table Qb quality in
  let '(Qidct, Qfdct) := quantization_table_scale Qbase in
  length Qidct = 64%nat /\ length Qfdct = 64%nat /\
  (Qabs (SF2Q (getf Qidct i) - spec_Qidct Qbase i)
     <= (1 # 1000000) * spec_Qidct Qbase i)%Q /\
  (Qabs (SF2Q (getf Qfdct i) - spec_Qfdct Qbase i)
     <= (1 # 1000000) * spec_Qfdct Qbase i)%Q.
Proof.
  intros Hi. cbv zeta.
  assert (Hrange : forall k, (k < 64)%nat ->
            1 <= get (quantization_table Qb quality) k <= 255).
  { intros k Hk. rewrite get_quantization_table by assumption.
    apply quantization_entry_range. }
  pose proof (scaled_tables_values _ i Hrange Hi) as H.
  unfold quantization_table_scale in *.
  rewrite scaled_qtable_float_entries in *.
  split; [now rewrite length_map, length_seq|].
  split; [now rewrite length_map, length_seq|].
  exact H.
Qed.

Lemma scaled_tables_use_csf_witness :
  let Qbase := quantization_table JPEGLumaQuant 50 in
  let '(Qidct, Qfdct) := quantization_table_scale Qbase in
  length Qidct = 64%nat /\ length Qfdct = 64%nat /\
  (Qabs (SF2Q (getf Qidct 1) - spec_Qidct Qbase 1)
     <= (1 # 1000000) * spec_Qidct Qbase 1)%Q /\
  (Qabs (SF2Q (getf Qfdct 1) - spec_Qfdct Qbase 1)
     <= (1 # 1000000) * spec_Qfdct Qbase 1)%Q.
Proof.
  apply (scaled_tables_use_csf JPEGLumaQuant 50 1). lia.
Defined.

End FloatQuant.

(** ** The older float sampler

    The previous version of the codec sampled a buffer of 768 bytes into
    [float] samples centred on zero; its [subsample] is the one with a
    rounding bias. *)

Module Legacy.
Import Int Arr Rounding FloatQuant.

Definition fsub : spec_float -> spec_float -> spec_float := SFsub F32.prec F32.emax.

(** One output sample of the older [subsample]: the sum of four bytes
    and the [size_t] bias, shifted right by two, converted to [float],
    less [128.0f]. *)
Definition box (YCoCg : list Z) (src1 src2 a b : nat) (bias : Z) : spec_float :=
  fsub (F32.of_Z (asr (to_size (get YCoCg (src1 + a * 3) + get YCoCg (src1 + b * 3) +
                                get YCoCg (src2 + a * 3) + get YCoCg (src2 + b * 3) +
                                bias)) 2))
       (F32.of_Z 128).

(** The older [subsample], on a buffer of 768 bytes.  The state of the
    loop is the pair of biases [(a, b)], exchanged after every output
    row, and the samples stored so far. *)
Definition subsample (YCoCg : list Z) (c : nat) : list spec_float :=
  snd (fold_left (fun '(a, b, dst) k =>
    let i := (2 * k)%nat in
    let src1 := ((i + 0) * 48 + c)%nat in
    let src2 := ((i + 1) * 48 + c)%nat in
    let dst := dst ++
      [ box YCoCg src1 src2 0 1 a;   box YCoCg src1 src2 2 3 b;
        box YCoCg src1 src2 4 5 a;   box YCoCg src1 src2 6 7 b;
        box YCoCg src1 src2 8 9 a;   box YCoCg src1 src2 10 11 b;
        box YCoCg src1 src2 12 13 a; box YCoCg src1 src2 14 15 b ] in
    (b, a, dst)) (seq 0 8) (0, 2, [])).

(** The bias that the older [subsample] adds at output row [i], column
    [j]: 0 and 2 alternate along a row, and the two are exchanged from
    one row to the next. *)
Definition bias (i j : nat) : Z := if Nat.even (i + j) then 0 else 2.

Lemma subsample_entries YCoCg c :
  subsample YCoCg c =
    map (fun p =>
      let i := (p / 8)%nat in
      let j := (p mod 8)%nat in
      box YCoCg ((2 * i + 0) * 48 + c) ((2 * i + 1) * 48 + c)
          (2 * j) (2 * j + 1) (bias i j)) (seq 0 64).
Proof. reflexivity. Qed.

Definition centred_exactly (v : Z) : bool :=
  match fsub (F32.of_Z v) (F32.of_Z 128) with
  | S754_zero _ => v =? 128
  | S754_finite s m e => Qeq_bool (SF2Q (S754_finite s m e)) (inject_Z (v - 128))
  | _ => false
  end.

Lemma centred_exactly_all : forallb centred_exactly (zrange 0 256) = true.
Proof. vm_compute. reflexivity. Qed.

Lemma fsub_128_exact v :
  0 <= v <= 255 ->
  (SF2Q (fsub (F32.of_Z v) (F32.of_Z 128)) == inject_Z (v - 128))%Q.
Proof.
  intros Hv.
  pose proof (proj1 (forallb_forall centred_exactly (zrange 0 256))
                centred_exactly_all v (in_zrange 0 256 v ltac:(lia))) as H.
  unfold centred_exactly in H.
  destruct (fsub (F32.of_Z v) (F32.of_Z 128)) as [s| | |s m e]; try discriminate.
  - apply Z.eqb_eq in H. subst v. reflexivity.
  - now apply Qeq_bool_iff in H.
Qed.

(** In the older version every output sample is
    [((v00 + v01 + v10 + v11 + bias) >> 2) - 128] with the bias of
    [bias i j]: 0, 2, 0, 2, ... along the even output rows and
    2, 0, 2, 0, ... along the odd ones. *)
Lemma subsample_bias_checkerboard (YCoCg : list Z) (c i j : nat) :
  Forall is_byte YCoCg -> (i < 8)%nat -> (j < 8)%nat ->
  (SF2Q (getf (subsample YCoCg c) (i * 8 + j)) ==
   inject_Z (asr (get YCoCg (((2 * i) * 16 + 2 * j) * 3 + c)
                  + get YCoCg (((2 * i) * 16 + (2 * j + 1)) * 3 + c)
                  + get YCoCg (((2 * i + 1) * 16 + 2 * j) * 3 + c)
                  + get YCoCg (((2 * i + 1) * 16 + (2 * j + 1)) * 3 + c)
                  + bias i j) 2 - 128))%Q.
Proof.
  intros Hb Hi Hj.
  assert (Hget : forall k, 0 <= get YCoCg k <= 255).
  { intros k. unfold get.
    destruct (Nat.lt_ge_cases k (length YCoCg)) as [Hk|Hk].
    - rewrite Forall_forall in Hb. apply Hb. now apply nth_In.
    - rewrite nth_overflow by assumption. lia. }
  rewrite subsample_entries, getf_map by lia.
  cbv zeta.
  replace ((i * 8 + j) / 8)%nat with i
    by (apply Nat.div_unique with (r := j); lia).
  replace ((i * 8 + j) mod 8)%nat with j
    by (apply Nat.mod_unique with (q := i); lia).
  unfold box.
  replace ((2 * i + 0) * 48 + c + 2 * j * 3)%nat
    with (((2 * i) * 16 + 2 * j) * 3 + c)%nat by lia.
  replace ((2 * i + 0) * 48 + c + (2 * j + 1) * 3)%nat
    with (((2 * i) * 16 + (2 * j + 1)) * 3 + c)%nat by lia.
  replace ((2 * i + 1) * 48 + c + 2 * j * 3)%nat
    with (((2 * i + 1) * 16 + 2 * j) * 3 + c)%nat by lia.
  replace ((2 * i + 1) * 48 + c + (2 * j + 1) * 3)%nat
    with (((2 * i + 1) * 16 + (2 * j + 1)) * 3 + c)%nat by lia.
  set (v00 := get YCoCg _). set (v01 := get YCoCg _).
  set (v10 := get YCoCg _). set (v11 := get YCoCg _).
  pose proof (Hget (((2 * i) * 16 + 2 * j) * 3 + c)%nat).
  pose proof (Hget (((2 * i) * 16 + (2 * j + 1)) * 3 + c)%nat).
  pose proof (Hget (((2 * i + 1) * 16 + 2 * j) * 3 + c)%nat).
  pose proof (Hget (((2 * i + 1) * 16 + (2 * j + 1)) * 3 + c)%nat).
  assert (Hbias : 0 <= bias i j <= 2) by (unfold bias; destruct (Nat.even _); lia).
  unfold to_size. rewrite Z.mod_small by (subst v00 v01 v10 v11; lia).
  apply fsub_128_exact.
  rewrite asr_div by lia. change (2 ^ 2) with 4.
  subst v00 v01 v10 v11. Z.div_mod_to_equations. lia.
Qed.

(** On [Sampler.striped_co], where every 2x2 sum is 2, the older version
    gives 0 - 128 and 1 - 128 alternately along output row 0, and
    1 - 128 and 0 - 128 alternately along output row 1. *)
Example subsample_striped_co :
  map (fun p => SF2Q (getf (subsample Sampler.striped_co 1) p)) [0; 1; 8; 9]%nat =
  map SF2Q [F32.of_Z (-128); F32.of_Z (-127); F32.of_Z (-127); F32.of_Z (-128)].
Proof. vm_compute. reflexivity. Qed.

End Legacy.

(** * Further properties of the code *)

(** ** Quality and the integer quantization tables *)

Module IntTables.
Import Int Arr Color Quant.

(** [quantization_table_scale] on [int16_t] tables: the pair
    [(Qidct, Qfdct)]. *)
Definition quantization_table_scale (Qbase : list Z) : list Z * list Z :=
  scaled_qtable_int16 Qbase.

(** [qtables_encode] on [int16_t] tables: the pair [(Qluma, Qchroma)] of
    forward tables; the inverse tables are discarded. *)
Definition qtables_encode (quality : Z) : list Z * list Z :=
  let Qbase_y := quantization_table_luma quality in
  let Qbase_c := quantization_table_chroma quality in
  (snd (quantization_table_scale Qbase_y),
   snd (quantization_table_scale Qbase_c)).

(** [qtables_decode] on [int16_t] tables: the pair [(Qluma, Qchroma)] of
    inverse tables; the forward tables are discarded. *)
Definition qtables_decode (quality : Z) : list Z * list Z :=
  let Qbase_y := quantization_table_luma quality in
  let Qbase_c := quantization_table_chroma quality in
  (fst (quantization_table_scale Qbase_y),
   fst (quantization_table_scale Qbase_c)).

Lemma spec_scale_antitone q1 q2 :
  1 <= q1 <= q2 -> q2 <= 100 -> spec_scale q2 <= spec_scale q1.
Proof.
  intros H1 H2. unfold spec_scale.
  destruct (Z.ltb_spec q1 50); destruct (Z.ltb_spec q2 50); try lia.
  - apply Z.div_le_compat_l; lia.
  - assert (5000 / 49 <= 5000 / q1) by (apply Z.div_le_compat_l; lia).
    change (5000 / 49) with 102 in *. lia.
Qed.

Lemma spec_entry_monotone b q1 q2 :
  0 <= b -> q1 <= q2 -> spec_entry b q1 <= spec_entry b q2.
Proof.
  intros Hb Hq. unfold spec_entry.
  assert ((b * q1 + 50) / 100 <= (b * q2 + 50) / 100)
    by (apply Z.div_le_mono; nia).
  lia.
Qed.

Lemma tabulate_const n v : tabulate n (fun _ => v) = repeat v n.
Proof.
  unfold tabulate. generalize 0%nat as s.
  induction n as [|n IH]; intros s; [reflexivity|].
  cbn [seq map repeat]. now rewrite IH.
Qed.

Lemma quantization_table_has_no_zero Qbase quality :
  Dct.has_zero (quantization_table Qbase quality) = false.
Proof.
  apply Dct.has_zero_false. intros i Hi.
  rewrite get_quantization_table by assumption.
  pose proof (quantization_entry_range (get Qbase i)
                (quality_scale (clamp_quality quality))). lia.
Qed.

Lemma scaled_qtable_int16_copies Qbase :
  length Qbase = 64%nat -> scaled_qtable_int16 Qbase = (Qbase, Qbase).
Proof.
  intros Hlen. unfold scaled_qtable_int16.
  rewrite <- Hlen, <- tabulate_get. reflexivity.
Qed.

Lemma qtables_encode_eq quality :
  qtables_encode quality =
    (quantization_table_luma quality, quantization_table_chroma quality).
Proof.
  unfold qtables_encode, quantization_table_scale.
  now rewrite !scaled_qtable_int16_copies
    by apply quantization_table_length.
Qed.

Lemma qtables_decode_eq quality :
  qtables_decode quality =
    (quantization_table_luma quality, quantization_table_chroma quality).
Proof.
  unfold qtables_decode, quantization_table_scale.
  now rewrite !scaled_qtable_int16_copies
    by apply quantization_table_length.
Qed.

Lemma quantization_table_100 Qbase quality :
  100 <= quality -> quantization_table Qbase quality = repeat 1 64.
Proof.
  intros Hq. unfold quantization_table.
  assert (E : clamp_quality quality = 100).
  { rewrite clamp_quality_spec. unfold spec_quality. lia. }
  rewrite E. change (quality_scale 100) with 0.
  rewrite <- tabulate_const. unfold tabulate.
  apply map_ext. intros i. unfold quantization_entry.
  now rewrite Z.mul_0_r.
Qed.

(** X1. A quality outside [1,100] selects the table of the nearest bound:
    [quantization_table] clamps the quality before anything else. *)
Theorem quantization_table_clamps_quality (Qbase : list Z) (quality : Z) :
  quantization_table Qbase quality =
    quantization_table Qbase (Z.min (Z.max quality 1) 100).
Proof.
  unfold quantization_table. rewrite !clamp_quality_spec.
  unfold spec_quality.
  replace (Z.min (Z.max (Z.min (Z.max quality 1) 100) 1) 100)
    with (Z.min (Z.max quality 1) 100) by lia.
  reflexivity.
Qed.

(** X2. At quality 100 or more the scale factor is 0, so whatever the base
    table holds every entry is clamped up to 1: the table is all ones. *)
Theorem quantization_table_top_quality_is_ones (Qbase : list Z) (quality : Z) :
  100 <= quality -> quantization_table Qbase quality = repeat 1 64.
Proof.
  intros Hq. unfold quantization_table.
  assert (E : clamp_quality quality = 100).
  { rewrite clamp_quality_spec. unfold spec_quality. lia. }
  rewrite E. change (quality_scale 100) with 0.
  rewrite <- tabulate_const. unfold tabulate.
  apply map_ext. intros i. unfold quantization_entry.
  now rewrite Z.mul_0_r.
Qed.

Lemma quantization_table_top_quality_is_ones_witness :
  quantization_table JPEGChromaQuant 250 = repeat 1 64.
Proof.
  apply (quantization_table_top_quality_is_ones JPEGChromaQuant 250). lia.
Defined.

(** X3. For a base table with entries in [0,655] (the two JPEG tables are),
    raising the quality never raises an entry of the table. *)
Theorem quantization_table_antitone (Qbase : list Z) (q1 q2 : Z) (i : nat) :
  Forall (fun b => 0 <= b <= 655) Qbase -> q1 <= q2 -> (i < 64)%nat ->
  get (quantization_table Qbase q2) i <= get (quantization_table Qbase q1) i.
Proof.
  intros Hb Hq Hi. rewrite !get_quantization_table by assumption.
  rewrite !clamp_quality_spec.
  destruct (quality_scale_spec _ (spec_quality_range q1)) as [-> Hs1].
  destruct (quality_scale_spec _ (spec_quality_range q2)) as [-> Hs2].
  assert (Hg : 0 <= get Qbase i <= 655).
  { unfold get. destruct (Nat.lt_ge_cases i (length Qbase)) as [Hl|Hl].
    - rewrite Forall_forall in Hb. apply Hb. now apply nth_In.
    - rewrite nth_overflow by assumption. lia. }
  rewrite !quantization_entry_spec by lia.
  apply spec_entry_monotone; [lia|].
  apply spec_scale_antitone; unfold spec_quality; lia.
Qed.

Lemma quantization_table_antitone_witness :
  get (quantization_table JPEGLumaQuant 75) 5 <=
  get (quantization_table JPEGLumaQuant 20) 5.
Proof.
  apply (quantization_table_antitone JPEGLumaQuant 20 75 5).
  - repeat constructor; lia.
  - lia.
  - lia.
Defined.

(** X4. The integer tables made for the encoder and for the decoder at one
    quality are the same pair: the clamped luma and chroma tables, with
    64 entries each, all in [1,255]. *)
Theorem qtables_encode_decode_agree (quality : Z) :
  qtables_encode quality = qtables_decode quality /\
  qtables_decode quality =
    (quantization_table_luma quality, quantization_table_chroma quality) /\
  (forall i, (i < 64)%nat ->
     1 <= get (fst (qtables_encode quality)) i <= 255 /\
     1 <= get (snd (qtables_encode quality)) i <= 255).
Proof.
  rewrite qtables_encode_eq, qtables_decode_eq.
  split; [reflexivity|]. split; [reflexivity|].
  intros i Hi. cbn [fst snd].
  unfold quantization_table_luma, quantization_table_chroma.
  rewrite !get_quantization_table by assumption.
  split; apply quantization_entry_range.
Qed.

End IntTables.

(** ** Block extraction, merging and scaling *)

Module Blocks.
Import Int Arr Sampler.

(** Indexing a concatenation of chunks of [m]. *)
Lemma get_concat_chunks (f : nat -> list Z) (m n : nat) :
  (forall k, length (f k) = m) ->
  forall s i j, (i < n)%nat -> (j < m)%nat ->
  get (concat (map f (seq s n))) (i * m + j) = get (f (s + i)%nat) j.
Proof.
  intros Hlen. unfold get.
  induction n as [|n IH]; intros s i j Hi Hj; [lia|].
  cbn [seq map concat].
  destruct i as [|i].
  - rewrite app_nth1 by (rewrite Hlen; lia).
    now rewrite Nat.add_0_r.
  - rewrite app_nth2 by (rewrite Hlen; lia). rewrite Hlen.
    replace (S i * m + j - m)%nat with (i * m + j)%nat by lia.
    rewrite IH by lia.
    now replace (S s + i)%nat with (s + S i)%nat by lia.
Qed.

Lemma length_concat_chunks (f : nat -> list Z) (m n : nat) :
  (forall k, length (f k) = m) ->
  forall s, length (concat (map f (seq s n))) = (n * m)%nat.
Proof.
  intros Hlen. induction n as [|n IH]; intros s; [reflexivity|].
  cbn [seq map concat]. rewrite length_app, Hlen, IH. lia.
Qed.

(** Each sample of the 8x8 source lands on a 2x2 square of the 16x16
    destination, whatever the destination held. *)
Lemma scale_block_tabulate dst src :
  length dst = 256%nat ->
  scale_block dst src =
    tabulate 256 (fun p => get src (p / 32 * 8 + p mod 16 / 2)).
Proof.
  intros Hlen. rewrite (tabulate_get dst), Hlen.
  vm_compute. reflexivity.
Qed.

Lemma merge_blocks_tabulate dst src :
  length dst = 256%nat ->
  merge_blocks dst src =
    tabulate 256 (fun p =>
      get src ((2 * (p / 128) + p mod 16 / 8) * 64
               + 8 * (p / 16 mod 8) + p mod 8)).
Proof.
  intros Hlen. rewrite (tabulate_get dst), Hlen.
  vm_compute. reflexivity.
Qed.

Lemma box_within YCoCg src1 src2 a b lo hi :
  is_int16 lo -> is_int16 hi ->
  lo <= get YCoCg (src1 + a * 3) <= hi ->
  lo <= get YCoCg (src1 + b * 3) <= hi ->
  lo <= get YCoCg (src2 + a * 3) <= hi ->
  lo <= get YCoCg (src2 + b * 3) <= hi ->
  lo <= box YCoCg src1 src2 a b <= hi.
Proof.
  unfold is_int16, box. intros Hlo Hhi H1 H2 H3 H4.
  rewrite asr_div by lia. change (2 ^ 2) with 4.
  rewrite to_int16_id by (unfold is_int16; Z.div_mod_to_equations; lia).
  Z.div_mod_to_equations. lia.
Qed.

(** X5. [scale_block] doubles an 8x8 block in both directions: the sample
    at row [r], column [c] of the 16x16 result is the source sample at
    row [r/2], column [c/2].  Nothing of the destination's former
    contents is left. *)
Theorem scale_block_replicates (dst src : list Z) (r c : nat) :
  length dst = 256%nat -> length src = 64%nat ->
  (r < 16)%nat -> (c < 16)%nat ->
  length (scale_block dst src) = 256%nat /\
  get (scale_block dst src) (r * 16 + c) = get src (r / 2 * 8 + c / 2).
Proof.
  intros Hdst _ Hr Hc. rewrite scale_block_tabulate by assumption.
  split; [apply tabulate_length|].
  rewrite get_tabulate by lia. f_equal.
  assert (E1 : ((r * 16 + c) / 32 = r / 2)%nat).
  { pose proof (Nat.div_mod_eq (r * 16 + c) 32).
    pose proof (Nat.mod_upper_bound (r * 16 + c) 32 ltac:(lia)).
    pose proof (Nat.div_mod_eq r 2).
    pose proof (Nat.mod_upper_bound r 2 ltac:(lia)). lia. }
  assert (E2 : ((r * 16 + c) mod 16 = c)%nat).
  { pose proof (Nat.div_mod_eq (r * 16 + c) 16).
    pose proof (Nat.mod_upper_bound (r * 16 + c) 16 ltac:(lia)). lia. }
  now rewrite E1, E2.
Qed.

Lemma scale_block_replicates_witness :
  length (scale_block (repeat 9 256) (tabulate 64 Z.of_nat)) = 256%nat /\
  get (scale_block (repeat 9 256) (tabulate 64 Z.of_nat)) (5 * 16 + 11) =
    get (tabulate 64 Z.of_nat) (5 / 2 * 8 + 11 / 2).
Proof.
  apply (scale_block_replicates (repeat 9 256) (tabulate 64 Z.of_nat) 5 11).
  - reflexivity.
  - reflexivity.
  - lia.
  - lia.
Defined.

(** X6. [merge_blocks] lays four contiguous 8x8 blocks out as the quadrants
    of one 16x16 block: sample [(i, j)] of block [2*qy + qx] becomes the
    sample at row [8*qy + i], column [8*qx + j], whatever the blocks and
    the destination hold. *)
Theorem merge_blocks_quadrant_layout (dst src : list Z) (qx qy i j : nat) :
  length dst = 256%nat -> length src = 256%nat ->
  (qx < 2)%nat -> (qy < 2)%nat -> (i < 8)%nat -> (j < 8)%nat ->
  length (merge_blocks dst src) = 256%nat /\
  get (merge_blocks dst src) ((8 * qy + i) * 16 + 8 * qx + j) =
    get src ((2 * qy + qx) * 64 + 8 * i + j).
Proof.
  intros Hdst _ Hqx Hqy Hi Hj. rewrite merge_blocks_tabulate by assumption.
  split; [apply tabulate_length|].
  rewrite get_tabulate by lia.
  destruct qx as [|[|qx]]; destruct qy as [|[|qy]]; try lia;
    do 8 (destruct i as [|i]; [
      do 8 (destruct j as [|j]; [reflexivity|]); lia |]); lia.
Qed.

Lemma merge_blocks_quadrant_layout_witness :
  length (merge_blocks (repeat 9 256) (tabulate 256 Z.of_nat)) = 256%nat /\
  get (merge_blocks (repeat 9 256) (tabulate 256 Z.of_nat))
      ((8 * 1 + 3) * 16 + 8 * 0 + 6) =
    get (tabulate 256 Z.of_nat) ((2 * 1 + 0) * 64 + 8 * 3 + 6).
Proof.
  apply (merge_blocks_quadrant_layout (repeat 9 256) (tabulate 256 Z.of_nat) 0 1 3 6).
  - reflexivity.
  - reflexivity.
  - lia.
  - lia.
  - lia.
  - lia.
Defined.

Lemma get_subsample_within (YCoCg : list Z) (channel i j : nat) (lo hi : Z) :
  is_int16 lo -> is_int16 hi ->
  (forall p, (p < 256)%nat -> lo <= get YCoCg (p * 3 + channel) <= hi) ->
  (i < 8)%nat -> (j < 8)%nat ->
  lo <= get (subsample YCoCg channel) (i * 8 + j) <= hi.
Proof.
  intros Hlo Hhi H Hi Hj.
  unfold subsample. rewrite get_concat_rows by (auto; lia).
  do 8 (destruct j as [|j];
    [cbn [get nth]; apply box_within; try assumption;
     match goal with
     | |- _ <= get _ ((?r * 48 + _) + ?a * 3) <= _ =>
         replace ((r * 48 + channel) + a * 3)%nat
           with ((r * 16 + a) * 3 + channel)%nat by lia;
         apply H; lia
     end |]).
  lia.
Qed.

(** X7. [subsample] never leaves the range of its input: if every sample of
    the channel lies in [lo, hi] then so does every output sample.  In
    particular a constant channel stays constant. *)
Theorem subsample_within_range (YCoCg : list Z) (channel i j : nat) (lo hi : Z) :
  is_int16 lo -> is_int16 hi ->
  (forall p, (p < 256)%nat -> lo <= get YCoCg (p * 3 + channel) <= hi) ->
  (i < 8)%nat -> (j < 8)%nat ->
  lo <= get (subsample YCoCg channel) (i * 8 + j) <= hi.
Proof.
  intros Hlo Hhi H Hi Hj.
  unfold subsample. rewrite get_concat_rows by (auto; lia).
  do 8 (destruct j as [|j];
    [cbn [get nth]; apply box_within; try assumption;
     match goal with
     | |- _ <= get _ ((?r * 48 + _) + ?a * 3) <= _ =>
         replace ((r * 48 + channel) + a * 3)%nat
           with ((r * 16 + a) * 3 + channel)%nat by lia;
         apply H; lia
     end |]).
  lia.
Qed.

Lemma subsample_within_range_witness :
  0 <= get (subsample striped_co 1) (2 * 8 + 5) <= 1.
Proof.
  apply (subsample_within_range striped_co 1 2 5 0 1).
  - unfold is_int16. lia.
  - unfold is_int16. lia.
  - intros p Hp. unfold striped_co. rewrite get_tabulate by lia.
    cbn beta. destruct (_ && _)%bool; lia.
  - lia.
  - lia.
Defined.

End Blocks.

(** ** The inverse colour conversion and the quadrants *)

Module Pixels.
Import Int Arr Color Sampler.

Lemma clamp_byte v : is_byte (clamp v).
Proof.
  unfold is_byte, clamp.
  destruct (Z.ltb_spec v 0); [lia|].
  destruct (v >? 255) eqn:E; [lia|].
  rewrite Z.gtb_ltb in E. apply Z.ltb_ge in E. lia.
Qed.

Lemma ycocga_to_rgba_loop_spec n : forall ycocg alpha i,
  length ycocg = (3 * n)%nat -> length alpha = n -> (i < n)%nat ->
  let out := ycocga_to_rgba_loop n ycocg alpha in
  length out = (4 * n)%nat /\
  is_byte (get out (i * 4 + 0)) /\ is_byte (get out (i * 4 + 1)) /\
  is_byte (get out (i * 4 + 2)) /\ get out (i * 4 + 3) = get alpha i.
Proof.
  induction n as [|n IH]; intros ycocg alpha i Hy Ha Hi; [lia|].
  destruct ycocg as [|y [|co [|cg rest]]]; simpl in Hy; try lia.
  destruct alpha as [|a al]; simpl in Ha; try lia.
  cbn [ycocga_to_rgba_loop].
  destruct (ycocg_to_rgb y co cg) as [[r g] b]. cbv zeta.
  destruct (Nat.eq_dec n 0) as [Hn|Hn].
  - subst n. assert (i = 0%nat) by lia. subst i.
    destruct rest; [|discriminate]. destruct al; [|discriminate].
    cbn [ycocga_to_rgba_loop length get nth Nat.mul Nat.add].
    split; [reflexivity|].
    split; [apply clamp_byte|]. split; [apply clamp_byte|].
    split; [apply clamp_byte|reflexivity].
  - destruct i as [|i].
    + destruct (IH rest al 0%nat ltac:(lia) ltac:(lia) ltac:(lia)) as [L _].
      cbn [length]. split; [rewrite L; lia|].
      cbn [get nth Nat.mul Nat.add].
      split; [apply clamp_byte|]. split; [apply clamp_byte|].
      split; [apply clamp_byte|reflexivity].
    + destruct (IH rest al i ltac:(lia) ltac:(lia) ltac:(lia))
        as [L [B0 [B1 [B2 A]]]].
      cbn [length]. split; [rewrite L; lia|].
      replace (S i * 4 + 0)%nat with (S (S (S (S (i * 4 + 0))))) by lia.
      replace (S i * 4 + 1)%nat with (S (S (S (S (i * 4 + 1))))) by lia.
      replace (S i * 4 + 2)%nat with (S (S (S (S (i * 4 + 2))))) by lia.
      replace (S i * 4 + 3)%nat with (S (S (S (S (i * 4 + 3))))) by lia.
      unfold get in *. cbn [nth].
      split; [exact B0|]. split; [exact B1|]. split; [exact B2|exact A].
Qed.

(** X9. Whatever the 768 luma and chroma values are, [ycocga_to_rgba]
    writes 1024 values; the three colour values of every pixel lie in
    [0,255], and the fourth is the pixel's alpha, unchanged. *)
Theorem ycocga_to_rgba_bytes_and_alpha (ycocg alpha : list Z) (i : nat) :
  length ycocg = 768%nat -> length alpha = 256%nat -> (i < 256)%nat ->
  let rgba := ycocga_to_rgba ycocg alpha in
  length rgba = 1024%nat /\
  is_byte (get rgba (i * 4 + 0)) /\ is_byte (get rgba (i * 4 + 1)) /\
  is_byte (get rgba (i * 4 + 2)) /\ get rgba (i * 4 + 3) = get alpha i.
Proof.
  intros Hy Ha Hi.
  apply (ycocga_to_rgba_loop_spec 256 ycocg alpha i Hy Ha Hi).
Qed.

Lemma ycocga_to_rgba_bytes_and_alpha_witness :
  let rgba := ycocga_to_rgba (repeat 3000 768) (repeat 77 256) in
  length rgba = 1024%nat /\
  is_byte (get rgba (100 * 4 + 0)) /\ is_byte (get rgba (100 * 4 + 1)) /\
  is_byte (get rgba (100 * 4 + 2)) /\
  get rgba (100 * 4 + 3) = get (repeat 77 256) 100.
Proof.
  apply (ycocga_to_rgba_bytes_and_alpha (repeat 3000 768) (repeat 77 256) 100).
  - reflexivity.
  - reflexivity.
  - lia.
Defined.

(** X8. [subblock] extracts a quadrant: sample [(i, j)] of the block taken
    at [(x, y)] is the sample of the channel at row [8 y + i], column
    [8 x + j] of the 16x16 block. *)
Theorem subblock_is_quadrant (YCoCg : list Z) (x y channel i j : nat) :
  (i < 8)%nat -> (j < 8)%nat ->
  length (subblock YCoCg x y channel) = 64%nat /\
  get (subblock YCoCg x y channel) (i * 8 + j) =
    sample YCoCg channel (8 * y + i) (8 * x + j).
Proof.
  intros Hi Hj. split; [apply subblock_length|].
  unfold subblock. rewrite get_concat_rows by (auto; lia).
  unfold sample.
  do 8 (destruct j as [|j]; [cbn [get nth]; f_equal; lia|]).
  lia.
Qed.

Lemma subblock_is_quadrant_witness :
  length (subblock striped_co 1 0 1) = 64%nat /\
  get (subblock striped_co 1 0 1) (2 * 8 + 3) =
    sample striped_co 1 (8 * 0 + 2) (8 * 1 + 3).
Proof.
  apply (subblock_is_quadrant striped_co 1 0 1 2 3).
  - lia.
  - lia.
Defined.

End Pixels.

(** ** The integer kernels without quantization, and flat blocks *)

Module Kernels.
Import Int Arr Dct.

(** [fdct8x8i_base]: the two loops of [fdct8x8iq_base], without the
    division by the table. *)
Definition fdct8x8i_base (src : list Z) : list Z :=
  fdct_cols (fdct_rows src).

(** The first loop of [idct8x8i_base]: [COLUMNI(x)] loads the
    coefficient as it is. *)
Definition idct_cols_plain (src : list Z) : list Z :=
  fold_left (fun wsp c => scatter wsp c 8 (idct_1d (gather src c 8)))
            (seq 0 8) (repeat 0 64).

(** The second loop of [idct8x8i_base]: the results are narrowed to
    [int16_t], without descaling. *)
Definition idct_rows_plain (wsp : list Z) : list Z :=
  concat (map (fun r => map to_int16 (idct_1d (gather wsp (8 * r) 1)))
              (seq 0 8)).

Definition idct8x8i_base (src : list Z) : list Z :=
  idct_rows_plain (idct_cols_plain src).

(** An 8x8 block of coefficients with only the DC term set. *)
Definition dc_only (x : Z) : list Z := x :: repeat 0 63.

(** The sum of the samples of a block. *)
Definition total (src : list Z) : Z := fold_right Z.add 0 src.

Lemma fdct8x8i_base_unfold src : fdct8x8i_base src = fdct_cols (fdct_rows src).
Proof. reflexivity. Qed.

Lemma fdct_1d_int16 i k : is_int16 (get (fdct_1d i) k).
Proof.
  unfold fdct_1d.
  do 8 (destruct k as [|k]; [cbn [get nth]; apply to_int16_range|]).
  unfold get. cbn [nth]. destruct k; unfold is_int16; lia.
Qed.

Lemma fdct_1d_length i : length (fdct_1d i) = 8%nat.
Proof. reflexivity. Qed.

Lemma idct_1d_length i : length (idct_1d i) = 8%nat.
Proof. reflexivity. Qed.

(** Storing eight values down column [c] of a 64-entry array. *)
Lemma scatter_col a v c :
  length a = 64%nat -> (c < 8)%nat ->
  scatter a c 8 v =
    tabulate 64 (fun p => if (p mod 8 =? c)%nat then get v (p / 8) else get a p).
Proof.
  intros Hlen Hc.
  assert (E : a = tabulate 64 (get a)) by (rewrite <- Hlen; apply tabulate_get).
  revert E. generalize (get a) as f. intros f ->.
  do 8 (destruct c as [|c]; [vm_compute; reflexivity|]). lia.
Qed.

Lemma scatter_length a v c :
  length a = 64%nat -> (c < 8)%nat -> length (scatter a c 8 v) = 64%nat.
Proof.
  intros Hlen Hc. rewrite scatter_col by assumption. apply tabulate_length.
Qed.

Lemma get_scatter a v c p :
  length a = 64%nat -> (c < 8)%nat -> (p < 64)%nat ->
  get (scatter a c 8 v) p =
    if (p mod 8 =? c)%nat then get v (p / 8) else get a p.
Proof.
  intros Hlen Hc Hp. rewrite scatter_col by assumption.
  now rewrite get_tabulate.
Qed.

Lemma fdct_rows_length src : length (fdct_rows src) = 64%nat.
Proof. unfold fdct_rows. rewrite length_concat, map_map. reflexivity. Qed.

(** One column step of the second loop of the forward transform. *)
Definition col_step (a : list Z) (c : nat) : list Z :=
  scatter a c 8 (fdct_1d (gather a c 8)).

Lemma col_step_length a c :
  length a = 64%nat -> (c < 8)%nat -> length (col_step a c) = 64%nat.
Proof. intros Hlen Hc. unfold col_step. apply scatter_length; assumption. Qed.

Lemma fdct_cols_steps d :
  fdct_cols d =
    col_step (col_step (col_step (col_step (col_step (col_step (col_step
      (col_step d 0) 1) 2) 3) 4) 5) 6) 7.
Proof.
  change (fdct_cols d) with (fold_left col_step (seq 0 8) d).
  cbn [fold_left seq]. reflexivity.
Qed.

Lemma col_step_int16 a c p :
  length a = 64%nat -> (c < 8)%nat -> (p < 64)%nat ->
  (p mod 8 = c)%nat \/ is_int16 (get a p) ->
  is_int16 (get (col_step a c) p).
Proof.
  intros Hlen Hc Hp H. unfold col_step. rewrite get_scatter by assumption.
  destruct (Nat.eqb_spec (p mod 8) c) as [E|E].
  - apply fdct_1d_int16.
  - destruct H; [contradiction|assumption].
Qed.

Lemma fdct_cols_length d : length d = 64%nat -> length (fdct_cols d) = 64%nat.
Proof.
  intros Hlen. rewrite fdct_cols_steps.
  repeat (apply col_step_length; [|lia]). assumption.
Qed.

Lemma fdct_cols_int16 d p :
  length d = 64%nat -> (p < 64)%nat -> is_int16 (get (fdct_cols d) p).
Proof.
  intros Hlen Hp. rewrite fdct_cols_steps.
  assert (Hm : (p mod 8 < 8)%nat) by (apply Nat.mod_upper_bound; lia).
  assert (L1 := col_step_length d 0 Hlen ltac:(lia)).
  assert (L2 := col_step_length _ 1 L1 ltac:(lia)).
  assert (L3 := col_step_length _ 2 L2 ltac:(lia)).
  assert (L4 := col_step_length _ 3 L3 ltac:(lia)).
  assert (L5 := col_step_length _ 4 L4 ltac:(lia)).
  assert (L6 := col_step_length _ 5 L5 ltac:(lia)).
  assert (L7 := col_step_length _ 6 L6 ltac:(lia)).
  apply col_step_int16; [assumption|lia|assumption|].
  destruct (Nat.eq_dec (p mod 8) 7) as [|N7]; [now left|right].
  apply col_step_int16; [assumption|lia|assumption|].
  destruct (Nat.eq_dec (p mod 8) 6) as [|N6]; [now left|right].
  apply col_step_int16; [assumption|lia|assumption|].
  destruct (Nat.eq_dec (p mod 8) 5) as [|N5]; [now left|right].
  apply col_step_int16; [assumption|lia|assumption|].
  destruct (Nat.eq_dec (p mod 8) 4) as [|N4]; [now left|right].
  apply col_step_int16; [assumption|lia|assumption|].
  destruct (Nat.eq_dec (p mod 8) 3) as [|N3]; [now left|right].
  apply col_step_int16; [assumption|lia|assumption|].
  destruct (Nat.eq_dec (p mod 8) 2) as [|N2]; [now left|right].
  apply col_step_int16; [assumption|lia|assumption|].
  destruct (Nat.eq_dec (p mod 8) 1) as [|N1]; [now left|right].
  apply col_step_int16; [assumption|lia|assumption|].
  left. lia.
Qed.

Lemma quantize_ones d :
  length d = 64%nat -> (forall p, (p < 64)%nat -> is_int16 (get d p)) ->
  quantize d ones = d.
Proof.
  intros Hlen H. rewrite (tabulate_get d) at 2. rewrite Hlen.
  unfold quantize, tabulate. apply map_ext_in. intros p Hp.
  apply in_seq in Hp.
  assert (E : get ones p = 1).
  { unfold get, ones. apply nth_repeat_lt. lia. }
  rewrite E, Z.quot_1_r. apply to_int16_id. apply H. lia.
Qed.

(** X10. With the all-ones table the quantizing forward kernel computes what
    the plain forward kernel computes, on every block. *)
Theorem fdct8x8iq_ones_is_fdct8x8i (src : list Z) :
  fdct8x8iq_base src ones = Some (fdct8x8i_base src).
Proof.
  rewrite fdct8x8iq_base_some by reflexivity.
  unfold fdct8x8i_base. f_equal. apply quantize_ones.
  - apply fdct_cols_length, fdct_rows_length.
  - intros p Hp. apply fdct_cols_int16; [apply fdct_rows_length|assumption].
Qed.


(** *** The DC coefficient *)

Lemma get_fdct_1d_0 i :
  get (fdct_1d i) 0 =
    to_int16 (get i 0 + get i 7 + (get i 3 + get i 4)
              + (get i 1 + get i 6 + (get i 2 + get i 5))).
Proof. reflexivity. Qed.

Lemma get_col_step_other a c p :
  length a = 64%nat -> (c < 8)%nat -> (p < 64)%nat -> (p mod 8 <> c)%nat ->
  get (col_step a c) p = get a p.
Proof.
  intros Hlen Hc Hp Hne. unfold col_step. rewrite get_scatter by assumption.
  destruct (Nat.eqb_spec (p mod 8) c); [contradiction|reflexivity].
Qed.

Lemma get_fdct_rows src r j :
  (r < 8)%nat -> (j < 8)%nat ->
  get (fdct_rows src) (r * 8 + j) = get (fdct_1d (gather src (8 * r) 1)) j.
Proof.
  intros Hr Hj. unfold fdct_rows.
  now rewrite Sampler.get_concat_rows by (auto using fdct_1d_length).
Qed.

Lemma get_gather a off stride k :
  (k < 8)%nat -> get (gather a off stride) k = get a (off + stride * k).
Proof.
  intros Hk. unfold gather.
  do 8 (destruct k as [|k]; [reflexivity|]). lia.
Qed.

(** The first entry of the forward transform, in terms of the first
    entries of the transformed rows. *)
Lemma get_fdct_cols_0 d :
  length d = 64%nat ->
  get (fdct_cols d) 0 =
    to_int16 (get d 0 + get d 56 + (get d 24 + get d 32)
              + (get d 8 + get d 48 + (get d 16 + get d 40))).
Proof.
  intros Hlen. rewrite fdct_cols_steps.
  assert (L1 := col_step_length d 0 Hlen ltac:(lia)).
  assert (L2 := col_step_length _ 1 L1 ltac:(lia)).
  assert (L3 := col_step_length _ 2 L2 ltac:(lia)).
  assert (L4 := col_step_length _ 3 L3 ltac:(lia)).
  assert (L5 := col_step_length _ 4 L4 ltac:(lia)).
  assert (L6 := col_step_length _ 5 L5 ltac:(lia)).
  assert (L7 := col_step_length _ 6 L6 ltac:(lia)).
  rewrite !get_col_step_other by (assumption || lia || (cbn; lia)).
  unfold col_step. rewrite get_scatter by (assumption || lia).
  change (0 mod 8 =? 0)%nat with true. cbv iota.
  change (0 / 8)%nat with 0%nat.
  rewrite get_fdct_1d_0, !get_gather by lia.
  reflexivity.
Qed.

Ltac instantiate_below H n :=
  lazymatch n with
  | O => idtac
  | S ?m =>
      let Hm := fresh "Hm" in
      assert (Hm : (m < 64)%nat) by (clear; lia);
      pose proof (H m Hm); clear Hm; instantiate_below H m
  end.

(** X11. For a block of samples of magnitude at most 511 (the samples of a
    YCoCg block are), the first entry of the forward transform is the
    sum of the 64 samples: no narrowing on the way changes it. *)
Theorem fdct8x8i_dc_is_sum (src : list Z) :
  length src = 64%nat ->
  (forall p, (p < 64)%nat -> -511 <= get src p <= 511) ->
  get (fdct8x8i_base src) 0 = total src.
Proof.
  intros Hlen H. unfold fdct8x8i_base.
  rewrite get_fdct_cols_0 by apply fdct_rows_length.
  assert (R : forall r, (r < 8)%nat ->
            get (fdct_rows src) (r * 8) = get (fdct_1d (gather src (8 * r) 1)) 0).
  { intros r Hr. rewrite <- (get_fdct_rows src r 0) by lia.
    now rewrite Nat.add_0_r. }
  pose proof (R 0%nat ltac:(lia)) as R0. pose proof (R 1%nat ltac:(lia)) as R1.
  pose proof (R 2%nat ltac:(lia)) as R2. pose proof (R 3%nat ltac:(lia)) as R3.
  pose proof (R 4%nat ltac:(lia)) as R4. pose proof (R 5%nat ltac:(lia)) as R5.
  pose proof (R 6%nat ltac:(lia)) as R6. pose proof (R 7%nat ltac:(lia)) as R7.
  cbn [Nat.mul Nat.add] in R0, R1, R2, R3, R4, R5, R6, R7.
  rewrite R0, R1, R2, R3, R4, R5, R6, R7. clear R R0 R1 R2 R3 R4 R5 R6 R7.
  rewrite !get_fdct_1d_0, !get_gather by lia.
  cbn [Nat.mul Nat.add].
  unfold total. rewrite (tabulate_get src) at 65. rewrite Hlen.
  unfold tabulate. cbn [seq map fold_right].
  instantiate_below H 64%nat.
  repeat match goal with
         | |- context [to_int16 ?x] =>
             rewrite (to_int16_id x) by (unfold is_int16; lia)
         end.
  lia.
Qed.

Lemma fdct8x8i_dc_is_sum_witness :
  get (fdct8x8i_base (tabulate 64 (fun p => Z.of_nat p - 30))) 0 =
    total (tabulate 64 (fun p => Z.of_nat p - 30)).
Proof.
  apply (fdct8x8i_dc_is_sum (tabulate 64 (fun p => Z.of_nat p - 30))).
  - reflexivity.
  - intros p Hp. rewrite get_tabulate by assumption. lia.
Defined.

(** *** Flat blocks *)

Definition flat_forward (v : Z) : bool :=
  eqb (fdct8x8i_base (repeat v 64)) (dc_only (64 * v)).

Lemma flat_forward_all : forallb flat_forward (zrange (-511) 1023) = true.
Proof. vm_compute. reflexivity. Qed.

Lemma flat_forward_sound v :
  flat_forward v = true -> fdct8x8i_base (repeat v 64) = dc_only (64 * v).
Proof. unfold flat_forward. intros H. now apply eqb_eq in H. Qed.

(** The forward transform of a flat block has the DC term only. *)
Lemma fdct8x8i_flat v :
  -511 <= v <= 511 -> fdct8x8i_base (repeat v 64) = dc_only (64 * v).
Proof.
  intros Hv. apply flat_forward_sound.
  apply (proj1 (forallb_forall flat_forward (zrange (-511) 1023))
               flat_forward_all v).
  apply in_zrange. lia.
Qed.

Lemma quantize_dc_only x quant :
  quantize (dc_only x) quant = dc_only (to_int16 (Z.quot x (get quant 0))).
Proof.
  unfold quantize, tabulate, dc_only.
  cbn [seq map repeat get nth Z.quot Z.quotrem fst].
  change (to_int16 0) with 0. reflexivity.
Qed.

Lemma idct_1d_dc y : idct_1d [y; 0; 0; 0; 0; 0; 0; 0] = repeat y 8.
Proof.
  unfold idct_1d. cbn [get nth repeat].
  change (asr 0 2) with 0. change (asr 0 1) with 0.
  change (asr (0 + (0 + 0)) 2) with 0. change (asr (0 + (0 + 0)) 4) with 0.
  change (asr (0 - (0 + 0)) 2) with 0. change (asr (0 - (0 + 0)) 4) with 0.
  change (asr (0 + (0 - 0)) 2) with 0. change (asr (0 + (0 - 0)) 4) with 0.
  change (asr (0 - (0 - 0)) 2) with 0. change (asr (0 - (0 - 0)) 4) with 0.
  repeat (f_equal; try lia).
Qed.

Lemma idct_1d_zero : idct_1d (repeat 0 8) = repeat 0 8.
Proof. reflexivity. Qed.

(** The workspace with [y] down its first column and 0 elsewhere. *)
Definition first_column (y : Z) : list Z :=
  tabulate 64 (fun p => if (p mod 8 =? 0)%nat then y else 0).

Lemma scatter_first_column y :
  scatter (scatter (scatter (scatter (scatter (scatter (scatter (scatter
    (repeat 0 64) 0 8 (repeat y 8)) 1 8 (repeat 0 8)) 2 8 (repeat 0 8))
    3 8 (repeat 0 8)) 4 8 (repeat 0 8)) 5 8 (repeat 0 8)) 6 8 (repeat 0 8))
    7 8 (repeat 0 8) = first_column y.
Proof. vm_compute. reflexivity. Qed.

Lemma dc_column_0 x (q : nat -> Z) :
  map (fun k => get (dc_only x) (0 + 8 * k) * q k) (seq 0 8) =
    [x * q 0%nat; 0; 0; 0; 0; 0; 0; 0].
Proof.
  unfold dc_only. cbn [map seq get nth repeat Nat.add Nat.mul Z.mul].
  reflexivity.
Qed.

Lemma dc_column_other x (q : nat -> Z) c :
  (1 <= c < 8)%nat ->
  map (fun k => get (dc_only x) (c + 8 * k) * q k) (seq 0 8) = repeat 0 8.
Proof.
  intros Hc. unfold dc_only.
  destruct c as [|c]; [lia|].
  do 7 (destruct c as [|c];
        [cbn [map seq get nth repeat Nat.add Nat.mul Z.mul]; reflexivity|]).
  lia.
Qed.

Lemma idct_cols_dc_only x quant :
  idct_cols (dc_only x) quant = first_column (x * get quant 0).
Proof.
  change (idct_cols (dc_only x) quant) with
    (fold_left (fun wsp c =>
       scatter wsp c 8 (idct_1d
         (map (fun k => get (dc_only x) (c + 8 * k) * get quant (8 * k))
              (seq 0 8))))
       [0; 1; 2; 3; 4; 5; 6; 7]%nat (repeat 0 64)).
  cbn [fold_left].
  rewrite (dc_column_0 x (fun k => get quant (8 * k))).
  rewrite !(dc_column_other x (fun k => get quant (8 * k))) by lia.
  rewrite idct_1d_dc, !idct_1d_zero.
  apply scatter_first_column.
Qed.

Lemma idct_cols_plain_dc_only x :
  idct_cols_plain (dc_only x) = first_column x.
Proof.
  unfold idct_cols_plain. cbn [fold_left seq].
  change (gather (dc_only x) 0 8) with [x; 0; 0; 0; 0; 0; 0; 0].
  change (gather (dc_only x) 1 8) with (repeat 0 8).
  change (gather (dc_only x) 2 8) with (repeat 0 8).
  change (gather (dc_only x) 3 8) with (repeat 0 8).
  change (gather (dc_only x) 4 8) with (repeat 0 8).
  change (gather (dc_only x) 5 8) with (repeat 0 8).
  change (gather (dc_only x) 6 8) with (repeat 0 8).
  change (gather (dc_only x) 7 8) with (repeat 0 8).
  rewrite idct_1d_dc, !idct_1d_zero.
  apply scatter_first_column.
Qed.

Lemma gather_first_column y r :
  (r < 8)%nat -> gather (first_column y) (8 * r) 1 = [y; 0; 0; 0; 0; 0; 0; 0].
Proof.
  intros Hr. do 8 (destruct r as [|r]; [reflexivity|]). lia.
Qed.

Lemma rows_of_first_column (h : Z -> Z) y :
  concat (map (fun r => map h (idct_1d (gather (first_column y) (8 * r) 1)))
              (seq 0 8)) = repeat (h y) 64.
Proof.
  transitivity (concat (map (fun _ : nat => repeat (h y) 8) (seq 0 8)));
    [|reflexivity].
  f_equal. apply map_ext_in. intros r Hr. apply in_seq in Hr.
  rewrite gather_first_column by lia. now rewrite idct_1d_dc.
Qed.

(** A block with the DC coefficient only decodes to a flat block. *)
Lemma idct8x8id_dc_only x quant :
  idct8x8id_base (dc_only x) quant =
    repeat (to_int16 (asr (x * get quant 0) 6)) 64.
Proof.
  unfold idct8x8id_base. rewrite idct_cols_dc_only. unfold idct_rows.
  apply (rows_of_first_column (fun v => to_int16 (asr v 6))).
Qed.

Lemma idct8x8i_dc_only x :
  idct8x8i_base (dc_only x) = repeat (to_int16 x) 64.
Proof.
  unfold idct8x8i_base. rewrite idct_cols_plain_dc_only. unfold idct_rows_plain.
  apply (rows_of_first_column to_int16).
Qed.

(** What a flat block comes back as from [fdct8x8iq] and [idct8x8id]
    with one table. *)
Definition flat_result (v q0 : Z) : Z :=
  to_int16 (asr (to_int16 (Z.quot (64 * v) q0) * q0) 6).

Lemma roundtrip_flat v quant :
  has_zero quant = false -> -511 <= v <= 511 ->
  roundtrip (repeat v 64) quant = Some (repeat (flat_result v (get quant 0)) 64).
Proof.
  intros Hz Hv. unfold roundtrip. rewrite fdct8x8iq_base_some by assumption.
  rewrite <- fdct8x8i_base_unfold, fdct8x8i_flat by assumption.
  now rewrite quantize_dc_only, idct8x8id_dc_only.
Qed.

Lemma flat_result_bounds v q0 :
  1 <= q0 <= 255 -> -511 <= v <= 511 ->
  v - 4 <= flat_result v q0 <= v + 3 /\
  ((64 * v) mod q0 = 0 -> flat_result v q0 = v).
Proof.
  intros Hq Hv. unfold flat_result.
  pose proof (Z.quot_rem' (64 * v) q0) as E.
  assert (Hr : -q0 < Z.rem (64 * v) q0 < q0).
  { destruct (Z_le_gt_dec 0 (64 * v)).
    - pose proof (Z.rem_bound_pos (64 * v) q0 ltac:(lia) ltac:(lia)). lia.
    - pose proof (Z.rem_bound_pos_neg (64 * v) q0 ltac:(lia) ltac:(lia)). lia. }
  set (t := Z.quot (64 * v) q0) in *.
  assert (Ht : -32704 <= t <= 32704) by nia.
  rewrite (to_int16_id t) by (unfold is_int16; lia).
  rewrite asr_div by lia. change (2 ^ 6) with 64.
  assert (Hb : v - 4 <= t * q0 / 64 <= v + 3).
  { split.
    - apply Z.div_le_lower_bound; lia.
    - apply Z.lt_succ_r. apply Z.div_lt_upper_bound; lia. }
  rewrite to_int16_id by (unfold is_int16; lia).
  split; [exact Hb|].
  intros Hm.
  assert (Z.rem (64 * v) q0 = 0).
  { apply Z.rem_divide; [lia|]. apply Z.mod_divide; [lia|assumption]. }
  replace (t * q0) with (v * 64) by lia.
  apply Z.div_mul. lia.
Qed.

(** X12. The quantizing forward kernel turns a flat block of value [v] (of
    magnitude at most 511) into a block with the DC coefficient only:
    [64 v] divided by the first table entry, toward zero.  Every other
    coefficient is 0, whatever the table. *)
Theorem fdct8x8iq_of_flat_block (v : Z) (quant : list Z) :
  has_zero quant = false -> -511 <= v <= 511 ->
  fdct8x8iq_base (repeat v 64) quant =
    Some (dc_only (Z.quot (64 * v) (get quant 0))).
Proof.
  intros Hz Hv. rewrite fdct8x8iq_base_some by assumption.
  rewrite <- fdct8x8i_base_unfold, fdct8x8i_flat by assumption.
  rewrite quantize_dc_only. do 2 f_equal.
  apply to_int16_id.
  assert (Hq : get quant 0 <> 0).
  { apply (proj1 (has_zero_false quant) Hz 0%nat). lia. }
  pose proof (Z.quot_rem' (64 * v) (get quant 0)) as E.
  unfold is_int16.
  destruct (Z_le_gt_dec 0 (64 * v)); destruct (Z_lt_le_dec 0 (get quant 0)).
  - pose proof (Z.rem_bound_pos (64 * v) (get quant 0) ltac:(lia) ltac:(lia)). nia.
  - pose proof (Z.rem_bound_neg_pos (64 * v) (get quant 0) ltac:(lia) ltac:(lia)). nia.
  - pose proof (Z.rem_bound_pos_neg (64 * v) (get quant 0) ltac:(lia) ltac:(lia)). nia.
  - pose proof (Z.rem_bound_neg_neg (64 * v) (get quant 0) ltac:(lia) ltac:(lia)). nia.
Qed.

Lemma fdct8x8iq_of_flat_block_witness :
  fdct8x8iq_base (repeat (-77) 64) (Quant.quantization_table_chroma 30) =
    Some (dc_only (Z.quot (64 * -77) (get (Quant.quantization_table_chroma 30) 0))).
Proof.
  apply (fdct8x8iq_of_flat_block (-77) (Quant.quantization_table_chroma 30)).
  - vm_compute. reflexivity.
  - lia.
Defined.

(** X13. Both inverse kernels turn a block with the DC coefficient [x] only
    into a flat block: [idct8x8id_base] into the value
    [(x * quant[0]) >> 6], [idct8x8i_base] into [x] itself, each
    narrowed to [int16_t]. *)
Theorem inverse_of_dc_only_is_flat (x : Z) (quant : list Z) :
  idct8x8id_base (dc_only x) quant =
    repeat (to_int16 (asr (x * get quant 0) 6)) 64 /\
  idct8x8i_base (dc_only x) = repeat (to_int16 x) 64.
Proof.
  split.
  - apply idct8x8id_dc_only.
  - apply idct8x8i_dc_only.
Qed.

(** X14. A flat block of value [v] (of magnitude at most 511) goes through
    [fdct8x8iq] and [idct8x8id] with any table whose first entry lies in
    [1,255] and comes back flat, at a value between [v - 4] and [v + 3];
    it comes back exactly when the first table entry divides [64 v]. *)
Theorem roundtrip_flat_block (v : Z) (quant : list Z) :
  has_zero quant = false -> 1 <= get quant 0 <= 255 -> -511 <= v <= 511 ->
  exists w,
    roundtrip (repeat v 64) quant = Some (repeat w 64) /\
    v - 4 <= w <= v + 3 /\
    ((64 * v) mod get quant 0 = 0 -> w = v).
Proof.
  intros Hz Hq Hv. exists (flat_result v (get quant 0)).
  split; [now apply roundtrip_flat|].
  now apply flat_result_bounds.
Qed.

Lemma roundtrip_flat_block_witness :
  exists w,
    roundtrip (repeat 100 64) (Quant.quantization_table_luma 50)
      = Some (repeat w 64) /\
    100 - 4 <= w <= 100 + 3 /\
    ((64 * 100) mod get (Quant.quantization_table_luma 50) 0 = 0 -> w = 100).
Proof.
  apply (roundtrip_flat_block 100 (Quant.quantization_table_luma 50)).
  - vm_compute. reflexivity.
  - vm_compute. split; discriminate.
  - lia.
Defined.

(** X15. The plain kernels, which neither quantize nor descale, return a flat
    block multiplied by 64. *)
Theorem plain_kernels_scale_flat_block (v : Z) :
  -511 <= v <= 511 ->
  idct8x8i_base (fdct8x8i_base (repeat v 64)) = repeat (64 * v) 64.
Proof.
  intros Hv. rewrite fdct8x8i_flat by assumption.
  rewrite idct8x8i_dc_only.
  now rewrite to_int16_id by (unfold is_int16; lia).
Qed.

Lemma plain_kernels_scale_flat_block_witness :
  idct8x8i_base (fdct8x8i_base (repeat (-3) 64)) = repeat (64 * -3) 64.
Proof.
  apply (plain_kernels_scale_flat_block (-3)). lia.
Defined.

(** *** The table of the inverse kernel *)

Lemma fold_left_ext {A B} (f g : A -> B -> A) l :
  (forall a x, In x l -> f a x = g a x) ->
  forall a, fold_left f l a = fold_left g l a.
Proof.
  induction l as [|x l IH]; intros H a; [reflexivity|].
  cbn [fold_left]. rewrite H by now left.
  apply IH. intros a' x' Hx. apply H. now right.
Qed.

(** X16. [idct8x8id_base] reads its table in the first column only: the
    coefficient at row [k] of every column is multiplied by entry
    [8 k] of the table, so two tables that agree on these eight entries
    decode every block alike. *)
Theorem idct8x8id_reads_first_table_column (src q1 q2 : list Z) :
  (forall k, (k < 8)%nat -> get q1 (8 * k) = get q2 (8 * k)) ->
  idct8x8id_base src q1 = idct8x8id_base src q2.
Proof.
  intros H. unfold idct8x8id_base, idct_cols. f_equal.
  apply fold_left_ext. intros wsp c _. cbv zeta. do 2 f_equal.
  apply map_ext_in. intros k Hk. apply in_seq in Hk.
  now rewrite H by lia.
Qed.

Lemma idct8x8id_reads_first_table_column_witness :
  idct8x8id_base impulse (Quant.quantization_table_luma 50) =
  idct8x8id_base impulse
    (tabulate 64 (fun p => get (Quant.quantization_table_luma 50) (8 * (p / 8)))).
Proof.
  apply (idct8x8id_reads_first_table_column impulse
           (Quant.quantization_table_luma 50)
           (tabulate 64 (fun p => get (Quant.quantization_table_luma 50) (8 * (p / 8))))).
  intros k Hk. do 8 (destruct k as [|k]; [reflexivity|]). lia.
Defined.

End Kernels.

(** ** The 16x16 decoders *)

Module Decoder.
Import Int Arr Color Sampler Dct Codec.

(** The luma half of both decoders: the four blocks of [Y] are
    dequantized and inverse transformed into [Yd] at offsets 0, 64, 128
    and 192, and [merge_blocks] writes every entry of [Ym]. *)
Definition decode_luma (Y Qluma : list Z) : list Z :=
  let Yd := idct8x8id_base (load_block Y 0) Qluma
            ++ idct8x8id_base (load_block Y 64) Qluma
            ++ idct8x8id_base (load_block Y 128) Qluma
            ++ idct8x8id_base (load_block Y 192) Qluma in
  merge_blocks (repeat 0 256) Yd.

(** One chroma channel: the 8x8 block is dequantized and inverse
    transformed, and [scale_block] writes every entry of the 16x16
    result. *)
Definition decode_chroma (C Qchroma : list Z) : list Z :=
  scale_block (repeat 0 256) (idct8x8id_base C Qchroma).

(** The three bytes stored for pixel [i] by the final loop. *)
Definition decode_pixel (Ym Os Gs : list Z) (i : nat) : list Z :=
  let '(r, g, b) := ycocg_to_rgb (get Ym i) (get Os i) (get Gs i) in
  [clamp r; clamp g; clamp b].

Definition decode16x16i_rgb (Y Co Cg Qluma Qchroma : list Z) : list Z :=
  let Ym := decode_luma Y Qluma in
  let Os := decode_chroma Co Qchroma in
  let Gs := decode_chroma Cg Qchroma in
  concat (map (fun i => decode_pixel Ym Os Gs i) (seq 0 256)).

Definition decode16x16i_rgba (Y Co Cg A Qluma Qchroma : list Z) : list Z :=
  let Ym := decode_luma Y Qluma in
  let Os := decode_chroma Co Qchroma in
  let Gs := decode_chroma Cg Qchroma in
  concat (map (fun i => decode_pixel Ym Os Gs i ++ [get A i]) (seq 0 256)).

(** A 16x16 block of one colour, with the alpha values of [alpha]. *)
Definition flat_rgba (r g b : Z) (alpha : list Z) : list Z :=
  concat (map (fun i => [r; g; b; get alpha i]) (seq 0 256)).

Lemma clamp_is_byte v : is_byte (clamp v).
Proof.
  unfold is_byte, clamp.
  destruct (Z.ltb_spec v 0); [lia|].
  destruct (v >? 255) eqn:E; [lia|].
  rewrite Z.gtb_ltb in E. apply Z.ltb_ge in E. lia.
Qed.

Lemma decode_pixel_length Ym Os Gs i : length (decode_pixel Ym Os Gs i) = 3%nat.
Proof.
  unfold decode_pixel. now destruct (ycocg_to_rgb _ _ _) as [[r g] b].
Qed.

Lemma decode_pixel_is_byte Ym Os Gs i c :
  (c < 3)%nat -> is_byte (get (decode_pixel Ym Os Gs i) c).
Proof.
  intros Hc. unfold decode_pixel.
  destruct (ycocg_to_rgb _ _ _) as [[r g] b].
  destruct c as [|[|[|c]]]; try lia; cbn [get nth]; apply clamp_is_byte.
Qed.

Lemma get_app_l (a b : list Z) i : (i < length a)%nat -> get (a ++ b) i = get a i.
Proof. intros H. unfold get. now apply app_nth1. Qed.

Lemma get_app_r (a b : list Z) i :
  (length a <= i)%nat -> get (a ++ b) i = get b (i - length a).
Proof. intros H. unfold get. now apply app_nth2. Qed.

Lemma get_decode16x16i_rgba Y Co Cg A Ql Qc i c :
  (i < 256)%nat -> (c < 4)%nat ->
  get (decode16x16i_rgba Y Co Cg A Ql Qc) (i * 4 + c) =
    get (decode_pixel (decode_luma Y Ql) (decode_chroma Co Qc)
                      (decode_chroma Cg Qc) i ++ [get A i]) c.
Proof.
  intros Hi Hc. unfold decode16x16i_rgba. cbv zeta.
  rewrite (Blocks.get_concat_chunks _ 4 256) by
    (try lia; intros k; rewrite length_app, decode_pixel_length; reflexivity).
  reflexivity.
Qed.

Lemma get_decode16x16i_rgb Y Co Cg Ql Qc i c :
  (i < 256)%nat -> (c < 3)%nat ->
  get (decode16x16i_rgb Y Co Cg Ql Qc) (i * 3 + c) =
    get (decode_pixel (decode_luma Y Ql) (decode_chroma Co Qc)
                      (decode_chroma Cg Qc) i) c.
Proof.
  intros Hi Hc. unfold decode16x16i_rgb. cbv zeta.
  rewrite (Blocks.get_concat_chunks _ 3 256) by
    (try lia; intros k; apply decode_pixel_length).
  reflexivity.
Qed.

(** X17. Whatever coefficients and tables it is given, [decode16x16i_rgba]
    writes 1024 values; the three colour values of every pixel lie in
    [0,255], and the fourth is the pixel's entry of [A], unchanged. *)
Theorem decode16x16i_rgba_bytes_and_alpha
  (Y Co Cg A Qluma Qchroma : list Z) (i : nat) :
  (i < 256)%nat ->
  let RGBA := decode16x16i_rgba Y Co Cg A Qluma Qchroma in
  length RGBA = 1024%nat /\
  is_byte (get RGBA (i * 4 + 0)) /\ is_byte (get RGBA (i * 4 + 1)) /\
  is_byte (get RGBA (i * 4 + 2)) /\ get RGBA (i * 4 + 3) = get A i.
Proof.
  intros Hi RGBA. subst RGBA. split.
  - unfold decode16x16i_rgba. cbv zeta.
    rewrite (Blocks.length_concat_chunks _ 4 256); [reflexivity|].
    intros k. rewrite length_app, decode_pixel_length. reflexivity.
  - rewrite !get_decode16x16i_rgba by lia.
    rewrite !get_app_l by (rewrite decode_pixel_length; lia).
    rewrite get_app_r by (rewrite decode_pixel_length; lia).
    rewrite decode_pixel_length.
    repeat split; try (apply decode_pixel_is_byte; lia).
Qed.

Lemma decode16x16i_rgba_bytes_and_alpha_witness :
  let RGBA := decode16x16i_rgba (repeat 900 256) (repeat (-700) 64) (repeat 3 64)
                (repeat 77 256) ones ones in
  length RGBA = 1024%nat /\
  is_byte (get RGBA (200 * 4 + 0)) /\ is_byte (get RGBA (200 * 4 + 1)) /\
  is_byte (get RGBA (200 * 4 + 2)) /\ get RGBA (200 * 4 + 3) = get (repeat 77 256) 200.
Proof.
  apply (decode16x16i_rgba_bytes_and_alpha (repeat 900 256) (repeat (-700) 64)
           (repeat 3 64) (repeat 77 256) ones ones 200).
  lia.
Defined.

(** X18. [decode16x16i_rgb] writes 768 values: the colour values that
    [decode16x16i_rgba] writes for the same coefficients and tables,
    without the alpha values. *)
Theorem decode16x16i_rgb_is_rgba_without_alpha
  (Y Co Cg A Qluma Qchroma : list Z) (i c : nat) :
  (i < 256)%nat -> (c < 3)%nat ->
  length (decode16x16i_rgb Y Co Cg Qluma Qchroma) = 768%nat /\
  get (decode16x16i_rgb Y Co Cg Qluma Qchroma) (i * 3 + c) =
    get (decode16x16i_rgba Y Co Cg A Qluma Qchroma) (i * 4 + c).
Proof.
  intros Hi Hc. split.
  - unfold decode16x16i_rgb. cbv zeta.
    rewrite (Blocks.length_concat_chunks _ 3 256); [reflexivity|].
    intros k. apply decode_pixel_length.
  - rewrite get_decode16x16i_rgb, get_decode16x16i_rgba by lia.
    now rewrite get_app_l by (rewrite decode_pixel_length; lia).
Qed.

Lemma decode16x16i_rgb_is_rgba_without_alpha_witness :
  length (decode16x16i_rgb (repeat 900 256) (repeat (-700) 64) (repeat 3 64)
            ones ones) = 768%nat /\
  get (decode16x16i_rgb (repeat 900 256) (repeat (-700) 64) (repeat 3 64)
         ones ones) (31 * 3 + 2) =
    get (decode16x16i_rgba (repeat 900 256) (repeat (-700) 64) (repeat 3 64)
           (repeat 77 256) ones ones) (31 * 4 + 2).
Proof.
  apply (decode16x16i_rgb_is_rgba_without_alpha (repeat 900 256)
           (repeat (-700) 64) (repeat 3 64) (repeat 77 256) ones ones 31 2).
  - lia.
  - lia.
Defined.

(** *** Encoding and decoding together *)

Lemma encode16x16i_some Y0 Qluma Qchroma RGBA :
  has_zero Qluma = false -> has_zero Qchroma = false ->
  let YCoCg := fst (rgba_to_ycocga RGBA) in
  encode16x16i Y0 Qluma Qchroma RGBA =
    Some (fold_left (fun Y s => store_block Y (fst s) (snd s))
            [(0, luma_block YCoCg Qluma 0 0); (64, luma_block YCoCg Qluma 1 0);
             (128, luma_block YCoCg Qluma 0 1); (192, luma_block YCoCg Qluma 1 1)]%nat
            Y0,
          quantize (fdct_cols (fdct_rows (subsample YCoCg 1))) Qchroma,
          quantize (fdct_cols (fdct_rows (subsample YCoCg 2))) Qchroma,
          snd (rgba_to_ycocga RGBA)).
Proof.
  intros Hl Hc YCoCg. subst YCoCg. unfold encode16x16i.
  destruct (rgba_to_ycocga RGBA) as [YCoCg A]. cbn [fst snd].
  unfold encode_luma. rewrite !fdct8x8iq_base_some by assumption.
  reflexivity.
Qed.

Lemma get_alpha_loop n : forall rgba i,
  length rgba = (4 * n)%nat -> (i < n)%nat ->
  get (snd (rgba_to_ycocga_loop n rgba)) i = get rgba (i * 4 + 3).
Proof.
  induction n as [|n IH]; intros rgba i Hlen Hi; [lia|].
  destruct rgba as [|r [|g [|b [|a rest]]]]; simpl in Hlen; try lia.
  cbn [rgba_to_ycocga_loop].
  destruct (rgb_to_ycocg r g b) as [[Y Co] Cg].
  specialize (IH rest).
  destruct (rgba_to_ycocga_loop n rest) as [yc al]. cbn [snd] in *.
  destruct i as [|i]; [reflexivity|].
  replace (S i * 4 + 3)%nat with (S (S (S (S (i * 4 + 3))))) by lia.
  unfold get in *. cbn [nth]. apply IH; lia.
Qed.

(** X19. The alpha channel goes through the codec untouched: for every block
    of 256 pixels, tables without a zero entry for [encode16x16i] and any
    tables at all for [decode16x16i_rgba], the decoded alpha of every
    pixel is the alpha that was encoded. *)
Theorem alpha_survives_encode_decode
  (Y0 RGBA Qluma Qchroma Qluma' Qchroma' : list Z) :
  length RGBA = 1024%nat ->
  has_zero Qluma = false -> has_zero Qchroma = false ->
  exists Y Co Cg A,
    encode16x16i Y0 Qluma Qchroma RGBA = Some (Y, Co, Cg, A) /\
    forall i, (i < 256)%nat ->
      get (decode16x16i_rgba Y Co Cg A Qluma' Qchroma') (i * 4 + 3) =
        get RGBA (i * 4 + 3).
Proof.
  intros Hlen Hl Hc.
  do 4 eexists. split; [now apply encode16x16i_some|].
  intros i Hi. rewrite get_decode16x16i_rgba by lia.
  rewrite get_app_r by (rewrite decode_pixel_length; lia).
  rewrite decode_pixel_length. cbn [Nat.sub get nth].
  apply (get_alpha_loop 256 RGBA i Hlen Hi).
Qed.

Lemma alpha_survives_encode_decode_witness :
  exists Y Co Cg A,
    encode16x16i (repeat 0 256) (Quant.quantization_table_luma 10)
      (Quant.quantization_table_chroma 10) (generate_rgba 0 256)
      = Some (Y, Co, Cg, A) /\
    forall i, (i < 256)%nat ->
      get (decode16x16i_rgba Y Co Cg A ones ones) (i * 4 + 3) =
        get (generate_rgba 0 256) (i * 4 + 3).
Proof.
  apply (alpha_survives_encode_decode (repeat 0 256) (generate_rgba 0 256)
           (Quant.quantization_table_luma 10)
           (Quant.quantization_table_chroma 10) ones ones).
  - reflexivity.
  - vm_compute. reflexivity.
  - vm_compute. reflexivity.
Defined.

(** X20. With tables made by [qtables_encode] the divisions of the encoder
    are all defined: [encode16x16i] returns for every quality and every
    block of 256 pixels, and the luma output keeps its 256 entries. *)
Theorem encode16x16i_defined_for_every_quality (quality : Z) (Y0 RGBA : list Z) :
  length RGBA = 1024%nat -> length Y0 = 256%nat ->
  exists Y Co Cg A,
    encode16x16i Y0 (fst (IntTables.qtables_encode quality))
                 (snd (IntTables.qtables_encode quality)) RGBA
      = Some (Y, Co, Cg, A) /\
    length Y = 256%nat /\ length Co = 64%nat /\ length Cg = 64%nat /\
    length A = 256%nat.
Proof.
  intros HR HY. rewrite IntTables.qtables_encode_eq. cbn [fst snd].
  do 4 eexists. split.
  - apply encode16x16i_some; apply IntTables.quantization_table_has_no_zero.
  - split; [|split; [|split]].
    + cbn [fold_left fst snd]. now rewrite !store_block_length.
    + apply tabulate_length.
    + apply tabulate_length.
    + apply (rgba_to_ycocga_loop_length 256 RGBA HR).
Qed.

Lemma encode16x16i_defined_for_every_quality_witness :
  exists Y Co Cg A,
    encode16x16i (repeat 0 256) (fst (IntTables.qtables_encode 37))
                 (snd (IntTables.qtables_encode 37)) (generate_rgba 0 256)
      = Some (Y, Co, Cg, A) /\
    length Y = 256%nat /\ length Co = 64%nat /\ length Cg = 64%nat /\
    length A = 256%nat.
Proof.
  apply (encode16x16i_defined_for_every_quality 37 (repeat 0 256)
           (generate_rgba 0 256)).
  - reflexivity.
  - reflexivity.
Defined.

(** *** Blocks of one colour *)

Definition flat_ycocg (y co cg : Z) : list Z :=
  concat (map (fun _ : nat => [y; co; cg]) (seq 0 256)).

Lemma rgba_to_ycocga_loop_flat r g b alpha n : forall s,
  rgba_to_ycocga_loop n
    (concat (map (fun i => [r; g; b; get alpha i]) (seq s n))) =
  (let '(y, co, cg) := rgb_to_ycocg r g b in
   concat (map (fun _ : nat => [y; co; cg]) (seq s n)),
   map (get alpha) (seq s n)).
Proof.
  induction n as [|n IH]; intros s.
  - cbn. now destruct (rgb_to_ycocg r g b) as [[y co] cg].
  - cbn [seq map concat app rgba_to_ycocga_loop].
    rewrite IH. destruct (rgb_to_ycocg r g b) as [[y co] cg]. reflexivity.
Qed.

Lemma rgba_to_ycocga_flat r g b alpha :
  length alpha = 256%nat ->
  rgba_to_ycocga (flat_rgba r g b alpha) =
    (let '(y, co, cg) := rgb_to_ycocg r g b in flat_ycocg y co cg, alpha).
Proof.
  intros Hlen. unfold rgba_to_ycocga, flat_rgba.
  rewrite rgba_to_ycocga_loop_flat. f_equal.
  rewrite (tabulate_get alpha) at 2. now rewrite Hlen.
Qed.

Lemma subblock_flat y co cg qx qy :
  (qx < 2)%nat -> (qy < 2)%nat ->
  subblock (flat_ycocg y co cg) qx qy 0 = repeat y 64.
Proof.
  intros Hx Hy.
  destruct qx as [|[|qx]]; destruct qy as [|[|qy]]; try lia;
    vm_compute; reflexivity.
Qed.

Lemma get_flat_ycocg y co cg p c :
  (p < 256)%nat -> (c < 3)%nat ->
  get (flat_ycocg y co cg) (p * 3 + c) = get [y; co; cg] c.
Proof.
  intros Hp Hc. unfold flat_ycocg.
  now rewrite (Blocks.get_concat_chunks _ 3 256) by (auto; lia).
Qed.

Lemma list_eq_get (a b : list Z) :
  length a = length b ->
  (forall k, (k < length a)%nat -> get a k = get b k) -> a = b.
Proof.
  intros Hlen H. apply (nth_ext a b 0 0); [assumption|]. intros k Hk.
  now apply H.
Qed.

Lemma subsample_flat YCoCg channel v :
  is_int16 v ->
  (forall p, (p < 256)%nat -> get YCoCg (p * 3 + channel) = v) ->
  subsample YCoCg channel = repeat v 64.
Proof.
  intros Hv H. apply list_eq_get.
  - unfold subsample. rewrite length_concat, map_map. reflexivity.
  - intros k Hk.
    assert (Hl : length (subsample YCoCg channel) = 64%nat)
      by (unfold subsample; rewrite length_concat, map_map; reflexivity).
    rewrite Hl in Hk.
    assert (E : get (repeat v 64) k = v) by (unfold get; now apply nth_repeat_lt).
    rewrite E.
    pose proof (Nat.div_mod_eq k 8) as Hk8.
    pose proof (Nat.mod_upper_bound k 8 ltac:(lia)) as Hm.
    replace k with (k / 8 * 8 + k mod 8)%nat by lia.
    pose proof (Blocks.get_subsample_within YCoCg channel (k / 8) (k mod 8) v v
                  Hv Hv) as B.
    assert (k / 8 < 8)%nat by (apply Nat.Div0.div_lt_upper_bound; lia).
    specialize (B ltac:(intros p Hp; rewrite H by assumption; lia)
                  ltac:(lia) ltac:(lia)).
    lia.
Qed.

Lemma fdct8x8iq_flat v quant :
  has_zero quant = false -> -511 <= v <= 511 ->
  quantize (fdct_cols (fdct_rows (repeat v 64))) quant =
    Kernels.dc_only (to_int16 (Z.quot (64 * v) (get quant 0))).
Proof.
  intros Hz Hv.
  rewrite <- Kernels.fdct8x8i_base_unfold, Kernels.fdct8x8i_flat by assumption.
  apply Kernels.quantize_dc_only.
Qed.

Lemma flat_coefficient v :
  -511 <= v <= 511 -> to_int16 (Z.quot (64 * v) (get ones 0)) = 64 * v.
Proof.
  intros Hv. change (get ones 0) with 1. rewrite Z.quot_1_r.
  apply to_int16_id. unfold is_int16. lia.
Qed.

Lemma idct_flat_coefficient v :
  -511 <= v <= 511 ->
  idct8x8id_base (Kernels.dc_only (64 * v)) ones = repeat v 64.
Proof.
  intros Hv. rewrite Kernels.idct8x8id_dc_only.
  change (get ones 0) with 1. rewrite Z.mul_1_r.
  rewrite asr_div by lia. change (2 ^ 6) with 64.
  rewrite Z.mul_comm, Z.div_mul by lia.
  now rewrite to_int16_id by (unfold is_int16; lia).
Qed.

Lemma load_stored_blocks (Y0 b : list Z) off :
  length Y0 = 256%nat -> length b = 64%nat ->
  In off [0; 64; 128; 192]%nat ->
  load_block (fold_left (fun Y s => store_block Y (fst s) (snd s))
                [(0, b); (64, b); (128, b); (192, b)]%nat Y0) off = b.
Proof.
  intros HY Hb Hoff.
  assert (Eb : b = tabulate 64 (get b)) by (rewrite <- Hb; apply tabulate_get).
  pose proof (store_four_blocks Y0 (get b) (get b) (get b) (get b) HY) as H.
  cbv zeta in H. rewrite <- Eb in H.
  destruct H as [H0 [H1 [H2 H3]]].
  cbn [In] in Hoff.
  destruct Hoff as [<-|[<-|[<-|[<-|[]]]]]; assumption.
Qed.

Lemma merge_flat v :
  merge_blocks (repeat 0 256)
    (repeat v 64 ++ repeat v 64 ++ repeat v 64 ++ repeat v 64) = repeat v 256.
Proof. vm_compute. reflexivity. Qed.

Lemma scale_flat v : scale_block (repeat 0 256) (repeat v 64) = repeat v 256.
Proof. vm_compute. reflexivity. Qed.

Lemma decode_luma_flat Y0 v :
  length Y0 = 256%nat -> -511 <= v <= 511 ->
  let b := Kernels.dc_only (64 * v) in
  decode_luma (fold_left (fun Y s => store_block Y (fst s) (snd s))
                 [(0, b); (64, b); (128, b); (192, b)]%nat Y0) ones =
    repeat v 256.
Proof.
  intros HY Hv b. unfold decode_luma. cbv zeta.
  rewrite !(load_stored_blocks Y0 b) by (assumption || reflexivity || (cbn; tauto)).
  subst b. rewrite idct_flat_coefficient by assumption.
  apply merge_flat.
Qed.

Lemma decode_chroma_flat v :
  -511 <= v <= 511 ->
  decode_chroma (Kernels.dc_only (64 * v)) ones = repeat v 256.
Proof.
  intros Hv. unfold decode_chroma. rewrite idct_flat_coefficient by assumption.
  apply scale_flat.
Qed.

(** X21. At quality 100 (or more) the codec is lossless on blocks of one
    colour: for every colour and every alpha channel, [encode16x16i]
    with the tables of [qtables_encode] followed by [decode16x16i_rgba]
    with the tables of [qtables_decode] gives back the block. *)
Theorem flat_block_is_lossless_at_top_quality
  (r g b quality : Z) (alpha Y0 : list Z) :
  is_byte r -> is_byte g -> is_byte b ->
  length alpha = 256%nat -> length Y0 = 256%nat -> 100 <= quality ->
  exists Y Co Cg A,
    encode16x16i Y0 (fst (IntTables.qtables_encode quality))
                 (snd (IntTables.qtables_encode quality))
                 (flat_rgba r g b alpha) = Some (Y, Co, Cg, A) /\
    decode16x16i_rgba Y Co Cg A (fst (IntTables.qtables_decode quality))
                      (snd (IntTables.qtables_decode quality))
      = flat_rgba r g b alpha.
Proof.
  intros Hr Hg Hb Hal HY Hq.
  rewrite IntTables.qtables_encode_eq, IntTables.qtables_decode_eq.
  cbn [fst snd].
  unfold Quant.quantization_table_luma, Quant.quantization_table_chroma.
  rewrite !IntTables.quantization_table_100 by assumption.
  change (repeat 1 64) with ones.
  do 4 eexists. split; [apply encode16x16i_some; reflexivity|].
  rewrite rgba_to_ycocga_flat by assumption.
  pose proof (rgb_to_ycocg_range r g b Hr Hg Hb) as Hrange.
  pose proof (ycocg_to_rgb_inverse r g b Hr Hg Hb) as Hinv.
  destruct (rgb_to_ycocg r g b) as [[y co] cg].
  destruct Hrange as [Hy [Hco Hcg]].
  cbn [fst snd]. unfold luma_block.
  rewrite !subblock_flat by lia.
  rewrite (subsample_flat (flat_ycocg y co cg) 1 co);
    [|unfold is_int16; lia
     |intros p Hp; now rewrite get_flat_ycocg by lia].
  rewrite (subsample_flat (flat_ycocg y co cg) 2 cg);
    [|unfold is_int16; lia
     |intros p Hp; now rewrite get_flat_ycocg by lia].
  rewrite !fdct8x8iq_flat by (reflexivity || lia).
  rewrite !flat_coefficient by lia.
  unfold decode16x16i_rgba. cbv zeta.
  rewrite (decode_luma_flat Y0 y) by (assumption || lia).
  rewrite !decode_chroma_flat by lia.
  unfold flat_rgba. f_equal. apply map_ext_in. intros i Hi.
  apply in_seq in Hi. unfold decode_pixel.
  assert (E : forall v, get (repeat v 256) i = v)
    by (intros v; unfold get; apply nth_repeat_lt; lia).
  rewrite !E, Hinv.
  now rewrite !clamp_id by assumption.
Qed.

Lemma flat_block_is_lossless_at_top_quality_witness :
  exists Y Co Cg A,
    encode16x16i (repeat 0 256) (fst (IntTables.qtables_encode 100))
                 (snd (IntTables.qtables_encode 100))
                 (flat_rgba 200 30 99 (repeat 128 256)) = Some (Y, Co, Cg, A) /\
    decode16x16i_rgba Y Co Cg A (fst (IntTables.qtables_decode 100))
                      (snd (IntTables.qtables_decode 100))
      = flat_rgba 200 30 99 (repeat 128 256).
Proof.
  apply (flat_block_is_lossless_at_top_quality 200 30 99 100
           (repeat 128 256) (repeat 0 256)).
  - unfold is_byte. lia.
  - unfold is_byte. lia.
  - unfold is_byte. lia.
  - reflexivity.
  - reflexivity.
  - lia.
Defined.

End Decoder.

(** ** Instances for the float tables and the older sampler *)

Module Instances.
Import Int Arr Rounding.

(** A buffer of 768 equal bytes. *)
Definition grey_block : list Z := repeat 100 768.

Lemma quality_tables_product_is_one_witness :
  let '(Qidct, Qfdct) :=
    FloatQuant.quantization_table_scale
      (Quant.quantization_table Quant.JPEGLumaQuant 10) in
  (Qabs (SF2Q (FloatQuant.getf Qidct 9) * SF2Q (FloatQuant.getf Qfdct 9) * 64 - 1)
     <= 1 # 100000)%Q.
Proof.
  apply (FloatQuant.quality_tables_product_is_one Quant.JPEGLumaQuant 10 9).
  lia.
Defined.

Lemma subsample_bias_checkerboard_witness :
  (SF2Q (FloatQuant.getf (Legacy.subsample grey_block 1) (3 * 8 + 4)) ==
   inject_Z (asr (get grey_block (((2 * 3) * 16 + 2 * 4) * 3 + 1)
                  + get grey_block (((2 * 3) * 16 + (2 * 4 + 1)) * 3 + 1)
                  + get grey_block (((2 * 3 + 1) * 16 + 2 * 4) * 3 + 1)
                  + get grey_block (((2 * 3 + 1) * 16 + (2 * 4 + 1)) * 3 + 1)
                  + Legacy.bias 3 4) 2 - 128))%Q.
Proof.
  apply (Legacy.subsample_bias_checkerboard grey_block 1 3 4).
  - apply Color.Forall_is_byte. vm_compute. reflexivity.
  - lia.
  - lia.
Defined.

End Instances.

(** ** The tile counts *)

Module TileCount.
Import Int Arr Rounding Tiler.

(** *** Roundings that are exact *)

Lemma binary_round_aux_exact0 prec emax s p e :
  Zpos (digits2_pos p) = prec -> emin prec emax <= e -> e <= emax - prec ->
  binary_round_aux prec emax s (Zpos p) e loc_Exact = S754_finite s p e.
Proof.
  intros Hd Hmin Hmax. unfold binary_round_aux, shr_fexp.
  cbn [Zdigits2 shr_record_of_loc].
  assert (Hf : fexp prec emax (Zpos (digits2_pos p) + e) - e = 0)
    by (unfold fexp; lia).
  rewrite Hf. cbn [shr shr_m loc_of_shr_record round_nearest_even Zdigits2].
  rewrite Hf. cbn [shr shr_m].
  destruct (Z.leb_spec e (emax - prec)); [reflexivity|lia].
Qed.

Lemma binary_round_aux_exact1 prec emax s p e :
  Zpos (digits2_pos p) = prec -> emin prec emax <= e + 1 -> e + 1 <= emax - prec ->
  binary_round_aux prec emax s (Zpos p~0) e loc_Exact = S754_finite s p (e + 1).
Proof.
  intros Hd Hmin Hmax. unfold binary_round_aux, shr_fexp.
  cbn [Zdigits2 shr_record_of_loc digits2_pos].
  assert (Hf : fexp prec emax (Zpos (Pos.succ (digits2_pos p)) + e) - e = 1)
    by (unfold fexp; lia).
  rewrite Hf.
  cbn [shr SpecFloat.iter_pos shr_1 orb shr_m loc_of_shr_record
       round_nearest_even Zdigits2].
  assert (Hg : fexp prec emax (Zpos (digits2_pos p) + (e + 1)) - (e + 1) = 0)
    by (unfold fexp; lia).
  rewrite Hg. cbn [shr shr_m].
  destruct (Z.leb_spec (e + 1) (emax - prec)); [reflexivity|lia].
Qed.

(** A positive integer below 2^24 converts to [float] exactly. *)
Lemma of_Z_exact z :
  1 <= z < 2 ^ 24 ->
  exists m e,
    F32.of_Z z = S754_finite false m e /\
    Zpos (digits2_pos m) = 24 /\ -23 <= e <= 0 /\ Zpos m = z * 2 ^ (- e).
Proof.
  intros Hz. destruct z as [|p|p]; try lia.
  unfold F32.of_Z, F32.prec, F32.emax. cbn [binary_normalize].
  unfold binary_round.
  pose proof (digits2_pos_bounds p) as [Dlo Dhi].
  set (d := Zpos (digits2_pos p)) in *.
  assert (Hd : 1 <= d <= 24).
  { split; [subst d; lia|].
    destruct (digits2_pos_between p (d - 1) 24 ltac:(lia) ltac:(subst d; lia)) as [_ H0].
    fold d in H0. lia. }
  assert (Hf : fexp 24 128 (d + 0) = d - 24) by (unfold fexp, emin; lia).
  rewrite Hf. unfold shl_align. rewrite Z.sub_0_r.
  destruct (d - 24) as [|q|q] eqn:Eq; try lia.
  - rewrite binary_round_aux_exact0 by (unfold emin; fold d; lia).
    exists p, 0. split; [reflexivity|]. fold d.
    split; [lia|]. split; [lia|]. change (2 ^ (- 0)) with 1. lia.
  - pose proof (iter_xO_pow2 p q) as Hmz.
    set (mz := Pos.iter xO p q) in *.
    assert (Hq : Zpos q = 24 - d) by lia.
    assert (Hdz : Zpos (digits2_pos mz) = 24).
    { apply digits2_pos_unique. rewrite Hmz, Hq.
      pose proof (pow2_pos (24 - d) ltac:(lia)) as Hp.
      assert (H1 : 2 ^ (d - 1) * 2 ^ (24 - d) = 2 ^ (24 - 1)).
      { rewrite <- Z.pow_add_r by lia. f_equal. lia. }
      assert (H2 : 2 ^ d * 2 ^ (24 - d) = 2 ^ 24).
      { rewrite <- Z.pow_add_r by lia. f_equal. lia. }
      nia. }
    rewrite binary_round_aux_exact0 by (unfold emin; lia).
    exists mz, (Zneg q). split; [reflexivity|].
    split; [assumption|]. split; [lia|].
    rewrite Hmz. reflexivity.
Qed.

(** The quotient of two normal numbers, before rounding. *)
Lemma div_unfold mx ex my ey :
  Zpos (digits2_pos mx) = 24 -> Zpos (digits2_pos my) = 24 ->
  -100 <= ex - ey <= 100 ->
  F32.div (S754_finite false mx ex) (S754_finite false my ey) =
    binary_round_aux 24 128 false (Zpos mx * 2 ^ 24 / Zpos my) (ex - ey - 24)
      (new_location (Zpos my) ((Zpos mx * 2 ^ 24) mod Zpos my)).
Proof.
  intros Hx Hy He. unfold F32.div, F32.prec, F32.emax.
  cbn [SFdiv xorb]. unfold SFdiv_core_binary. cbn [Zdigits2].
  rewrite Hx, Hy.
  assert (E : Z.min (fexp 24 128 (24 + ex - (24 + ey))) (ex - ey) = ex - ey - 24).
  { unfold fexp, emin. lia. }
  rewrite E.
  replace (ex - ey - (ex - ey - 24)) with 24 by lia.
  rewrite Z.shiftl_mul_pow2 by lia.
  unfold Z.div, Z.modulo.
  destruct (Z.div_eucl (Zpos mx * 2 ^ 24) (Zpos my)) as [q r].
  reflexivity.
Qed.

Lemma new_location_0 n : new_location n 0 = loc_Exact.
Proof.
  unfold new_location, new_location_even, new_location_odd.
  destruct (Z.even n); reflexivity.
Qed.

(** *** The ceiling of a positive finite number *)

Lemma to_size_ceilf_value m e N :
  1 <= N < 2 ^ 24 ->
  (0 <= e -> Zpos m * 2 ^ e = N) ->
  (e < 0 -> (N - 1) * 2 ^ (- e) < Zpos m <= N * 2 ^ (- e)) ->
  F32.to_size (F32.ceilf (S754_finite false m e)) = Some N.
Proof.
  intros HN Hpos Hneg. unfold F32.to_size, F32.ceilf.
  destruct (Z.leb_spec 0 e) as [He|He].
  - cbn [F32.trunc]. rewrite (proj2 (Z.leb_le 0 e) He).
    rewrite (Hpos He).
    rewrite (proj2 (Z.leb_le 0 N)) by lia.
    rewrite (proj2 (Z.ltb_lt N (2 ^ 64))) by (change (2 ^ 24) with 16777216 in HN;
                                              change (2 ^ 64) with 18446744073709551616; lia).
    reflexivity.
  - specialize (Hneg He).
    pose proof (pow2_pos (- e) ltac:(lia)) as HD.
    assert (En : - ((- Zpos m) / 2 ^ (- e)) = N).
    { assert ((- Zpos m) / 2 ^ (- e) = - N); [|lia].
      symmetry. apply Z.div_unique with (r := N * 2 ^ (- e) - Zpos m); lia. }
    rewrite En.
    change (binary_normalize F32.prec F32.emax N 0 false) with (F32.of_Z N).
    destruct (of_Z_exact N HN) as [m2 [e2 [-> [_ [He2 Hm2]]]]].
    cbn [F32.trunc].
    assert (Ev : (if 0 <=? e2 then Zpos m2 * 2 ^ e2 else Zpos m2 / 2 ^ (- e2)) = N).
    { destruct (Z.leb_spec 0 e2).
      - assert (e2 = 0) by lia. subst e2. change (2 ^ (- 0)) with 1 in Hm2.
        change (2 ^ 0) with 1. lia.
      - rewrite Hm2. apply Z.div_mul.
        pose proof (pow2_pos (- e2) ltac:(lia)). lia. }
    rewrite Ev.
    rewrite (proj2 (Z.leb_le 0 N)) by lia.
    rewrite (proj2 (Z.ltb_lt N (2 ^ 64))) by (change (2 ^ 24) with 16777216 in HN;
                                              change (2 ^ 64) with 18446744073709551616; lia).
    reflexivity.
Qed.

(** *** Integer facts about the quotient *)

Lemma quotient_between (W t k r D Q A : Z) :
  W = k * t + r -> 1 <= r < t -> 0 <= k -> W < 2 ^ 23 -> 1 <= D ->
  Q = W * D / t -> 2 ^ 23 <= Q -> Q <= A <= Q + 1 ->
  t < D /\ k * D < A < (k + 1) * D.
Proof.
  intros HW Hr Hk HWb HD HQ HQb HA.
  assert (Ht : 0 < t) by lia.
  assert (HQ1 : Q * t <= W * D < (Q + 1) * t).
  { subst Q. pose proof (Z.mul_div_le (W * D) t Ht).
    pose proof (Z.mul_succ_div_gt (W * D) t Ht). lia. }
  assert (HtD : t < D).
  { assert (2 ^ 23 * t <= W * D) by nia.
    assert (W * D < 2 ^ 23 * D) by nia. nia. }
  split; [exact HtD|].
  assert (E : W * D = k * D * t + r * D) by (subst W; ring).
  assert (H1 : t <= r * D) by nia.
  assert (H2 : r * D + t < t * D).
  { assert (r * D <= (t - 1) * D) by nia. nia. }
  split.
  - assert (k * D * t + t < (Q + 1) * t) by lia.
    assert (k * D + 1 < Q + 1) by nia. lia.
  - assert (Q * t + t < (k * D + D) * t) by nia.
    assert (Q + 1 < k * D + D) by nia. lia.
Qed.

(** *** The quotient of two integers, rounded up in [float] *)

Lemma ceil_div W t :
  1 <= W < 2 ^ 23 -> 1 <= t < 2 ^ 24 ->
  F32.to_size (F32.ceilf (F32.div (F32.of_Z W) (F32.of_Z t))) =
    Some ((W + t - 1) / t).
Proof.
  intros HW Ht.
  assert (HW' : 1 <= W < 2 ^ 24) by (change (2 ^ 23) with 8388608 in HW;
                                      change (2 ^ 24) with 16777216; lia).
  destruct (of_Z_exact W HW') as [mx [ex [-> [Hdx [Hex Hmx]]]]].
  destruct (of_Z_exact t Ht) as [my [ey [-> [Hdy [Hey Hmy]]]]].
  rewrite div_unfold by (assumption || lia).
  pose proof (digits2_pos_bounds mx) as Bx. rewrite Hdx in Bx.
  pose proof (digits2_pos_bounds my) as By. rewrite Hdy in By.
  change (2 ^ (24 - 1)) with 8388608 in Bx, By.
  change (2 ^ 24) with 16777216 in *. change (2 ^ 23) with 8388608 in *.
  pose proof (pow2_pos (- ex) ltac:(lia)) as HDx.
  pose proof (pow2_pos (- ey) ltac:(lia)) as HDy.
  pose proof (pow2_pos (24 - ex + ey) ltac:(lia)) as HD'.
  assert (HDD : 2 ^ (24 - ex + ey) * 2 ^ (- ey) = 16777216 * 2 ^ (- ex)).
  { rewrite <- Z.pow_add_r by lia.
    replace (24 - ex + ey + - ey) with (24 + - ex) by lia.
    rewrite Z.pow_add_r by lia. reflexivity. }
  set (Dx := 2 ^ (- ex)) in *. set (Dy := 2 ^ (- ey)) in *.
  set (D' := 2 ^ (24 - ex + ey)) in *.
  assert (EP : Zpos mx * 16777216 = W * D' * Dy) by (rewrite Hmx; nia).
  assert (Eq : Zpos mx * 16777216 / Zpos my = W * D' / t).
  { rewrite EP, Hmy. apply Z.div_mul_cancel_r; lia. }
  assert (Er : (Zpos mx * 16777216) mod Zpos my = (W * D') mod t * Dy).
  { rewrite EP, Hmy. apply Z.mul_mod_distr_r; lia. }
  rewrite Eq, Er.
  pose proof (Z.div_mod W t ltac:(lia)) as EW.
  pose proof (Z.mod_pos_bound W t ltac:(lia)) as Hr.
  assert (Hk : 0 <= W / t) by (apply Z.div_pos; lia).
  set (k := W / t) in *. set (r := W mod t) in *.
  (* the quotient has 24 or 25 digits *)
  assert (Hq : 8388608 <= W * D' / t < 33554432).
  { rewrite <- Eq.
    pose proof (Z.mul_div_le (Zpos mx * 16777216) (Zpos my) ltac:(lia)).
    pose proof (Z.mul_succ_div_gt (Zpos mx * 16777216) (Zpos my) ltac:(lia)).
    split; nia. }
  destruct (W * D' / t) as [|qp|qp] eqn:Eqp; try lia.
  assert (Hdq : 23 < Zpos (digits2_pos qp) <= 25).
  { apply digits2_pos_between; [|lia].
    change (2 ^ 23) with 8388608. change (2 ^ 25) with 33554432. lia. }
  assert (He' : -47 <= ex - ey - 24 <= -1) by lia.
  assert (ED' : 2 ^ (- (ex - ey - 24)) = D').
  { subst D'. f_equal. lia. }
  destruct (Z.eq_dec r 0) as [Hr0|Hr0].
  - (* the division is exact *)
    assert (EN : (W + t - 1) / t = k).
    { symmetry. apply Z.div_unique with (r := t - 1); lia. }
    rewrite EN.
    assert (Ekq : Zpos qp = k * D').
    { rewrite <- Eqp. replace (W * D') with (k * D' * t) by nia.
      apply Z.div_mul. lia. }
    assert (Er0 : (W * D') mod t = 0).
    { replace (W * D') with (k * D' * t) by nia. apply Z.mod_mul. lia. }
    rewrite Er0. cbn [Z.mul]. rewrite new_location_0.
    assert (Hk1 : 1 <= k < 16777216) by nia.
    destruct (Z.eq_dec (Zpos (digits2_pos qp)) 24) as [H24|H24].
    + rewrite binary_round_aux_exact0 by (unfold emin; lia).
      apply to_size_ceilf_value.
      * change (2 ^ 24) with 16777216. lia.
      * lia.
      * intros _. rewrite ED'. lia.
    + assert (H25 : Zpos (digits2_pos qp) = 25) by lia.
      assert (Hj : D' = 2 * 2 ^ (23 - ex + ey)).
      { subst D'. rewrite <- Z.pow_succ_r by lia. f_equal. lia. }
      pose proof (pow2_pos (23 - ex + ey) ltac:(lia)) as HD2.
      destruct qp as [p|p|]; [lia| |lia].
      assert (Hp : Zpos (digits2_pos p) = 24).
      { cbn [digits2_pos] in H25. lia. }
      rewrite binary_round_aux_exact1 by (unfold emin; lia).
      assert (Ep : Zpos p = k * 2 ^ (23 - ex + ey)) by lia.
      apply to_size_ceilf_value.
      * change (2 ^ 24) with 16777216. lia.
      * intros He0. assert (E0 : ex - ey - 24 + 1 = 0) by lia.
        rewrite E0. replace (23 - ex + ey) with 0 in Ep by lia.
        change (2 ^ 0) with 1 in *. lia.
      * intros _.
        replace (- (ex - ey - 24 + 1)) with (23 - ex + ey) by lia. lia.
  - (* the division is not exact *)
    assert (EN : (W + t - 1) / t = k + 1).
    { symmetry. apply Z.div_unique with (r := r - 1); lia. }
    rewrite EN.
    set (lz := new_location (Zpos my) ((W * D') mod t * Dy)). clearbody lz.
    set (n := Zpos (digits2_pos qp) - 24).
    destruct (binary_round_aux_sandwich 24 128 false qp (ex - ey - 24) lz
                ltac:(lia)) as [m' [e' [-> [Hm' [He'' Hs]]]]];
      fold n; try (unfold emin; subst n; lia).
    fold n in He'', Hs.
    assert (Hn : n = 0 \/ n = 1) by (subst n; lia).
    pose proof (digits2_pos_bounds qp) as Bq.
    set (e0 := ex - ey - 24 + n) in *.
    pose proof (pow2_pos (- e0) ltac:(subst e0; lia)) as HD0.
    assert (EDn : D' = 2 ^ (- e0) * 2 ^ n).
    { subst D' e0. rewrite <- Z.pow_add_r by lia. f_equal. lia. }
    pose proof (pow2_pos n ltac:(lia)) as Hpn.
    assert (EQ0 : Zpos qp / 2 ^ n = W * 2 ^ (- e0) / t).
    { rewrite <- Eqp, Z.div_div by lia.
      rewrite EDn. rewrite Z.mul_assoc.
      apply Z.div_mul_cancel_r; lia. }
    assert (HQ0 : 8388608 <= Zpos qp / 2 ^ n).
    { destruct Hn as [Hn|Hn].
      - rewrite Hn. change (2 ^ 0) with 1. rewrite Z.div_1_r.
        assert (E24 : Zpos (digits2_pos qp) = 24) by (subst n; lia).
        rewrite E24 in Bq. change (2 ^ (24 - 1)) with 8388608 in Bq. lia.
      - rewrite Hn. change (2 ^ 1) with 2.
        assert (E25 : Zpos (digits2_pos qp) = 25) by (subst n; lia).
        rewrite E25 in Bq. change (2 ^ (25 - 1)) with 16777216 in Bq.
        apply Z.div_le_lower_bound; lia. }
    assert (P1 : W = k * t + r) by lia.
    assert (P2 : 1 <= r < t) by lia.
    assert (P3 : W < 2 ^ 23) by (change (2 ^ 23) with 8388608; lia).
    assert (P4 : 1 <= 2 ^ (- e0)) by lia.
    assert (P5 : 2 ^ 23 <= Zpos qp / 2 ^ n) by (change (2 ^ 23) with 8388608; lia).
    assert (P6 : Zpos qp / 2 ^ n <= Zpos m' * 2 ^ (e' - e0) <= Zpos qp / 2 ^ n + 1)
      by exact Hs.
    destruct (quotient_between W t k r (2 ^ (- e0)) (Zpos qp / 2 ^ n)
                (Zpos m' * 2 ^ (e' - e0)) P1 P2 Hk P3 P4 EQ0 P5 P6)
      as [HtD [Hlo Hhi]].
    assert (He0 : e0 <= -1).
    { destruct (Z_le_gt_dec e0 (-1)); [assumption|].
      assert (e0 = 0) by (subst e0; lia).
      replace (- e0) with 0 in HtD by lia. change (2 ^ 0) with 1 in HtD. lia. }
    assert (Hcase : e' = e0 \/ e' = e0 + 1) by lia.
    apply to_size_ceilf_value.
    + change (2 ^ 24) with 16777216. lia.
    + intros He0'. exfalso.
      assert (e0 = -1) by lia. assert (e' = 0) by lia.
      replace (- e0) with 1 in HtD by lia. change (2 ^ 1) with 2 in HtD. lia.
    + intros Hneg. replace (k + 1 - 1) with k by lia.
      destruct Hcase as [Hc|Hc].
      * rewrite Hc in *. replace (e0 - e0) with 0 in * by lia.
        change (2 ^ 0) with 1 in *. lia.
      * assert (E2 : 2 ^ (- e0) = 2 * 2 ^ (- e')).
        { rewrite <- Z.pow_succ_r by lia. f_equal. lia. }
        replace (e' - e0) with 1 in * by lia.
        change (2 ^ 1) with 2 in *.
        pose proof (pow2_pos (- e') ltac:(lia)). nia.
Qed.

(** *** [tile_count] *)

(** The number of pieces of length [b] needed to cover a length [a]. *)
Definition pieces (a b : Z) : Z := (a + b - 1) / b.

(** The part of a tile that holds image pixels, without the border. *)
Definition inner_width (config : Config.t) : Z :=
  Config.TileWidth config - Config.BorderSize config * 2.

Definition inner_height (config : Config.t) : Z :=
  Config.TileHeight config - Config.BorderSize config * 2.

(** Image and tile dimensions for which the [float] arithmetic of
    [tile_count] is exact enough. *)
Definition small (config : Config.t) : Prop :=
  0 <= Config.BorderSize config < 2 ^ 24 /\
  1 <= inner_width config < 2 ^ 24 /\
  1 <= inner_height config < 2 ^ 24 /\
  1 <= Config.ImageWidth config < 2 ^ 23 /\
  1 <= Config.ImageHeight config < 2 ^ 23.

Lemma to_size_small z : 0 <= z < 2 ^ 60 -> to_size z = z.
Proof.
  intros Hz. unfold to_size. apply Z.mod_small.
  change (2 ^ 60) with 1152921504606846976 in Hz. lia.
Qed.

Lemma pieces_bounds a b :
  1 <= a -> 1 <= b -> 1 <= pieces a b <= a /\
  (pieces a b - 1) * b < a <= pieces a b * b.
Proof.
  intros Ha Hb. unfold pieces.
  pose proof (Z.mul_div_le (a + b - 1) b ltac:(lia)).
  pose proof (Z.mul_succ_div_gt (a + b - 1) b ltac:(lia)).
  assert (1 <= (a + b - 1) / b) by (apply Z.div_le_lower_bound; lia).
  assert ((a + b - 1) / b <= a) by (apply Z.div_le_upper_bound; nia).
  split; [lia|]. split; nia.
Qed.

Lemma tile_count_small config :
  small config ->
  tile_count config =
    Some (pieces (Config.ImageWidth config) (inner_width config),
          pieces (Config.ImageHeight config) (inner_height config),
          pieces (Config.ImageWidth config) (inner_width config)
          * pieces (Config.ImageHeight config) (inner_height config)).
Proof.
  unfold small, inner_width, inner_height.
  intros [Hb [Hw [Hh [HW HH]]]].
  change (2 ^ 24) with 16777216 in *. change (2 ^ 23) with 8388608 in *.
  unfold tile_count.
  rewrite (to_size_small (Config.BorderSize config * 2))
    by (change (2 ^ 60) with 1152921504606846976; lia).
  rewrite !to_size_small by (change (2 ^ 60) with 1152921504606846976; lia).
  rewrite !ceil_div
    by (change (2 ^ 24) with 16777216; change (2 ^ 23) with 8388608; lia).
  fold (pieces (Config.ImageWidth config)
               (Config.TileWidth config - Config.BorderSize config * 2)).
  fold (pieces (Config.ImageHeight config)
               (Config.TileHeight config - Config.BorderSize config * 2)).
  pose proof (pieces_bounds (Config.ImageWidth config)
                (Config.TileWidth config - Config.BorderSize config * 2)
                ltac:(lia) ltac:(lia)) as [Px _].
  pose proof (pieces_bounds (Config.ImageHeight config)
                (Config.TileHeight config - Config.BorderSize config * 2)
                ltac:(lia) ltac:(lia)) as [Py _].
  rewrite to_size_small
    by (change (2 ^ 60) with 1152921504606846976; nia).
  reflexivity.
Qed.

(** X22. For images of fewer than 2^23 pixels a side, [tile_count] returns
    the least numbers of tiles that cover the image in each direction,
    [ceil(ImageWidth / w)] and [ceil(ImageHeight / h)] where [w] and [h]
    are the tile dimensions less twice the border, and their product:
    the division and [ceilf] in [float] lose nothing. *)
Theorem tile_count_is_ceiling (config : Config.t) :
  small config ->
  let tiles_x := pieces (Config.ImageWidth config) (inner_width config) in
  let tiles_y := pieces (Config.ImageHeight config) (inner_height config) in
  tile_count config = Some (tiles_x, tiles_y, tiles_x * tiles_y) /\
  (tiles_x - 1) * inner_width config < Config.ImageWidth config
    <= tiles_x * inner_width config /\
  (tiles_y - 1) * inner_height config < Config.ImageHeight config
    <= tiles_y * inner_height config.
Proof.
  intros Hs tiles_x tiles_y. subst tiles_x tiles_y.
  split; [now apply tile_count_small|].
  destruct Hs as [_ [Hw [Hh [HW HH]]]].
  split.
  - apply pieces_bounds; lia.
  - apply pieces_bounds; lia.
Qed.

Lemma image17_small : small image17.
Proof.
  unfold small, inner_width, inner_height, image17. cbn.
  repeat split; lia.
Qed.

Lemma tile_count_is_ceiling_witness :
  let tiles_x := pieces (Config.ImageWidth image17) (inner_width image17) in
  let tiles_y := pieces (Config.ImageHeight image17) (inner_height image17) in
  tile_count image17 = Some (tiles_x, tiles_y, tiles_x * tiles_y) /\
  (tiles_x - 1) * inner_width image17 < Config.ImageWidth image17
    <= tiles_x * inner_width image17 /\
  (tiles_y - 1) * inner_height image17 < Config.ImageHeight image17
    <= tiles_y * inner_height image17.
Proof.
  apply (tile_count_is_ceiling image17).
  unfold small, inner_width, inner_height, image17. cbn.
  repeat split; lia.
Defined.

(** Beyond 2^24 the conversion of the image width to [float] rounds: an
    image of 2^24 + 1 pixels a side, cut into tiles of one pixel, is
    reported to have 2^24 tiles a side. *)
Example tile_count_large_image :
  tile_count {| Config.TileWidth := 1; Config.TileHeight := 1;
                Config.ImageWidth := 16777217; Config.ImageHeight := 16777217;
                Config.BorderSize := 0; Config.BorderMode := BORDER_CLAMP_TO_EDGE;
                Config.BorderColor := 0; Config.Pixels := [] |}
    = Some (16777216, 16777216, 16777216 * 16777216).
Proof. vm_compute. reflexivity. Qed.

End TileCount.

(** ** The contents of a tile *)

Module TileContents.
Import Int Arr Tiler TileCount.

(** *** Writing a buffer from its start

    The loops of [copy_tile] fill the tile's buffer front to back.  For
    a tile of rows of [w] pixels and an expected content [E i j] of row
    [i], column [j], [filled pos px] says that the buffer [px] has [len]
    pixels and holds the expected content in all positions before
    [pos]. *)

Section Prefix.
Variable w len : Z.
Variable E : Z -> Z -> Z.
Hypothesis Hw : 0 < w.

Definition filled (pos : Z) (px : list Z) : Prop :=
  Z.of_nat (length px) = len /\
  forall i j, 0 <= j < w -> 0 <= i * w + j < pos ->
    get px (Z.to_nat (i * w + j)) = E i j.

Lemma filled_blit pos px vs :
  filled pos px -> 0 <= pos -> pos + Z.of_nat (length vs) <= len ->
  (forall i j, 0 <= j < w -> pos <= i * w + j < pos + Z.of_nat (length vs) ->
     get vs (Z.to_nat (i * w + j - pos)) = E i j) ->
  filled (pos + Z.of_nat (length vs)) (blit px pos vs).
Proof.
  intros [Hlen Hget] Hpos Hroom Hvs. split.
  - unfold blit. rewrite !length_app, length_firstn, length_skipn. lia.
  - intros i j Hj Hk. unfold blit, get.
    destruct (Z_lt_ge_dec (i * w + j) pos) as [Hlt|Hge].
    + rewrite app_nth1 by (rewrite length_firstn; lia).
      rewrite nth_firstn.
      destruct (Nat.ltb_spec (Z.to_nat (i * w + j)) (Z.to_nat pos)); [|lia].
      apply Hget; lia.
    + rewrite app_nth2 by (rewrite length_firstn; lia).
      rewrite length_firstn.
      rewrite app_nth1 by lia.
      replace (Z.to_nat (i * w + j) - Nat.min (Z.to_nat pos) (length px))%nat
        with (Z.to_nat (i * w + j - pos)) by lia.
      apply Hvs; lia.
Qed.

Lemma filled_store_run pos n v px :
  filled pos px -> 0 <= pos -> 0 <= n -> pos + n <= len ->
  (forall i j, 0 <= j < w -> pos <= i * w + j < pos + n -> E i j = v) ->
  exists px', store_run pos n v px = Done tt px' /\ filled (pos + n) px'.
Proof.
  intros Hf Hpos Hn Hroom Hv. unfold store_run.
  destruct Hf as [Hlen Hget].
  destruct (Z.leb_spec n (Z.max 0 (Z.of_nat (length px) - pos))); [|lia].
  eexists. split; [reflexivity|].
  replace (pos + n) with (pos + Z.of_nat (length (repeat v (Z.to_nat n))))
    by (rewrite repeat_length; lia).
  apply filled_blit; try assumption.
  - now split.
  - rewrite repeat_length. lia.
  - rewrite repeat_length. intros i j Hj Hk.
    unfold get. rewrite nth_repeat_lt by lia. symmetry. apply Hv; lia.
Qed.

Lemma get_firstn_skipn (src : list Z) p n d :
  (d < n)%nat -> (p + n <= length src)%nat ->
  get (firstn n (skipn p src)) d = get src (p + d).
Proof.
  intros Hd Hp. unfold get.
  rewrite nth_firstn.
  destruct (Nat.ltb_spec d n); [|lia].
  apply nth_skipn.
Qed.

Lemma filled_copy_run pos (src : list Z) p n px :
  filled pos px -> 0 <= pos -> 0 <= n -> pos + n <= len ->
  0 <= p -> p + n <= Z.of_nat (length src) ->
  (forall i j, 0 <= j < w -> pos <= i * w + j < pos + n ->
     E i j = get src (Z.to_nat (p + (i * w + j - pos)))) ->
  exists px', copy_run pos src p n px = Done tt px' /\ filled (pos + n) px'.
Proof.
  intros Hf Hpos Hn Hroom Hp Hsrc Hv. unfold copy_run.
  destruct Hf as [Hlen Hget].
  destruct (Z.leb_spec 0 p); [|lia].
  replace (Z.min n (Z.min (Z.max 0 (Z.of_nat (length px) - pos))
                          (Z.max 0 (Z.of_nat (length src) - p)))) with n by lia.
  rewrite Z.leb_refl.
  eexists. split; [reflexivity|].
  assert (Hl : length (firstn (Z.to_nat n) (skipn (Z.to_nat p) src)) = Z.to_nat n).
  { rewrite length_firstn, length_skipn. lia. }
  replace (pos + n)
    with (pos + Z.of_nat (length (firstn (Z.to_nat n) (skipn (Z.to_nat p) src))))
    by (rewrite Hl; lia).
  apply filled_blit; try assumption.
  - now split.
  - rewrite Hl. lia.
  - rewrite Hl. intros i j Hj Hk.
    rewrite get_firstn_skipn by lia.
    rewrite Hv by lia. f_equal. lia.
Qed.

(** A whole row copied from an earlier row of the buffer itself. *)
Lemma filled_copy_within i i' px :
  filled (i * w) px -> 0 <= i' -> i' < i -> (i + 1) * w <= len ->
  (forall j, 0 <= j < w -> E i j = E i' j) ->
  exists px', copy_within (i * w) (i' * w) w px = Done tt px' /\
              filled ((i + 1) * w) px'.
Proof.
  intros Hf Hi' Hi Hroom Hv. unfold copy_within.
  replace ((i + 1) * w) with (i * w + w) by lia.
  assert (Hf' := Hf). destruct Hf' as [Hlen Hget].
  apply filled_copy_run; try assumption; try nia.
  intros a j Hj Hk.
  assert (a = i) by nia. subst a.
  replace (i' * w + (i * w + j - i * w)) with (i' * w + j) by lia.
  rewrite Hget by nia. now apply Hv.
Qed.

(** A loop whose every iteration extends the filled part by [step]. *)
Lemma filled_for_loop step (body : Z -> M unit) (n : nat) : forall i0 pos px,
  (forall k px, 0 <= k < Z.of_nat n -> filled (pos + k * step) px ->
     exists px', body (i0 + k) px = Done tt px' /\
                 filled (pos + (k + 1) * step) px') ->
  filled pos px ->
  exists px', for_loop n i0 body px = Done tt px' /\
              filled (pos + Z.of_nat n * step) px'.
Proof.
  induction n as [|n IH]; intros i0 pos px Hbody Hf.
  - exists px. split; [reflexivity|]. now replace (pos + Z.of_nat 0 * step) with pos by lia.
  - cbn [for_loop]. unfold bind.
    destruct (Hbody 0 px ltac:(lia)) as [px1 [E1 F1]].
    { now replace (pos + 0 * step) with pos by lia. }
    replace (i0 + 0) with i0 in E1 by lia. rewrite E1.
    destruct (IH (i0 + 1) (pos + step) px1) as [px2 [E2 F2]].
    + intros k px' Hk Hf'.
      destruct (Hbody (k + 1) px' ltac:(lia)) as [px'' [E'' F'']].
      { now replace (pos + (k + 1) * step) with (pos + step + k * step) by lia. }
      exists px''. split.
      * now replace (i0 + 1 + k) with (i0 + (k + 1)) by lia.
      * now replace (pos + step + (k + 1) * step)
          with (pos + (k + 1 + 1) * step) by lia.
    + now replace (pos + step) with (pos + (0 + 1) * step) by lia.
    + exists px2. split; [exact E2|].
      now replace (pos + Z.of_nat (S n) * step)
        with (pos + step + Z.of_nat n * step) by lia.
Qed.

End Prefix.

(** *** One row of a tile *)

Lemma same_row w i r j :
  0 < w -> 0 <= j < w -> r * w <= i * w + j < (r + 1) * w -> i = r.
Proof. intros Hw Hj Hk. nia. Qed.

Lemma load_in_bounds (src : list Z) p px :
  0 <= p < Z.of_nat (length src) ->
  load src p px = Done (get src (Z.to_nat p)) px.
Proof.
  intros Hp. unfold load.
  destruct (Z.leb_spec 0 p); [|lia].
  destruct (Z.ltb_spec p (Z.of_nat (length src))); [|lia].
  reflexivity.
Qed.

Lemma sample_border_in_bounds config edge px :
  0 <= edge < Z.of_nat (length (Config.Pixels config)) ->
  exists c, sample_border config edge px = Done c px /\
            (Config.BorderMode config = BORDER_CONSTANT_COLOR ->
             c = Config.BorderColor config).
Proof.
  intros He. unfold sample_border.
  destruct (Z.eqb_spec (Config.BorderMode config) BORDER_CLAMP_TO_EDGE) as [E0|E0].
  - rewrite load_in_bounds by assumption. eexists. split; [reflexivity|].
    intros E1. rewrite E1 in E0. discriminate E0.
  - destruct (Z.eqb_spec (Config.BorderMode config) BORDER_CONSTANT_COLOR) as [E1|E1].
    + eexists. split; [reflexivity|]. reflexivity.
    + eexists. split; [reflexivity|]. intros E. contradiction.
Qed.

(** Either there is no border or it has the constant colour. *)
Definition plain_border (config : Config.t) : Prop :=
  Config.BorderSize config = 0 \/
  Config.BorderMode config = BORDER_CONSTANT_COLOR.

Lemma read_row_filled config (E : Z -> Z -> Z) len r src_row sw pad px :
  let w := Config.TileWidth config in
  let b := Config.BorderSize config in
  let P := Config.Pixels config in
  0 < w -> 0 <= r -> 0 <= b -> 1 <= sw -> 0 <= pad ->
  w = b + sw + pad + b -> (r + 1) * w <= len ->
  0 <= src_row -> src_row + sw <= Z.of_nat (length P) ->
  plain_border config ->
  (forall j, 0 <= j < b -> E r j = Config.BorderColor config) ->
  (forall j, b <= j < b + sw -> E r j = get P (Z.to_nat (src_row + (j - b)))) ->
  (forall j, b + sw <= j < b + sw + pad ->
     E r j = get P (Z.to_nat (src_row + sw - 1))) ->
  (forall j, b + sw + pad <= j < w -> E r j = Config.BorderColor config) ->
  filled w len E (r * w) px ->
  exists px', read_row (r * w) src_row sw pad config px = Done tt px' /\
              filled w len E ((r + 1) * w) px'.
Proof.
  intros w b P Hw Hr Hb Hsw Hpad Ew Hroom Hsrc Hsrc' Hplain E1 E2 E3 E4 Hf.
  unfold read_row, bind. fold b. fold P.
  destruct (sample_border_in_bounds config src_row px ltac:(fold P; lia))
    as [cl [-> Hcl]].
  destruct (filled_store_run w len E (r * w) b cl px Hf) as [px1 [-> F1]];
    try nia.
  { intros i j Hj Hk. assert (i = r) by nia. subst i.
    destruct Hplain as [H0|H1]; [fold b in H0; lia|].
    rewrite (Hcl H1). apply E1. nia. }
  destruct (filled_copy_run w len E (r * w + b) P src_row sw px1 F1)
    as [px2 [-> F2]]; try nia.
  { intros i j Hj Hk. assert (i = r) by nia. subst i.
    rewrite E2 by nia. f_equal. lia. }
  rewrite load_in_bounds by (fold P; lia).
  destruct (filled_store_run w len E (r * w + b + sw) pad
              (get P (Z.to_nat (src_row + (sw - 1)))) px2 F2) as [px3 [-> F3]];
    try nia.
  { intros i j Hj Hk. assert (i = r) by nia. subst i.
    rewrite E3 by nia. f_equal. lia. }
  destruct (sample_border_in_bounds config (src_row + (sw - 1)) px3
              ltac:(fold P; lia)) as [cr [-> Hcr]].
  destruct (filled_store_run w len E (r * w + b + sw + pad) b cr px3 F3)
    as [px4 [-> F4]]; try nia.
  { intros i j Hj Hk. assert (i = r) by nia. subst i.
    destruct Hplain as [H0|H1]; [fold b in H0; lia|].
    rewrite (Hcr H1). apply E4. nia. }
  exists px4. split; [reflexivity|].
  now replace ((r + 1) * w) with (r * w + b + sw + pad + b) by lia.
Qed.

(** A row of the top or bottom border. *)
Lemma read_row_border_filled config (E : Z -> Z -> Z) len r src_row sw pad px :
  let w := Config.TileWidth config in
  0 < w -> 0 <= r -> (r + 1) * w <= len ->
  Config.BorderMode config = BORDER_CONSTANT_COLOR ->
  (forall j, 0 <= j < w -> E r j = Config.BorderColor config) ->
  filled w len E (r * w) px ->
  exists px', read_row_border (r * w) w src_row sw pad config px = Done tt px' /\
              filled w len E ((r + 1) * w) px'.
Proof.
  intros w Hw Hr Hroom Hmode HE Hf. unfold read_row_border.
  rewrite Hmode. cbn [Z.eqb BORDER_CONSTANT_COLOR BORDER_CLAMP_TO_EDGE].
  change (1 =? 0) with false. change (1 =? 1) with true. cbv iota.
  replace ((r + 1) * w) with (r * w + w) by lia.
  apply filled_store_run; try assumption; try nia.
  intros i j Hj Hk. assert (i = r) by nia. subst i. now apply HE.
Qed.

Lemma bind_done {A B} (m : M A) (k : A -> M B) px a px1 :
  m px = Done a px1 -> bind m k px = k a px1.
Proof. intros H. unfold bind. now rewrite H. Qed.

(** *** The tile of an index *)

Definition tiles_x (config : Config.t) : Z :=
  pieces (Config.ImageWidth config) (inner_width config).

Definition tiles_y (config : Config.t) : Z :=
  pieces (Config.ImageHeight config) (inner_height config).

(** The image coordinates of the first pixel of tile [index]. *)
Definition origin_x (config : Config.t) (index : Z) : Z :=
  index mod tiles_x config * inner_width config.

Definition origin_y (config : Config.t) (index : Z) : Z :=
  index / tiles_x config * inner_height config.

(** The part of the tile that lies on the image. *)
Definition covered_w (config : Config.t) (index : Z) : Z :=
  Z.min (inner_width config) (Config.ImageWidth config - origin_x config index).

Definition covered_h (config : Config.t) (index : Z) : Z :=
  Z.min (inner_height config) (Config.ImageHeight config - origin_y config index).

(** What the pixel at row [i], column [j] of tile [index] should be:
    the border colour in the border, and elsewhere the image pixel under
    it, or the nearest image pixel where the tile hangs over the right
    or bottom edge of the image. *)
Definition expected (config : Config.t) (index i j : Z) : Z :=
  let b := Config.BorderSize config in
  if (i <? b) || (b + inner_height config <=? i)
     || (j <? b) || (b + inner_width config <=? j)
  then Config.BorderColor config
  else get (Config.Pixels config)
         (Z.to_nat (Z.min (origin_y config index + (i - b))
                          (Config.ImageHeight config - 1)
                    * Config.ImageWidth config
                    + Z.min (origin_x config index + (j - b))
                            (Config.ImageWidth config - 1))).

(** The image and the tile buffer have the sizes the configuration
    announces, and [index] names a tile. *)
Definition well_formed (config : Config.t) (pixels : list Z) (index : Z) : Prop :=
  small config /\ plain_border config /\
  Z.of_nat (length (Config.Pixels config)) =
    Config.ImageWidth config * Config.ImageHeight config /\
  Z.of_nat (length pixels) = Config.TileWidth config * Config.TileHeight config /\
  0 <= index < tiles_x config * tiles_y config.

Lemma geometry config index :
  small config -> 0 <= index < tiles_x config * tiles_y config ->
  let b := Config.BorderSize config in
  let W := Config.ImageWidth config in
  let H := Config.ImageHeight config in
  0 <= b /\ 1 <= inner_width config /\ 1 <= inner_height config /\
  Config.TileWidth config = inner_width config + 2 * b /\
  Config.TileHeight config = inner_height config + 2 * b /\
  0 <= origin_x config index /\ 0 <= origin_y config index /\
  1 <= covered_w config index <= inner_width config /\
  1 <= covered_h config index <= inner_height config /\
  origin_x config index + covered_w config index <= W /\
  origin_y config index + covered_h config index <= H /\
  0 <= index mod tiles_x config < tiles_x config /\
  0 <= index / tiles_x config < tiles_y config /\
  1 <= W /\ 1 <= H.
Proof.
  intros Hs Hi b W H.
  destruct Hs as [Hb [Hw [Hh [HW HH]]]].
  unfold covered_w, covered_h, origin_x, origin_y, tiles_x, tiles_y in *.
  unfold inner_width, inner_height in *. fold b W H in Hb, Hw, Hh, HW, HH, Hi |- *.
  pose proof (pieces_bounds W (Config.TileWidth config - b * 2) ltac:(lia) ltac:(lia))
    as [Px1 Px2].
  pose proof (pieces_bounds H (Config.TileHeight config - b * 2) ltac:(lia) ltac:(lia))
    as [Py1 Py2].
  set (tx := pieces W (Config.TileWidth config - b * 2)) in *.
  set (ty := pieces H (Config.TileHeight config - b * 2)) in *.
  pose proof (Z.mod_pos_bound index tx ltac:(lia)) as Hm.
  assert (Hd : 0 <= index / tx < ty).
  { split; [apply Z.div_pos; lia|]. apply Z.div_lt_upper_bound; lia. }
  set (ix := index mod tx) in *. set (iy := index / tx) in *.
  set (iw := Config.TileWidth config - b * 2) in *.
  set (ih := Config.TileHeight config - b * 2) in *.
  assert (ix * iw <= (tx - 1) * iw) by nia.
  assert (iy * ih <= (ty - 1) * ih) by nia.
  repeat split; try lia; try nia.
Qed.

(** *** The four loops of [copy_tile] *)

Lemma copy_rows_filled config pixels index :
  well_formed config pixels index ->
  let w := Config.TileWidth config in
  let sx := origin_x config index in
  let sy := origin_y config index in
  let sw := covered_w config index in
  let sh := covered_h config index in
  exists px',
    copy_rows config (sy * Config.ImageWidth config + sx) w sw sh
              (inner_width config - sw) (inner_height config - sh) pixels
      = Done tt px' /\
    filled w (w * Config.TileHeight config) (expected config index)
           (w * Config.TileHeight config) px'.
Proof.
  intros Hwf w sx sy sw sh.
  pose proof (geometry config index (proj1 Hwf)
                (proj2 (proj2 (proj2 (proj2 Hwf))))) as G. cbv zeta in G.
  destruct G as [Hb [Hiw [Hih [Ew [Eh [Hsx [Hsy [Hsw [Hsh [Hxw [Hyh [_ [_ [HW HH]]]]]]]]]]]]]].
  destruct Hwf as [_ [Hplain [HP [Hpx _]]]].
  fold w sx sy sw sh in Ew, Hsx, Hsy, Hsw, Hsh, Hxw, Hyh, Hpx.
  set (b := Config.BorderSize config) in *.
  set (iw := inner_width config) in *. set (ih := inner_height config) in *.
  set (W := Config.ImageWidth config) in *. set (H := Config.ImageHeight config) in *.
  set (E := expected config index).
  set (len := w * Config.TileHeight config) in *.
  assert (Hw : 0 < w) by lia.
  assert (Esw : sw = Z.min iw (W - sx)) by reflexivity.
  assert (Esh : sh = Z.min ih (H - sy)) by reflexivity.
  assert (Hlen : len = (b + ih + b) * w) by (subst len; nia).
  assert (F0 : filled w len E 0 pixels).
  { split; [assumption|]. intros i j Hj Hk. lia. }
  unfold copy_rows. fold b W. cbv zeta.
  (* the top border *)
  destruct (filled_for_loop w len E w
              (fun i => read_row_border (i * w) w (sy * W + sx) sw (iw - sw) config)
              (Z.to_nat b) 0 0 pixels) as [px1 [L1 F1]]; [|exact F0|].
  { intros k px Hk Hf. cbv beta.
    replace ((0 + k) * w) with (k * w) by lia.
    replace (0 + (k + 1) * w) with ((k + 1) * w) by lia.
    replace (0 + k * w) with (k * w) in Hf by lia.
    apply read_row_border_filled; try assumption; try nia.
    - destruct Hplain as [H0|H1]; [fold b in H0; lia|exact H1].
    - intros j Hj. subst E. unfold expected. fold b iw ih W H sx sy.
      destruct (Z.ltb_spec k b); [reflexivity|lia]. }
  rewrite (bind_done _ _ _ _ _ L1).
  replace (0 + Z.of_nat (Z.to_nat b) * w) with (b * w) in F1 by lia.
  (* the rows of the image *)
  destruct (filled_for_loop w len E w
              (fun i => read_row (b * w + i * w) (sy * W + sx + i * W) sw (iw - sw) config)
              (Z.to_nat sh) 0 (b * w) px1) as [px2 [L2 F2]]; [|exact F1|].
  { intros k px Hk Hf. cbv beta.
    replace (b * w + (0 + k) * w) with ((b + k) * w) by lia.
    replace (b * w + (k + 1) * w) with ((b + k + 1) * w) by lia.
    replace (b * w + k * w) with ((b + k) * w) in Hf by lia.
    replace (sy * W + sx + (0 + k) * W) with ((sy + k) * W + sx) by lia.
    apply read_row_filled; try assumption; fold b; try lia; try nia.
    - intros j Hj. subst E. unfold expected. fold b iw ih W H sx sy.
      destruct (Z.ltb_spec (b + k) b); [lia|].
      destruct (Z.leb_spec (b + ih) (b + k)); [lia|].
      destruct (Z.ltb_spec j b); [reflexivity|lia].
    - intros j Hj. subst E. unfold expected. fold b iw ih W H sx sy.
      destruct (Z.ltb_spec (b + k) b); [lia|].
      destruct (Z.leb_spec (b + ih) (b + k)); [lia|].
      destruct (Z.ltb_spec j b); [lia|].
      destruct (Z.leb_spec (b + iw) j); [lia|].
      cbn [orb]. f_equal. f_equal.
      replace (Z.min (sy + (b + k - b)) (H - 1)) with (sy + k) by lia.
      replace (Z.min (sx + (j - b)) (W - 1)) with (sx + (j - b)) by lia.
      lia.
    - intros j Hj. subst E. unfold expected. fold b iw ih W H sx sy.
      destruct (Z.ltb_spec (b + k) b); [lia|].
      destruct (Z.leb_spec (b + ih) (b + k)); [lia|].
      destruct (Z.ltb_spec j b); [lia|].
      destruct (Z.leb_spec (b + iw) j); [lia|].
      cbn [orb]. f_equal. f_equal.
      assert (sw = W - sx) by lia.
      replace (Z.min (sy + (b + k - b)) (H - 1)) with (sy + k) by lia.
      replace (Z.min (sx + (j - b)) (W - 1)) with (W - 1) by lia.
      lia.
    - intros j Hj. subst E. unfold expected. fold b iw ih W H sx sy.
      destruct (Z.leb_spec (b + iw) j); [|lia].
      now rewrite !orb_true_r. }
  rewrite (bind_done _ _ _ _ _ L2).
  replace (b * w + Z.of_nat (Z.to_nat sh) * w) with ((b + sh) * w) in F2 by lia.
  (* the rows below the image *)
  destruct (filled_for_loop w len E w
              (fun i => copy_within (b * w + sh * w + i * w) (b * w + sh * w - w) w)
              (Z.to_nat (ih - sh)) 0 ((b + sh) * w) px2) as [px3 [L3 F3]];
    [|exact F2|].
  { intros k px Hk Hf. cbv beta.
    replace (b * w + sh * w + (0 + k) * w) with ((b + sh + k) * w) by lia.
    replace (b * w + sh * w - w) with ((b + sh - 1) * w) by lia.
    replace ((b + sh) * w + (k + 1) * w) with ((b + sh + k + 1) * w) by lia.
    replace ((b + sh) * w + k * w) with ((b + sh + k) * w) in Hf by lia.
    apply filled_copy_within; try assumption; try lia; try nia.
    intros j Hj. subst E. unfold expected. fold b iw ih W H sx sy.
    destruct (Z.ltb_spec (b + sh + k) b); [lia|].
    destruct (Z.leb_spec (b + ih) (b + sh + k)); [lia|].
    destruct (Z.ltb_spec (b + sh - 1) b); [lia|].
    destruct (Z.leb_spec (b + ih) (b + sh - 1)); [lia|].
    cbn [orb].
    destruct ((j <? b) || (b + iw <=? j)); [reflexivity|].
    assert (sh = H - sy) by lia.
    f_equal. f_equal. f_equal. lia. }
  rewrite (bind_done _ _ _ _ _ L3).
  rewrite Z2Nat.id in F3 by lia.
  replace ((b + sh) * w + (ih - sh) * w) with ((b + ih) * w) in F3 by lia.
  (* the bottom border *)
  destruct (filled_for_loop w len E w
              (fun i => read_row_border (b * w + sh * w + (ih - sh) * w + i * w) w
                          (sy * W + sx + sh * W) sw (iw - sw) config)
              (Z.to_nat b) 0 ((b + ih) * w) px3) as [px4 [L4 F4]]; [|exact F3|].
  { intros k px Hk Hf. cbv beta.
    replace (b * w + sh * w + (ih - sh) * w + (0 + k) * w)
      with ((b + ih + k) * w) by lia.
    replace ((b + ih) * w + (k + 1) * w) with ((b + ih + k + 1) * w) by lia.
    replace ((b + ih) * w + k * w) with ((b + ih + k) * w) in Hf by lia.
    apply read_row_border_filled; try assumption; try nia.
    - destruct Hplain as [H0|H1]; [fold b in H0; lia|exact H1].
    - intros j Hj. subst E. unfold expected. fold b iw ih W H sx sy.
      destruct (Z.leb_spec (b + ih) (b + ih + k)); [|lia].
      now rewrite orb_true_r. }
  exists px4. split; [exact L4|].
  now replace ((b + ih) * w + Z.of_nat (Z.to_nat b) * w) with len in F4 by lia.
Qed.

(** *** [copy_tile] *)

Lemma pad_split a n limit :
  0 <= a -> 1 <= n -> a < limit -> limit < 2 ^ 30 -> n < 2 ^ 30 ->
  (if to_size (a + n) >? limit
   then (to_size (n - to_size (limit - a)), to_size (limit - a))
   else (0, n)) = (n - Z.min n (limit - a), Z.min n (limit - a)).
Proof.
  intros Ha Hn Hl Hlim Hnb.
  change (2 ^ 30) with 1073741824 in *.
  rewrite (to_size_small (a + n))
    by (change (2 ^ 60) with 1152921504606846976; lia).
  destruct (a + n >? limit) eqn:Ec.
  - apply Z.gtb_lt in Ec.
    rewrite (to_size_small (limit - a))
      by (change (2 ^ 60) with 1152921504606846976; lia).
    rewrite to_size_small by (change (2 ^ 60) with 1152921504606846976; lia).
    f_equal; lia.
  - rewrite Z.gtb_ltb in Ec. apply Z.ltb_ge in Ec. f_equal; lia.
Qed.

Lemma copy_tile_filled tile config index :
  well_formed config (Tile.Pixels tile) index ->
  exists px',
    copy_tile tile config index =
      Returns true
        {| Tile.SourceX := origin_x config index;
           Tile.SourceY := origin_y config index;
           Tile.SourceWidth := covered_w config index;
           Tile.SourceHeight := covered_h config index;
           Tile.TileX := index mod tiles_x config;
           Tile.TileY := index / tiles_x config;
           Tile.TileIndex := index;
           Tile.TileWidth := Config.TileWidth config;
           Tile.TileHeight := Config.TileHeight config;
           Tile.BytesPerRow := Config.TileWidth config * 4;
           Tile.BytesPerTile :=
             Config.TileWidth config * Config.TileHeight config * 4;
           Tile.Pixels := px' |} /\
    filled (Config.TileWidth config)
           (Config.TileWidth config * Config.TileHeight config)
           (expected config index)
           (Config.TileWidth config * Config.TileHeight config) px'.
Proof.
  intros Hwf.
  destruct (copy_rows_filled config (Tile.Pixels tile) index Hwf) as [px' [Hrows Hf]].
  cbv zeta in Hrows, Hf.
  pose proof (geometry config index (proj1 Hwf)
                (proj2 (proj2 (proj2 (proj2 Hwf))))) as G. cbv zeta in G.
  destruct G as [Hb [Hiw [Hih [Ew [Eh [Hsx [Hsy [Hsw [Hsh [Hxw [Hyh [Hix [Hiy [HW HH]]]]]]]]]]]]]].
  destruct Hwf as [Hs [_ [_ [_ Hi]]]].
  exists px'. split; [|exact Hf].
  unfold copy_tile. rewrite (tile_count_small config Hs).
  fold (tiles_x config) (tiles_y config).
  destruct (Z.leb_spec (tiles_x config * tiles_y config) index); [lia|].
  destruct Hs as [Hbb [Hw [Hh [HWb HHb]]]].
  change (2 ^ 24) with 16777216 in *. change (2 ^ 23) with 8388608 in *.
  cbv zeta.
  fold (inner_width config) (inner_height config).
  rewrite (to_size_small (inner_width config)),
    (to_size_small (inner_height config))
    by (change (2 ^ 60) with 1152921504606846976; lia).
  fold (origin_x config index) (origin_y config index).
  assert (Bx : origin_x config index < 8388608) by lia.
  assert (By : origin_y config index < 8388608) by lia.
  rewrite (to_size_small (origin_x config index)),
    (to_size_small (origin_y config index))
    by (change (2 ^ 60) with 1152921504606846976; lia).
  rewrite (pad_split (origin_x config index) (inner_width config)
             (Config.ImageWidth config))
    by (change (2 ^ 30) with 1073741824; unfold covered_w in *; lia).
  rewrite (pad_split (origin_y config index) (inner_height config)
             (Config.ImageHeight config))
    by (change (2 ^ 30) with 1073741824; unfold covered_h in *; lia).
  fold (covered_w config index) (covered_h config index).
  rewrite Hrows.
  rewrite !to_size_small by (change (2 ^ 60) with 1152921504606846976; nia).
  reflexivity.
Qed.

(** X23. For an image of fewer than 2^23 pixels a side with no border or a
    border of constant colour, and a tile buffer of
    [TileWidth * TileHeight] pixels, [copy_tile] returns true for every
    index below the tile count.  The pixel at row [i], column [j] of the
    tile is the border colour inside the border, and otherwise the image
    pixel at row [min(SourceY + i - border, ImageHeight - 1)], column
    [min(SourceX + j - border, ImageWidth - 1)]: where the tile hangs
    over the right or bottom edge, the last column or row of the image
    is repeated.  The metadata names the tile's place and its part of
    the image. *)
Theorem copy_tile_contents (tile : Tile.t) (config : Config.t) (index : Z) :
  well_formed config (Tile.Pixels tile) index ->
  exists tile',
    copy_tile tile config index = Returns true tile' /\
    Tile.TileIndex tile' = index /\
    Tile.TileX tile' = index mod tiles_x config /\
    Tile.TileY tile' = index / tiles_x config /\
    Tile.SourceX tile' = Tile.TileX tile' * inner_width config /\
    Tile.SourceY tile' = Tile.TileY tile' * inner_height config /\
    Tile.SourceWidth tile' =
      Z.min (inner_width config) (Config.ImageWidth config - Tile.SourceX tile') /\
    Tile.SourceHeight tile' =
      Z.min (inner_height config) (Config.ImageHeight config - Tile.SourceY tile') /\
    length (Tile.Pixels tile') = length (Tile.Pixels tile) /\
    forall i j, 0 <= i < Config.TileHeight config ->
                0 <= j < Config.TileWidth config ->
      get (Tile.Pixels tile') (Z.to_nat (i * Config.TileWidth config + j)) =
        expected config index i j.
Proof.
  intros Hwf.
  destruct (copy_tile_filled tile config index Hwf) as [px' [Hc [Hlen Hget]]].
  eexists. split; [exact Hc|]. cbn [Tile.TileIndex Tile.TileX Tile.TileY
    Tile.SourceX Tile.SourceY Tile.SourceWidth Tile.SourceHeight Tile.Pixels].
  repeat (split; [reflexivity|]).
  destruct Hwf as [_ [_ [_ [Hpx _]]]].
  split; [lia|].
  intros i j Hi Hj. apply Hget; [assumption|]. nia.
Qed.

(** A 5x5 image cut into 4x4 tiles with a border of one pixel in the
    constant colour 9: nine tiles of 2x2 image pixels, the last column
    and row of tiles hanging over the edge. *)
Definition framed : Config.t :=
  {| Config.TileWidth := 4; Config.TileHeight := 4;
     Config.ImageWidth := 5; Config.ImageHeight := 5;
     Config.BorderSize := 1;
     Config.BorderMode := BORDER_CONSTANT_COLOR;
     Config.BorderColor := 9;
     Config.Pixels := tabulate 25 (fun k => 100 + Z.of_nat k) |}.

(** The last tile of [framed]: the border, and the image's last pixel
    repeated over the 2x2 interior. *)
Example copy_tile_framed_last :
  exists tile', copy_tile (fresh_tile 16) framed 8 = Returns true tile' /\
    Tile.Pixels tile' = [9; 9; 9; 9;  9; 124; 124; 9;  9; 124; 124; 9;  9; 9; 9; 9].
Proof. eexists. split; vm_compute; reflexivity. Qed.

Lemma copy_tile_contents_witness :
  exists tile',
    copy_tile (fresh_tile 16) framed 5 = Returns true tile' /\
    Tile.TileIndex tile' = 5 /\
    Tile.TileX tile' = 5 mod tiles_x framed /\
    Tile.TileY tile' = 5 / tiles_x framed /\
    Tile.SourceX tile' = Tile.TileX tile' * inner_width framed /\
    Tile.SourceY tile' = Tile.TileY tile' * inner_height framed /\
    Tile.SourceWidth tile' =
      Z.min (inner_width framed) (Config.ImageWidth framed - Tile.SourceX tile') /\
    Tile.SourceHeight tile' =
      Z.min (inner_height framed) (Config.ImageHeight framed - Tile.SourceY tile') /\
    length (Tile.Pixels tile') = length (Tile.Pixels (fresh_tile 16)) /\
    forall i j, 0 <= i < Config.TileHeight framed ->
                0 <= j < Config.TileWidth framed ->
      get (Tile.Pixels tile') (Z.to_nat (i * Config.TileWidth framed + j)) =
        expected framed 5 i j.
Proof.
  apply (copy_tile_contents (fresh_tile 16) framed 5).
  unfold well_formed, small, plain_border, inner_width, inner_height.
  split; [cbn; repeat split; lia|].
  split; [right; reflexivity|].
  split; [reflexivity|].
  split; [reflexivity|].
  vm_compute. split; [discriminate|reflexivity].
Defined.

(** *** Borders clamped to the edge *)

Lemma copy_rows_traps config src_row dst_num sw sh pr pb px :
  Config.BorderMode config = BORDER_CLAMP_TO_EDGE ->
  1 <= Config.BorderSize config ->
  Z.of_nat (length (Config.Pixels config))
    <= src_row + sh * Config.ImageWidth config ->
  exists px', copy_rows config src_row dst_num sw sh pr pb px = Trap px'.
Proof.
  intros Hmode Hb Hsrc. unfold copy_rows, bind.
  destruct (for_loop (Z.to_nat (Config.BorderSize config)) 0 _ px) as [[] px1|px1];
    [|eexists; reflexivity].
  destruct (for_loop (Z.to_nat sh) 0 _ px1) as [[] px2|px2];
    [|eexists; reflexivity].
  destruct (for_loop (Z.to_nat pb) 0 _ px2) as [[] px3|px3];
    [|eexists; reflexivity].
  destruct (Z.to_nat (Config.BorderSize config)) as [|n] eqn:En; [lia|].
  cbn [for_loop]. unfold bind, read_row_border. rewrite Hmode.
  cbn [Z.eqb BORDER_CLAMP_TO_EDGE].
  unfold read_row, bind, sample_border. rewrite Hmode.
  cbn [Z.eqb BORDER_CLAMP_TO_EDGE]. unfold load.
  destruct (Z.ltb_spec (src_row + sh * Config.ImageWidth config)
              (Z.of_nat (length (Config.Pixels config)))); [lia|].
  rewrite andb_false_r. eexists. reflexivity.
Qed.

(** X24. With a border clamped to the edge, [copy_tile] does not return for
    a tile of the last row of tiles: after the rows of the image its
    source pointer is at the end of the image, and the first row of the
    bottom border is read from there. *)
Theorem copy_tile_clamped_border_overruns_image
  (tile : Tile.t) (config : Config.t) (index : Z) :
  small config ->
  Config.BorderMode config = BORDER_CLAMP_TO_EDGE ->
  1 <= Config.BorderSize config ->
  Z.of_nat (length (Config.Pixels config)) =
    Config.ImageWidth config * Config.ImageHeight config ->
  0 <= index < tiles_x config * tiles_y config ->
  index / tiles_x config = tiles_y config - 1 ->
  exists px, copy_tile tile config index = Undefined px.
Proof.
  intros Hs Hmode Hb1 HP Hi Hlast.
  pose proof (geometry config index Hs Hi) as G. cbv zeta in G.
  destruct G as [Hb [Hiw [Hih [Ew [Eh [Hsx [Hsy [Hsw [Hsh [Hxw [Hyh [Hix [Hiy [HW HH]]]]]]]]]]]]]].
  assert (Ebot : origin_y config index + covered_h config index
                 = Config.ImageHeight config).
  { unfold covered_h, origin_y in *. rewrite Hlast in *.
    destruct Hs as [_ [_ [Hh [_ HHb]]]].
    pose proof (pieces_bounds (Config.ImageHeight config) (inner_height config)
                  ltac:(lia) ltac:(lia)) as [_ Pb].
    fold (tiles_y config) in Pb. lia. }
  unfold copy_tile. rewrite (tile_count_small config Hs).
  fold (tiles_x config) (tiles_y config).
  destruct (Z.leb_spec (tiles_x config * tiles_y config) index); [lia|].
  destruct Hs as [Hbb [Hw [Hh [HWb HHb]]]].
  change (2 ^ 24) with 16777216 in *. change (2 ^ 23) with 8388608 in *.
  cbv zeta.
  fold (inner_width config) (inner_height config).
  rewrite (to_size_small (inner_width config)),
    (to_size_small (inner_height config))
    by (change (2 ^ 60) with 1152921504606846976; lia).
  fold (origin_x config index) (origin_y config index).
  assert (Bx : origin_x config index < 8388608) by lia.
  assert (By : origin_y config index < 8388608) by lia.
  rewrite (to_size_small (origin_x config index)),
    (to_size_small (origin_y config index))
    by (change (2 ^ 60) with 1152921504606846976; lia).
  rewrite (pad_split (origin_x config index) (inner_width config)
             (Config.ImageWidth config))
    by (change (2 ^ 30) with 1073741824; unfold covered_w in *; lia).
  rewrite (pad_split (origin_y config index) (inner_height config)
             (Config.ImageHeight config))
    by (change (2 ^ 30) with 1073741824; unfold covered_h in *; lia).
  fold (covered_w config index) (covered_h config index).
  destruct (copy_rows_traps config
              (origin_y config index * Config.ImageWidth config + origin_x config index)
              (Config.TileWidth config) (covered_w config index)
              (covered_h config index)
              (inner_width config - covered_w config index)
              (inner_height config - covered_h config index)
              (Tile.Pixels tile) Hmode Hb1) as [px' ->].
  { rewrite HP. nia. }
  exists px'. reflexivity.
Qed.

(** The 5x5 image of [framed] with its border clamped to the edge. *)
Definition clamped : Config.t :=
  {| Config.TileWidth := 4; Config.TileHeight := 4;
     Config.ImageWidth := 5; Config.ImageHeight := 5;
     Config.BorderSize := 1;
     Config.BorderMode := BORDER_CLAMP_TO_EDGE;
     Config.BorderColor := 9;
     Config.Pixels := tabulate 25 (fun k => 100 + Z.of_nat k) |}.

Lemma copy_tile_clamped_border_overruns_image_witness :
  exists px, copy_tile (fresh_tile 16) clamped 6 = Undefined px.
Proof.
  apply (copy_tile_clamped_border_overruns_image (fresh_tile 16) clamped 6).
  - unfold small, inner_width, inner_height. cbn. repeat split; lia.
  - reflexivity.
  - cbn. lia.
  - reflexivity.
  - vm_compute. split; [discriminate|reflexivity].
  - vm_compute. reflexivity.
Defined.

(** Away from the last row the bottom border is not the tile's last row
    either: it is read from the image row below the tile.  Tile 0 of
    [clamped] covers image rows 0 and 1; its last row holds pixels of
    image row 2. *)
Example copy_tile_clamped_border_reads_next_row :
  exists tile', copy_tile (fresh_tile 16) clamped 0 = Returns true tile' /\
    Tile.Pixels tile' =
      [100; 100; 101; 101;  100; 100; 101; 101;
       105; 105; 106; 106;  110; 110; 111; 111].
Proof. eexists. split; vm_compute; reflexivity. Qed.

End TileContents.
